(** * A shallow embedding of the Monte Carlo tree search of [AI/ai_MCTS.py]

    The Python module keeps a tree of [Game_Node] objects that point to
    each other (children lists, parent back-references) and are mutated in
    place.  The embedding keeps these objects in an arena: a node reference
    is an index into a list of node records, allocation appends to the
    list, and every method is a computation in a state-and-exception monad
    over that arena.

    Two collaborators of the module are external to it and are taken as
    interfaces:
    - the floating-point arithmetic of Python, numpy and TensorFlow
      ([Scalar]): the embedding never rounds by itself, it only records
      which operation is applied to which operands and when an operation
      raises;
    - the chess engine and the two neural networks ([GameEngine]). *)

From stdpp Require Import base numbers list strings relations.

Local Open Scope Z_scope.

(** ** Floating-point interface *)

(** [F] stands for the scalars that flow through the search (Python floats,
    numpy scalars and the entries of TensorFlow tensors; the conversions
    done by [tf.constant] and [float] between them are part of the
    operations).  The three laws are facts about IEEE comparison and about
    the logarithm of a positive integer. *)
Class Scalar := {
  F : Type;
  f_of_int : Z → F;
  f_quarter : F;
  f_half : F;
  f_three_quarters : F;
  f_add : F → F → F;
  f_mul : F → F → F;
  f_div : F → F → F;
  f_sqrt : F → F;
  f_log_int : Z → F;
  int_true_div : Z → Z → F;
  f_ltb : F → F → bool;
  f_leb : F → F → bool;
  reduce_sum : list F → F;
  f_leb_not_ltb : ∀ a b, f_leb a b = true → f_ltb b a = false;
  f_log_sign : ∀ N, 1 ≤ N → f_ltb (f_log_int N) (f_of_int 0) = false;
  f_log_div_sign : ∀ N n, 1 ≤ N → 0 < n →
    f_ltb (f_div (f_log_int N) (f_of_int n)) (f_of_int 0) = false
}.

(** ** Game engine and evaluators *)

(** A [Game] value is the whole state of a game object; the methods that
    mutate the object in Python are functions to the new state.
    [copy.deepcopy] is then the identity. *)
Class GameEngine `{Scalar} := {
  Game : Type;
  Move : Type;
  Board : Type;
  Bits : Type;
  Move_eq_dec :: EqDecision Move;
  legal_moves : Game → list Move;
  move_turn : Game → string;
  stalemate : Game → bool;
  white_win : Game → option bool;
  board : Game → Board;
  check_for_checkmate : Game → Game;
  look_for_draws : Game → Game;
  play_machine_move : Game → Move → Game;
  to_bits : Game → Bits;
  VALUE_NETWORK : Bits → F;
  POLICY_NETWORK : Bits → list F
}.

(** ** Exceptions and the arena monad *)

Inductive exn :=
| ZeroDivisionError
| ValueError
| AttributeError
| TypeError
| IndexError
| InvalidArgumentError
| DanglingReference
| OutOfFuel.

Inductive res (A : Type) :=
| Ok (a : A)
| Err (e : exn).
Arguments Ok {A} a.
Arguments Err {A} e.

(** A reference to a [Game_Node] object. *)
Abbreviation node_ref := nat.

Section Model.
Context `{GameEngine}.

(** The attributes of a [Game_Node] object.  [parent_node = None] is the
    Python value [False]; [move = None] and the two policy fields being
    [None] are the Python [None]. *)
Record Game_Node := mkNode {
  move : option Move;
  game : Game;
  parent_node : option node_ref;
  bitboard : Bits;
  value_evaluation : F;
  policy_vector : option (list F);
  policy_vector_legal_moves : option (list F);
  number_of_visits : Z;
  child_nodes : list node_ref;
  visited_boards : list Board;
  wins : Z;
  terminal_game_state : bool
}.

(** The arena: a node reference is a position in this list. *)
Abbreviation heap := (list Game_Node).

Definition M (A : Type) := heap → res (A * heap).

Definition ret {A} (a : A) : M A := λ h, Ok (a, h).

Definition raise {A} (e : exn) : M A := λ _, Err e.

Definition bind {A B} (m : M A) (k : A → M B) : M B :=
  λ h, match m h with
       | Ok (a, h') => k a h'
       | Err e => Err e
       end.

Definition lift {A} (r : res A) : M A :=
  λ h, match r with Ok a => Ok (a, h) | Err e => Err e end.

Notation "'let*' x ':=' m 'in' k" := (bind m (λ x, k))
  (at level 10, x pattern, m at level 100, k at level 200).

(** [try: m except ZeroDivisionError: handler].  The guarded bodies of
    the module only read the heap, so the handler starts from the heap
    the body started from. *)
Definition try_except_ZeroDivisionError {A} (m handler : M A) : M A :=
  λ h, match m h with
       | Err ZeroDivisionError => handler h
       | r => r
       end.

Definition get_node (r : node_ref) : M Game_Node :=
  λ h, match h !! r with
       | Some nd => Ok (nd, h)
       | None => Err DanglingReference
       end.

Definition update_node (r : node_ref) (f : Game_Node → Game_Node) : M unit :=
  λ h, match h !! r with
       | Some nd => Ok (tt, <[r := f nd]> h)
       | None => Err DanglingReference
       end.

Definition alloc_node (nd : Game_Node) : M node_ref :=
  λ h, Ok (length h, h ++ [nd]).

(** Attribute assignments. *)
Definition set_parent_node (p : option node_ref) (nd : Game_Node) : Game_Node :=
  mkNode (move nd) (game nd) p (bitboard nd) (value_evaluation nd)
    (policy_vector nd) (policy_vector_legal_moves nd) (number_of_visits nd)
    (child_nodes nd) (visited_boards nd) (wins nd) (terminal_game_state nd).

Definition set_policy_vector (v : option (list F)) (nd : Game_Node) : Game_Node :=
  mkNode (move nd) (game nd) (parent_node nd) (bitboard nd) (value_evaluation nd)
    v (policy_vector_legal_moves nd) (number_of_visits nd)
    (child_nodes nd) (visited_boards nd) (wins nd) (terminal_game_state nd).

Definition set_policy_vector_legal_moves (v : option (list F)) (nd : Game_Node) : Game_Node :=
  mkNode (move nd) (game nd) (parent_node nd) (bitboard nd) (value_evaluation nd)
    (policy_vector nd) v (number_of_visits nd)
    (child_nodes nd) (visited_boards nd) (wins nd) (terminal_game_state nd).

Definition set_number_of_visits (n : Z) (nd : Game_Node) : Game_Node :=
  mkNode (move nd) (game nd) (parent_node nd) (bitboard nd) (value_evaluation nd)
    (policy_vector nd) (policy_vector_legal_moves nd) n
    (child_nodes nd) (visited_boards nd) (wins nd) (terminal_game_state nd).

Definition set_wins (w : Z) (nd : Game_Node) : Game_Node :=
  mkNode (move nd) (game nd) (parent_node nd) (bitboard nd) (value_evaluation nd)
    (policy_vector nd) (policy_vector_legal_moves nd) (number_of_visits nd)
    (child_nodes nd) (visited_boards nd) w (terminal_game_state nd).

(** [self.child_nodes.append(c); self.visited_boards.append(b)] *)
Definition append_child (c : node_ref) (b : Board) (nd : Game_Node) : Game_Node :=
  mkNode (move nd) (game nd) (parent_node nd) (bitboard nd) (value_evaluation nd)
    (policy_vector nd) (policy_vector_legal_moves nd) (number_of_visits nd)
    (child_nodes nd ++ [c]) (visited_boards nd ++ [b]) (wins nd)
    (terminal_game_state nd).

(** ** [Game_Node.__init__] *)

Definition float_of_bool (b : bool) : F := f_of_int (if b then 1 else 0).

(** The value stored by lines 36-42, as a function of the bitboard taken
    before and of the game state left after [check_for_checkmate] and
    [look_for_draws]. *)
Definition initial_evaluation (bits : Bits) (g : Game) : F :=
  if stalemate g then
    match white_win g with
    | Some b => float_of_bool b
    | None => f_half
    end
  else VALUE_NETWORK bits.

Definition new_node (g0 : Game) (mv : option Move) (parent : option node_ref) : Game_Node :=
  let bits := to_bits g0 in
  let g := look_for_draws (check_for_checkmate g0) in
  {| move := mv;
     game := g;
     parent_node := parent;
     bitboard := bits;
     value_evaluation := initial_evaluation bits g;
     policy_vector := None;
     policy_vector_legal_moves := None;
     number_of_visits := 0;
     child_nodes := [];
     visited_boards := [];
     wins := 0;
     terminal_game_state := if decide (0 < length (legal_moves g))%nat then false else true |}.

Definition Game_Node_init (g0 : Game) (mv : option Move) (parent : option node_ref)
  : M node_ref :=
  alloc_node (new_node g0 mv parent).

(** ** [make_a_move] *)

Fixpoint make_a_move_loop (mv : option Move) (cs : list node_ref) : M (option node_ref) :=
  match cs with
  | [] => ret None
  | c :: cs' =>
      let* cn := get_node c in
      if decide (mv = move cn) then ret (Some c) else make_a_move_loop mv cs'
  end.

Definition make_a_move (self : node_ref) (mv : option Move) : M (option node_ref) :=
  let* nd := get_node self in
  make_a_move_loop mv (child_nodes nd).

(** ** [init_all_children] *)

Fixpoint init_all_children_loop (self : node_ref) (g : Game) (moves : list Move) : M unit :=
  match moves with
  | [] => ret tt
  | mv :: moves' =>
      let new_game := play_machine_move g mv in
      let* c := Game_Node_init new_game (Some mv) (Some self) in
      let* cn := get_node c in
      let* _ := update_node self (append_child c (board (game cn))) in
      init_all_children_loop self g moves'
  end.

Definition init_all_children (self : node_ref) : M unit :=
  let* nd := get_node self in
  init_all_children_loop self (game nd) (legal_moves (game nd)).

(** ** [get_ucb1_score] *)

Definition f_zero : F := f_of_int 0.

(** [np.sqrt(2)], the default of [exploration_constant]. *)
Definition default_exploration_constant : F := f_sqrt (f_of_int 2).

(** [a / b] on two Python integers. *)
Definition py_int_div (a b : Z) : M F :=
  if decide (b = 0) then raise ZeroDivisionError else ret (int_true_div a b).

(** [math.log] on a Python integer. *)
Definition math_log (x : Z) : M F :=
  if decide (x ≤ 0) then raise ValueError else ret (f_log_int x).

(** [math.sqrt] *)
Definition math_sqrt (x : F) : M F :=
  if f_ltb x f_zero then raise ValueError else ret (f_sqrt x).

(** [self.parent_node.number_of_visits]; the attribute does not exist on
    [False]. *)
Definition parent_number_of_visits (nd : Game_Node) : M Z :=
  match parent_node nd with
  | None => raise AttributeError
  | Some p => let* pn := get_node p in ret (number_of_visits pn)
  end.

Definition get_ucb1_score (self : node_ref) (exploration_constant : F) : M F :=
  let* nd := get_node self in
  try_except_ZeroDivisionError
    (let* exploit := py_int_div (wins nd) (number_of_visits nd) in
     let* N := parent_number_of_visits nd in
     let* l := math_log N in
     let* s := math_sqrt (f_div l (f_of_int (number_of_visits nd))) in
     ret (f_add exploit (f_mul exploration_constant s)))
    (let* N := parent_number_of_visits nd in
     if decide (0 < N) then
       let* l := math_log N in
       let* s := math_sqrt l in
       ret (f_mul exploration_constant s)
     else ret (f_of_int 0)).

(** ** [find_child_node_information] *)

Fixpoint find_child_node_information_loop (cs : list node_ref) : M (list F * list F) :=
  match cs with
  | [] => ret ([], [])
  | c :: cs' =>
      let* cn := get_node c in
      let* u := get_ucb1_score c default_exploration_constant in
      let* rest := find_child_node_information_loop cs' in
      ret (value_evaluation cn :: rest.1, u :: rest.2)
  end.

Definition find_child_node_information (self : node_ref) : M (list F * list F) :=
  let* nd := get_node self in
  find_child_node_information_loop (child_nodes nd).

(** ** Tensor operations used by the module *)

(** [a + b] on two rank-1 tensors, with TensorFlow's broadcasting of a
    length-1 operand. *)
Definition tf_add (a b : list F) : res (list F) :=
  if decide (length a = length b) then Ok (zip_with f_add a b)
  else match a, b with
       | [x], _ => Ok (f_add x <$> b)
       | _, [y] => Ok ((λ x, f_add x y) <$> a)
       | _, _ => Err InvalidArgumentError
       end.

(** [tf.divide(t, s)] for a scalar [s]. *)
Definition tf_divide (t : list F) (s : F) : list F := (λ x, f_div x s) <$> t.

(** [tf.zeros(k, float)] *)
Definition tf_zeros (k : Z) : res (list F) :=
  if decide (k < 0) then Err InvalidArgumentError
  else Ok (replicate (Z.to_nat k) f_zero).

Fixpoint argmax_from (best_i : nat) (best : F) (i : nat) (l : list F) : nat :=
  match l with
  | [] => best_i
  | x :: l' =>
      if f_ltb best x then argmax_from i x (S i) l'
      else argmax_from best_i best (S i) l'
  end.

(** [tf.argmax] on a rank-1 tensor: index of the first maximum. *)
Definition tf_argmax (l : list F) : res nat :=
  match l with
  | [] => Err InvalidArgumentError
  | x :: l' => Ok (argmax_from 0 x 1 l')
  end.

(** ** [get_policy_vector] *)

Definition MAX_MOVES : Z := 218.

Definition get_policy_vector (self : node_ref) : M unit :=
  let* nd := get_node self in
  let* _ := (if decide (length (child_nodes nd) = 0%nat)
             then init_all_children self else ret tt) in
  let* info := find_child_node_information self in
  let evaluations := info.1 in
  let ucb1_scores := info.2 in
  let* nd := get_node self in
  let policy_network_output := POLICY_NETWORK (bitboard nd) in
  let policy_network_probabilities :=
    tf_divide policy_network_output (reduce_sum policy_network_output) in
  let number_possible_moves := length (legal_moves (game nd)) in
  let* s := lift (tf_add evaluations ucb1_scores) in
  let* scores := lift (tf_add s (take number_possible_moves policy_network_probabilities)) in
  let* _ := update_node self (set_policy_vector_legal_moves (Some scores)) in
  let* zs := lift (tf_zeros (MAX_MOVES - Z.of_nat number_possible_moves)) in
  update_node self (set_policy_vector (Some (scores ++ zs))).

(** ** [select_child] *)

Definition select_child (self : node_ref) (move_probabilities : list F) : M node_ref :=
  let* nd := get_node self in
  let* i := lift (tf_argmax move_probabilities) in
  match child_nodes nd !! i with
  | Some c => ret c
  | None => raise IndexError
  end.

(** ** [back_propagate] *)

(** The body of the [while node:] loop for one node. *)
Definition back_propagate_step (r : node_ref) (result : F) (leaf_move_turn : string)
  : M (option node_ref) :=
  let* _ := update_node r (λ nd, set_number_of_visits (number_of_visits nd + 1) nd) in
  let* nd := get_node r in
  let* _ :=
    (if decide (move_turn (game nd) = leaf_move_turn) then
       if f_ltb f_three_quarters result
       then update_node r (λ nd, set_wins (wins nd + 1) nd) else ret tt
     else
       if f_ltb result f_quarter
       then update_node r (λ nd, set_wins (wins nd + 1) nd) else ret tt) in
  let* nd := get_node r in
  ret (parent_node nd).

(** [fuel] bounds the number of iterations of the [while] loop; leaving
    the loop needs no fuel. *)
Fixpoint back_propagate (fuel : nat) (node : option node_ref) (result : F)
    (leaf_move_turn : string) : M unit :=
  match node with
  | None => ret tt
  | Some r =>
      match fuel with
      | O => raise OutOfFuel
      | S fuel' =>
          let* next := back_propagate_step r result leaf_move_turn in
          back_propagate fuel' next result leaf_move_turn
      end
  end.

(** ** [MCTS] *)

(** The [while selected_node.number_of_visits > 0:] loop of lines 189-196. *)
Fixpoint descend (fuel : nat) (selected_node : node_ref) : M node_ref :=
  let* sn := get_node selected_node in
  if decide (0 < number_of_visits sn) then
    match fuel with
    | O => raise OutOfFuel
    | S fuel' =>
        match policy_vector_legal_moves sn with
        | Some scores =>
            if negb (terminal_game_state sn) then
              let* c := select_child selected_node scores in
              descend fuel' c
            else ret selected_node
        | None =>
            let* _ := get_policy_vector selected_node in
            descend fuel' selected_node
        end
    end
  else ret selected_node.

(** [np.random.dirichlet(alpha)] for [alpha] of length [n]: the draw of
    one iteration is given by its coordinates. *)
Definition dirichlet_noise (sample : nat → F) (n : nat) : list F :=
  sample <$> seq 0 n.

(** One pass through the body of the [for] loop; returns the node whose
    evaluation was backed up. *)
Definition MCTS_iteration (fuel : nat) (root : node_ref) (sample : nat → F) : M node_ref :=
  let* rn := get_node root in
  let noise := dirichlet_noise sample (length (legal_moves (game rn))) in
  let* scores :=
    match policy_vector_legal_moves rn with
    | Some v => ret v
    | None => raise TypeError
    end in
  let* noise_probabilities := lift (tf_add scores noise) in
  let* selected_node := select_child root noise_probabilities in
  let* selected_node := descend fuel selected_node in
  let* sn := get_node selected_node in
  let self_win := value_evaluation sn in
  let* _ := back_propagate fuel (Some selected_node) self_win (move_turn (game sn)) in
  ret selected_node.

Fixpoint MCTS_loop (fuel : nat) (root : node_ref) (noise : nat → nat → F)
    (k iterations : nat) : M unit :=
  match iterations with
  | O => ret tt
  | S iterations' =>
      let* _ := MCTS_iteration fuel root (noise k) in
      MCTS_loop fuel root noise (S k) iterations'
  end.

(** [noise k i] is coordinate [i] of the Dirichlet draw of iteration [k];
    [fuel] bounds each of the two [while] loops. *)
Definition MCTS (fuel : nat) (noise : nat → nat → F)
    (game_arg : option Game) (starting_node : option node_ref) (iterations : Z)
  : M node_ref :=
  let* root :=
    match starting_node with
    | None =>
        match game_arg with
        | Some g => Game_Node_init g None None
        | None => raise AttributeError
        end
    | Some r =>
        let* _ := update_node r (set_parent_node None) in
        ret r
    end in
  let* rn := get_node root in
  if terminal_game_state rn then ret root
  else
    let* _ := get_policy_vector root in
    let* _ := MCTS_loop fuel root noise 0 (Z.to_nat iterations) in
    ret root.

(** ** Notions used to state the properties *)

(** [l] lists a node, its parent, its grandparent, ... up to a node
    without parent. *)
Fixpoint parent_chain (h : heap) (l : list node_ref) : Prop :=
  match l with
  | [] => False
  | r :: l' =>
      ∃ nd, h !! r = Some nd ∧
        match l' with
        | [] => parent_node nd = None
        | p :: _ => parent_node nd = Some p ∧ parent_chain h l'
        end
  end.

(** The win credited to a node by lines 149-154. *)
Definition win_credit (result : F) (leaf_move_turn : string) (nd : Game_Node) : Z :=
  if decide (move_turn (game nd) = leaf_move_turn) then
    if f_ltb f_three_quarters result then 1 else 0
  else
    if f_ltb result f_quarter then 1 else 0.

Definition backed_up (result : F) (leaf_move_turn : string) (nd : Game_Node) : Game_Node :=
  set_wins (wins nd + win_credit result leaf_move_turn nd)
    (set_number_of_visits (number_of_visits nd + 1) nd).

(** The child built for the legal move [mv] by one pass through the loop
    of [init_all_children] on a node [self] holding the game [g]. *)
Definition born (self : node_ref) (g : Game) (mv : Move) : Game_Node :=
  new_node (play_machine_move g mv) (Some mv) (Some self).

Definition add_children (cs : list node_ref) (bs : list Board) (nd : Game_Node)
  : Game_Node :=
  mkNode (move nd) (game nd) (parent_node nd) (bitboard nd) (value_evaluation nd)
    (policy_vector nd) (policy_vector_legal_moves nd) (number_of_visits nd)
    (child_nodes nd ++ cs) (visited_boards nd ++ bs) (wins nd)
    (terminal_game_state nd).

(** The arena left by the loop of [init_all_children] run on [self] (whose
    attributes are [nd]) for the moves [moves]: the children are allocated
    in order at the end of the arena and registered in [self]. *)
Definition expanded (self : node_ref) (g : Game) (moves : list Move)
    (nd : Game_Node) (h : heap) : heap :=
  <[self := add_children (seq (length h) (length moves))
              ((λ mv, board (game (born self g mv))) <$> moves) nd]>
    (h ++ (born self g <$> moves)).

(** The children of [nd] are one node per legal move of its game, in the
    order of the legal moves, each carrying its move. *)
Definition children_match (h : heap) (nd : Game_Node) : Prop :=
  Forall2 (λ c mv, ∃ cn, h !! c = Some cn ∧ move cn = Some mv)
    (child_nodes nd) (legal_moves (game nd)).

(** The mutations the module performs on the arena: constructing a node,
    expanding a node without children, storing each of the two policy
    attributes, one pass through the body of the loop of [back_propagate],
    and clearing the parent reference of a reused root. *)
Inductive step : heap → heap → Prop :=
| step_construct h g mv p :
    step h (h ++ [new_node g mv p])
| step_expand h self nd :
    h !! self = Some nd → child_nodes nd = [] →
    step h (expanded self (game nd) (legal_moves (game nd)) nd h)
| step_scores h self nd v :
    h !! self = Some nd →
    step h (<[self := set_policy_vector_legal_moves (Some v) nd]> h)
| step_vector h self nd v :
    h !! self = Some nd →
    step h (<[self := set_policy_vector (Some v) nd]> h)
| step_backup h r nd result leaf_move_turn :
    h !! r = Some nd →
    step h (<[r := backed_up result leaf_move_turn nd]> h)
| step_detach h r nd :
    h !! r = Some nd →
    step h (<[r := set_parent_node None nd]> h).

Definition steps : heap → heap → Prop := rtc step.

Definition counters_ok (h : heap) : Prop :=
  ∀ r nd, h !! r = Some nd → 0 ≤ wins nd ≤ number_of_visits nd.

Definition terminal_childless (h : heap) : Prop :=
  ∀ r nd, h !! r = Some nd → legal_moves (game nd) = [] → child_nodes nd = [].

(** [call_repeatedly k m] calls the method [m] [k] times in a row. *)
Fixpoint call_repeatedly (k : nat) (m : M unit) : M unit :=
  match k with
  | O => ret tt
  | S k' => let* _ := m in call_repeatedly k' m
  end.

(** [get_ucb1_score] reads the two counters of the node and the visit
    counter of its parent; this is its result as a function of them. *)
Definition parent_visits (h : heap) (nd : Game_Node) : res Z :=
  match parent_node nd with
  | None => Err AttributeError
  | Some p =>
      match h !! p with
      | Some pn => Ok (number_of_visits pn)
      | None => Err DanglingReference
      end
  end.

Definition ucb1_value (w n : Z) (N : res Z) (C : F) : res F :=
  match N with
  | Err e => Err e
  | Ok N =>
      if decide (n = 0) then
        if decide (0 < N) then
          if f_ltb (f_log_int N) f_zero then Err ValueError
          else Ok (f_mul C (f_sqrt (f_log_int N)))
        else Ok (f_of_int 0)
      else
        if decide (N ≤ 0) then Err ValueError
        else if f_ltb (f_div (f_log_int N) (f_of_int n)) f_zero then Err ValueError
        else Ok (f_add (int_true_div w n)
                   (f_mul C (f_sqrt (f_div (f_log_int N) (f_of_int n)))))
  end.

(** What the module may do to an object between two moments of a
    search: the attributes set by the constructor stay, the counters only
    grow, [wins] by no more than [number_of_visits], and the children stay
    or are created, one per legal move, where there were none. *)
Definition node_evolves (nd nd' : Game_Node) : Prop :=
  move nd' = move nd ∧ game nd' = game nd ∧ bitboard nd' = bitboard nd ∧
  value_evaluation nd' = value_evaluation nd ∧
  terminal_game_state nd' = terminal_game_state nd ∧
  (0 ≤ wins nd' - wins nd ≤ number_of_visits nd' - number_of_visits nd) ∧
  (child_nodes nd' = child_nodes nd ∨
   child_nodes nd = [] ∧
   length (child_nodes nd') = length (legal_moves (game nd))).

(** The flag [terminal_game_state] says that the game has no legal move. *)
Definition flags_ok (h : heap) : Prop :=
  ∀ r nd, h !! r = Some nd →
    (terminal_game_state nd = true ↔ legal_moves (game nd) = []).

(** The arena on which lines 73-81 work: the expanded arena when the node
    had no children, the arena as it was otherwise. *)
Definition after_expansion (self : node_ref) (nd : Game_Node) (h : heap) : heap :=
  if decide (length (child_nodes nd) = 0%nat)
  then expanded self (game nd) (legal_moves (game nd)) nd h else h.

Definition normalized_policy (nd : Game_Node) : list F :=
  tf_divide (POLICY_NETWORK (bitboard nd)) (reduce_sum (POLICY_NETWORK (bitboard nd))).

Definition with_policy (scores zs : list F) (nd : Game_Node) : Game_Node :=
  set_policy_vector (Some (scores ++ zs))
    (set_policy_vector_legal_moves (Some scores) nd).

(** The UCB1 score of a child that was never visited. *)
Definition unvisited_score (N : Z) : F :=
  if decide (0 < N)
  then f_mul default_exploration_constant (f_sqrt (f_log_int N))
  else f_of_int 0.

(** The blended scores stored by the call that creates the children. *)
Definition first_scores (nd : Game_Node) : list F :=
  zip_with f_add
    (zip_with f_add
       ((λ mv, value_evaluation (born 0 (game nd) mv)) <$> legal_moves (game nd))
       ((λ _, unvisited_score (number_of_visits nd)) <$> legal_moves (game nd)))
    (take (length (legal_moves (game nd))) (normalized_policy nd)).

(** ** [random_game_simulation] *)

(** [random.choice(l)] for the random number [draw]: an element of [l] at
    a position below its length; on an empty list it raises. *)
Definition random_choice (draw : nat) (l : list Move) : res Move :=
  match l !! (draw mod length l)%nat with
  | Some mv => Ok mv
  | None => Err IndexError
  end.

(** The loop of lines 106-109 on the copied game; [draws k] is the random
    number used by pass [k], [fuel] bounds the number of passes. *)
Fixpoint simulate (fuel : nat) (draws : nat → nat) (k : nat) (g : Game) : res Game :=
  if decide (0 < length (legal_moves g))%nat then
    if negb (stalemate g) then
      match fuel with
      | O => Err OutOfFuel
      | S fuel' =>
          match random_choice (draws k) (legal_moves g) with
          | Ok mv =>
              simulate fuel' draws (S k) (look_for_draws (play_machine_move g mv))
          | Err e => Err e
          end
      end
    else Ok g
  else Ok g.

Definition random_game_simulation (fuel : nat) (draws : nat → nat) (self : node_ref)
  : M (option bool) :=
  let* nd := get_node self in
  let* g := lift (simulate fuel draws 0 (game nd)) in
  ret (white_win (check_for_checkmate g)).

(** ** Further notions *)

(** [playout g ms g'] : playing the moves [ms] one after the other from
    [g], each one legal where it is played and played only while the game
    has legal moves and is not flagged as over, with [look_for_draws] after
    each move, leads to [g']. *)
Inductive playout : Game → list Move → Game → Prop :=
| playout_done g : playout g [] g
| playout_move g mv ms g' :
    legal_moves g ≠ [] → stalemate g = false → mv ∈ legal_moves g →
    playout (look_for_draws (play_machine_move g mv)) ms g' →
    playout g (mv :: ms) g'.

(** [visited_boards] runs parallel to [child_nodes]: entry [i] is the
    board of the game of child [i]. *)
Definition boards_ok (h : heap) : Prop :=
  ∀ r nd, h !! r = Some nd →
    Forall2 (λ c b, ∃ cn, h !! c = Some cn ∧ b = board (game cn))
      (child_nodes nd) (visited_boards nd).

(** The engine never offers more than [MAX_MOVES] legal moves and the
    policy network returns at least [MAX_MOVES] scores. *)
Definition engine_bounded : Prop :=
  (∀ g, Z.of_nat (length (legal_moves g)) ≤ MAX_MOVES) ∧
  (∀ b, MAX_MOVES ≤ Z.of_nat (length (POLICY_NETWORK b))).

(** The nodes of the tree that hangs from [ρ]: those reached from it
    through [child_nodes]. *)
Inductive in_tree (ρ : node_ref) (h : heap) : node_ref → Prop :=
| in_tree_root : in_tree ρ h ρ
| in_tree_child r nd c :
    in_tree ρ h r → h !! r = Some nd → c ∈ child_nodes nd → in_tree ρ h c.

(** The children of [nd] are the nodes reached by its legal moves, in
    order: child [i] carries legal move [i] and holds the game that the
    constructor leaves after that move. *)
Definition children_played (h : heap) (nd : Game_Node) : Prop :=
  Forall2 (λ c mv, ∃ cn, h !! c = Some cn ∧ move cn = Some mv ∧
             game cn = look_for_draws (check_for_checkmate
                                         (play_machine_move (game nd) mv)))
    (child_nodes nd) (legal_moves (game nd)).

(** The shape of a node of a search tree: the counters are in order and
    do not exceed the parent's visits, the flag says whether the game has
    a legal move, scores and children are there together and are one per
    legal move, each child is a younger object that points back to the
    node, and the children, once there, are those of the legal moves. *)
Definition node_wf (h : heap) (r : node_ref) (nd : Game_Node) : Prop :=
  0 ≤ wins nd ≤ number_of_visits nd ∧
  (terminal_game_state nd = true ↔ legal_moves (game nd) = []) ∧
  (∀ p, parent_node nd = Some p →
     ∃ pn, h !! p = Some pn ∧ number_of_visits nd ≤ number_of_visits pn) ∧
  match policy_vector_legal_moves nd with
  | None => child_nodes nd = []
  | Some scores =>
      length scores = length (legal_moves (game nd)) ∧
      length (child_nodes nd) = length (legal_moves (game nd))
  end ∧
  Forall (λ c, (r < c)%nat ∧ ∃ cn, h !! c = Some cn ∧ parent_node cn = Some r)
    (child_nodes nd) ∧
  (child_nodes nd = [] ∨ children_played h nd).

(** A search tree with root [ρ]: the root has no parent and every node of
    the tree has the shape above. *)
Definition tree_wf (ρ : node_ref) (h : heap) : Prop :=
  (∃ rn, h !! ρ = Some rn ∧ parent_node rn = None) ∧
  ∀ r nd, in_tree ρ h r → h !! r = Some nd → node_wf h r nd.

(** What a search from [ρ] leaves alone: no object disappears, no old
    object joins the tree, and the objects outside the tree stay as they
    are. *)
Definition search_frame (ρ : node_ref) (h h' : heap) : Prop :=
  (length h ≤ length h')%nat ∧
  (∀ r, in_tree ρ h r → in_tree ρ h' r) ∧
  (∀ r, in_tree ρ h' r → (r < length h)%nat → in_tree ρ h r) ∧
  (∀ r x, h !! r = Some x → ¬ in_tree ρ h r → h' !! r = Some x).

(** What the descent of lines 189-196 may do to an object: compute its
    policy vector, when it has none. *)
Definition policy_only (h h' : heap) : Prop :=
  ∀ x xn, h !! x = Some xn →
    ∃ xn', h' !! x = Some xn' ∧
      number_of_visits xn' = number_of_visits xn ∧ wins xn' = wins xn ∧
      terminal_game_state xn' = terminal_game_state xn ∧ game xn' = game xn ∧
      parent_node xn' = parent_node xn ∧
      (is_Some (policy_vector_legal_moves xn) → xn' = xn).

(** The comparison is a strict weak order on the entries of [l] (as [<]
    is on the entries of a vector of floats none of which is NaN). *)
Definition strict_weak_order_on (l : list F) : Prop :=
  (∀ a, a ∈ l → f_ltb a a = false) ∧
  (∀ a b c, a ∈ l → b ∈ l → c ∈ l →
     f_ltb a b = true → f_ltb b c = true → f_ltb a c = true) ∧
  (∀ a b c, a ∈ l → b ∈ l → c ∈ l →
     f_ltb a c = true → f_ltb a b = true ∨ f_ltb b c = true).

(** [descent_path h k c s]: the loop of lines 189-196, started on [c], is
    on [s] after [k] passes that all took the branch of line 192: the node
    the loop was on had been visited, had its scores and was not terminal,
    and [select_child] on its own scores gave the next node. *)
Inductive descent_path (h : heap) : nat → node_ref → node_ref → Prop :=
| descent_path_here s : descent_path h 0 s s
| descent_path_step k c cn scores c' s :
    h !! c = Some cn → 0 < number_of_visits cn →
    policy_vector_legal_moves cn = Some scores →
    terminal_game_state cn = false →
    select_child c scores h = Ok (c', h) →
    descent_path h k c' s →
    descent_path h (S k) c s.

End Model.

(** ** Executable stand-ins for the collaborators

    A fixed-point scalar (thousandths, held in [Z]) and a game of Nim with
    stub evaluators, used to run the model on concrete trees. *)

Module Toy.

Definition fx_div (a b : Z) : Z := if decide (b = 0) then 0 else 1000 * a / b.

#[export, refine] Instance FixedPoint : Scalar := {|
  F := Z;
  f_of_int z := 1000 * z;
  f_quarter := 250;
  f_half := 500;
  f_three_quarters := 750;
  f_add := Z.add;
  f_mul a b := a * b / 1000;
  f_div := fx_div;
  f_sqrt x := Z.sqrt (1000 * x);
  f_log_int z := 693 * Z.log2 z;
  int_true_div := fx_div;
  f_ltb := Z.ltb;
  f_leb := Z.leb;
  reduce_sum := foldr Z.add 0
|}.
Proof.
- intros a b Hab. apply Z.leb_le in Hab. apply Z.ltb_ge. exact Hab.
- intros N HN. apply Z.ltb_ge. pose proof (Z.log2_nonneg N). lia.
- intros N n HN Hn. apply Z.ltb_ge. unfold fx_div.
  destruct (decide (1000 * n = 0)) as [|_]; [lia|].
  pose proof (Z.log2_nonneg N).
  apply Z.div_pos; lia.
Defined.

(** Nim: a pile of stones and the side to move; a move takes one or two
    stones; the side that cannot move has lost. *)
Definition nim_moves (g : nat * bool) : list nat :=
  match g.1 with
  | O => []
  | S O => [1%nat]
  | _ => [1%nat; 2%nat]
  end.

#[export] Instance Nim : GameEngine := {|
  Game := nat * bool;
  Move := nat;
  Board := nat;
  Bits := nat * bool;
  legal_moves := nim_moves;
  move_turn g := if g.2 then "white" else "black";
  stalemate g := bool_decide (g.1 = 0%nat);
  white_win g := if bool_decide (g.1 = 0%nat) then Some (negb g.2) else None;
  board g := g.1;
  check_for_checkmate g := g;
  look_for_draws g := g;
  play_machine_move g mv := ((g.1 - mv)%nat, negb g.2);
  to_bits g := g;
  VALUE_NETWORK _ := 500;
  POLICY_NETWORK _ := replicate 218 1000
|}.

(** Dirichlet draws over two moves that always favour the first one,
    (0.9, 0.1), and the only draw there is over a single move, (1.0). *)
Definition first_move_noise (k i : nat) : Z := if decide (i = 0%nat) then 900 else 100.

Definition single_move_noise (k i : nat) : Z := 1000.

Definition heap_of {A} (r : res (A * list Game_Node)) : list Game_Node :=
  match r with
  | Ok (_, h) => h
  | Err _ => []
  end.

(** A pile of two stones, white to move: the root alone, then the arena
    after [get_policy_vector] on the root, and after one, two and three
    iterations of [MCTS] from the root. *)
Definition nim_start : list Game_Node := [new_node (2%nat, true) None None].

Definition nim_expanded : list Game_Node :=
  Eval vm_compute in heap_of (get_policy_vector 0 nim_start).

Definition nim_once : list Game_Node :=
  Eval vm_compute in heap_of (MCTS 10 first_move_noise None (Some 0%nat) 1 nim_start).

Definition nim_twice : list Game_Node :=
  Eval vm_compute in heap_of (MCTS_iteration 10 0 (first_move_noise 1) nim_once).

Definition nim_searched : list Game_Node :=
  Eval vm_compute in heap_of (MCTS 10 first_move_noise None (Some 0%nat) 3 nim_start).

(** A pile of one stone: the only move leads to a terminal position. *)
Definition nim_last_searched : list Game_Node :=
  Eval vm_compute in
    heap_of (MCTS 10 single_move_noise (Some (1%nat, true)) None 2 []).

Definition nim_expanded_twice : list Game_Node :=
  Eval vm_compute in
    heap_of (call_repeatedly 2 (get_policy_vector 0) nim_start).

(** A lone node whose game has no legal move. *)
Definition nim_over : list Game_Node := [new_node (0%nat, false) None None].

(** A game that always offers 219 moves, one more than [MAX_MOVES], and
    the arena that holds a single node for it. *)
Definition Crowded : GameEngine := {|
  Game := unit;
  Move := nat;
  Board := unit;
  Bits := unit;
  Move_eq_dec := _;
  legal_moves _ := seq 0 219;
  move_turn _ := "white";
  stalemate _ := false;
  white_win _ := None;
  board g := g;
  check_for_checkmate g := g;
  look_for_draws g := g;
  play_machine_move g _ := g;
  to_bits g := g;
  VALUE_NETWORK _ := 500;
  POLICY_NETWORK _ := replicate 219 1000
|}.

Definition crowded_root : @Game_Node FixedPoint Crowded :=
  @new_node FixedPoint Crowded tt None None.

Definition crowded_start : list (@Game_Node FixedPoint Crowded) := [crowded_root].

(** The random numbers that always pick the first legal move. *)
Definition first_choice (k : nat) : nat := 0.

End Toy.

(** * Verification *)

Section Verification.
Context `{GameEngine}.

Abbreviation heap := (list Game_Node).

Notation "'let*' x ':=' m 'in' k" := (bind m (λ x, k))
  (at level 10, x pattern, m at level 100, k at level 200).

(** ** Reasoning in the arena monad *)

Lemma bind_Ok_inv {A B} (m : M A) (k : A → M B) h r :
  bind m k h = Ok r → ∃ a h1, m h = Ok (a, h1) ∧ k a h1 = Ok r.
Proof.
  unfold bind. destruct (m h) as [[a h1]|e]; [|discriminate].
  intros Hk. by exists a, h1.
Qed.

Lemma bind_Ok {A B} (m : M A) (k : A → M B) h a h1 :
  m h = Ok (a, h1) → bind m k h = k a h1.
Proof. unfold bind. by intros ->. Qed.

Lemma bind_Err {A B} (m : M A) (k : A → M B) h e :
  m h = Err e → bind m k h = Err e.
Proof. unfold bind. by intros ->. Qed.

Lemma get_node_Ok r h nd : h !! r = Some nd → get_node r h = Ok (nd, h).
Proof. unfold get_node. by intros ->. Qed.

Lemma get_node_inv r h nd h' :
  get_node r h = Ok (nd, h') → h' = h ∧ h !! r = Some nd.
Proof.
  unfold get_node. destruct (h !! r); [|discriminate].
  by intros [= -> ->].
Qed.

Lemma update_node_Ok r f h nd :
  h !! r = Some nd → update_node r f h = Ok (tt, <[r := f nd]> h).
Proof. unfold update_node. by intros ->. Qed.

Lemma update_node_inv r f h u h' :
  update_node r f h = Ok (u, h') →
  ∃ nd, h !! r = Some nd ∧ h' = <[r := f nd]> h.
Proof.
  unfold update_node. destruct (h !! r) as [nd|]; [|discriminate].
  intros [= _ <-]. by exists nd.
Qed.

Lemma lift_inv {A} (r : res A) h a h' :
  lift r h = Ok (a, h') → r = Ok a ∧ h' = h.
Proof. unfold lift. destruct r; [|discriminate]. by intros [= -> ->]. Qed.

Lemma lift_Ok {A} (a : A) h : lift (Ok a) h = Ok (a, h).
Proof. done. Qed.

Lemma ret_inv {A} (a b : A) h h' : ret a h = Ok (b, h') → b = a ∧ h' = h.
Proof. unfold ret. by intros [= -> ->]. Qed.

(** ** [get_ucb1_score] *)

Lemma get_ucb1_score_heap self C h u h' :
  get_ucb1_score self C h = Ok (u, h') → h' = h.
Proof.
  unfold get_ucb1_score. intros Hrun.
  apply bind_Ok_inv in Hrun as (nd & h1 & Hget & Hrun).
  apply get_node_inv in Hget as [-> Hnd].
  unfold try_except_ZeroDivisionError, parent_number_of_visits, py_int_div,
    math_log, math_sqrt, bind, ret, raise, get_node in Hrun.
  repeat (case_match; simplify_eq/=); done.
Qed.

Lemma py_int_div_Ok a b h : b ≠ 0 → py_int_div a b h = Ok (int_true_div a b, h).
Proof. intros. unfold py_int_div. by destruct (decide (b = 0)). Qed.

Lemma py_int_div_zero a h : py_int_div a 0 h = Err ZeroDivisionError.
Proof. done. Qed.

Lemma math_log_Ok x h : 0 < x → math_log x h = Ok (f_log_int x, h).
Proof. intros. unfold math_log. destruct (decide (x ≤ 0)); [lia|done]. Qed.

Lemma math_log_Err x h : x ≤ 0 → math_log x h = Err ValueError.
Proof. intros. unfold math_log. by destruct (decide (x ≤ 0)). Qed.

Lemma math_sqrt_Ok x h : f_ltb x (f_of_int 0) = false → math_sqrt x h = Ok (f_sqrt x, h).
Proof. intros Hx. unfold math_sqrt, f_zero. by rewrite Hx. Qed.

Lemma parent_number_of_visits_Ok nd p pn h :
  parent_node nd = Some p → h !! p = Some pn →
  parent_number_of_visits nd h = Ok (number_of_visits pn, h).
Proof.
  intros Hp Hpn. unfold parent_number_of_visits. rewrite Hp.
  by rewrite (bind_Ok _ _ _ _ _ (get_node_Ok _ _ _ Hpn)).
Qed.

(** Run the next monadic operation of the goal with a known outcome. *)
Tactic Notation "run_Ok" uconstr(E) :=
  erewrite (bind_Ok _ _ _ _ _ E); cbv beta.

Lemma get_ucb1_score_visited h self nd p pn C :
  h !! self = Some nd → parent_node nd = Some p → h !! p = Some pn →
  0 < number_of_visits nd → 1 ≤ number_of_visits pn →
  get_ucb1_score self C h =
    Ok (f_add (int_true_div (wins nd) (number_of_visits nd))
          (f_mul C (f_sqrt (f_div (f_log_int (number_of_visits pn))
                                   (f_of_int (number_of_visits nd))))), h).
Proof.
  intros Hnd Hp Hpn Hn HN.
  unfold get_ucb1_score. run_Ok (get_node_Ok _ _ _ Hnd).
  unfold try_except_ZeroDivisionError.
  run_Ok (py_int_div_Ok (wins nd) (number_of_visits nd) h ltac:(lia)).
  run_Ok (parent_number_of_visits_Ok _ _ _ h Hp Hpn).
  run_Ok (math_log_Ok (number_of_visits pn) h ltac:(lia)).
  by run_Ok (math_sqrt_Ok _ h
    (f_log_div_sign (number_of_visits pn) (number_of_visits nd) HN Hn)).
Qed.

Lemma get_ucb1_score_visited_unvisited_parent h self nd p pn C :
  h !! self = Some nd → parent_node nd = Some p → h !! p = Some pn →
  0 < number_of_visits nd → number_of_visits pn ≤ 0 →
  get_ucb1_score self C h = Err ValueError.
Proof.
  intros Hnd Hp Hpn Hn HN.
  unfold get_ucb1_score. run_Ok (get_node_Ok _ _ _ Hnd).
  unfold try_except_ZeroDivisionError.
  run_Ok (py_int_div_Ok (wins nd) (number_of_visits nd) h ltac:(lia)).
  run_Ok (parent_number_of_visits_Ok _ _ _ h Hp Hpn).
  by rewrite (bind_Err _ _ _ _ (math_log_Err _ h HN)).
Qed.

Lemma get_ucb1_score_unvisited h self nd p pn C :
  h !! self = Some nd → parent_node nd = Some p → h !! p = Some pn →
  number_of_visits nd = 0 →
  get_ucb1_score self C h =
    Ok (if decide (0 < number_of_visits pn)
        then f_mul C (f_sqrt (f_log_int (number_of_visits pn)))
        else f_of_int 0, h).
Proof.
  intros Hnd Hp Hpn Hn.
  unfold get_ucb1_score. run_Ok (get_node_Ok _ _ _ Hnd).
  unfold try_except_ZeroDivisionError. rewrite Hn.
  rewrite (bind_Err _ _ _ _ (py_int_div_zero (wins nd) h)).
  run_Ok (parent_number_of_visits_Ok _ _ _ h Hp Hpn).
  destruct (decide (0 < number_of_visits pn)) as [HN|HN]; [|done].
  run_Ok (math_log_Ok (number_of_visits pn) h HN).
  by run_Ok (math_sqrt_Ok _ h (f_log_sign (number_of_visits pn) ltac:(lia))).
Qed.

(** The result of [get_ucb1_score] on a node with a parent, by the
    counters [w], [n] of the node and [N] of the parent, whatever they
    are. *)
Lemma get_ucb1_score_by_counters h self nd p pn :
  h !! self = Some nd → parent_node nd = Some p → h !! p = Some pn →
  let w := wins nd in
  let n := number_of_visits nd in
  let N := number_of_visits pn in
  let C := default_exploration_constant in
  C = f_sqrt (f_of_int 2) ∧
  (0 < n → 1 ≤ N →
   get_ucb1_score self C h =
     Ok (f_add (int_true_div w n)
               (f_mul C (f_sqrt (f_div (f_log_int N) (f_of_int n)))), h)) ∧
  (0 < n → N ≤ 0 → get_ucb1_score self C h = Err ValueError) ∧
  (n = 0 → 0 < N →
   get_ucb1_score self C h = Ok (f_mul C (f_sqrt (f_log_int N)), h)) ∧
  (n = 0 → N ≤ 0 → get_ucb1_score self C h = Ok (f_of_int 0, h)).
Proof.
  intros Hnd Hp Hpn w n N C. split; [done|]. repeat split.
  - intros. by apply (get_ucb1_score_visited h self nd p pn).
  - intros. by apply (get_ucb1_score_visited_unvisited_parent h self nd p pn).
  - intros Hn HN.
    rewrite (get_ucb1_score_unvisited h self nd p pn) by done.
    by destruct (decide (0 < number_of_visits pn)) as [_|]; [|done].
  - intros Hn HN.
    rewrite (get_ucb1_score_unvisited h self nd p pn) by done.
    destruct (decide (0 < number_of_visits pn)) as [|_]; [|done].
    subst N. lia.
Qed.

(** ** [make_a_move] *)

Lemma make_a_move_loop_spec mv cs h :
  Forall (λ c, is_Some (h !! c)) cs →
  ∃ r, make_a_move_loop mv cs h = Ok (r, h) ∧
    match r with
    | Some c =>
        ∃ i cn, cs !! i = Some c ∧ h !! c = Some cn ∧ move cn = mv ∧
          ∀ j c' cn', (j < i)%nat → cs !! j = Some c' → h !! c' = Some cn' →
                      move cn' ≠ mv
    | None => ∀ c cn, c ∈ cs → h !! c = Some cn → move cn ≠ mv
    end.
Proof.
  induction 1 as [|c cs [cn Hcn] _ (r & Hrun & Hr)]; simpl.
  - exists None. split; [done|]. intros c cn Hc. by apply elem_of_nil in Hc.
  - run_Ok (get_node_Ok _ _ _ Hcn).
    destruct (decide (mv = move cn)) as [->|Hne].
    + exists (Some c). split; [done|]. exists 0%nat, cn.
      split_and!; [done..|]. intros; lia.
    + exists r. split; [done|]. destruct r as [c'|].
      * destruct Hr as (i & cn' & Hi & Hc' & Hmv & Hfirst).
        exists (S i), cn'. split_and!; [done..|].
        intros [|j] d dn Hj Hd Hdn; simplify_eq/=; [congruence|].
        apply (Hfirst j d dn); [lia|done..].
      * intros d dn [->|Hd]%elem_of_cons Hdn; [congruence|by eapply Hr].
Qed.

(** C10: [make_a_move] returns the first child, in list order, whose move
    equals the argument, and [None] when there is none (also when the
    node has no children); it raises nothing and leaves every object as
    it was.  The premise on the children only says that the references
    held in [child_nodes] are references to objects. *)
Theorem make_a_move_first_match h self nd mv :
  h !! self = Some nd →
  Forall (λ c, is_Some (h !! c)) (child_nodes nd) →
  ∃ r, make_a_move self mv h = Ok (r, h) ∧
    match r with
    | Some c =>
        ∃ i cn, child_nodes nd !! i = Some c ∧ h !! c = Some cn ∧ move cn = mv ∧
          ∀ j c' cn', (j < i)%nat → child_nodes nd !! j = Some c' →
                      h !! c' = Some cn' → move cn' ≠ mv
    | None =>
        ∀ c cn, c ∈ child_nodes nd → h !! c = Some cn → move cn ≠ mv
    end.
Proof.
  intros Hnd Hcs. unfold make_a_move. run_Ok (get_node_Ok _ _ _ Hnd).
  by apply make_a_move_loop_spec.
Qed.

(** ** [back_propagate] *)

Lemma parent_chain_insert h l r nd nd' :
  h !! r = Some nd → parent_node nd' = parent_node nd →
  parent_chain h l → parent_chain (<[r := nd']> h) l.
Proof.
  intros Hr Hpar. induction l as [|x l IH]; [done|].
  intros (xd & Hx & Hrest).
  assert (∃ xd', <[r := nd']> h !! x = Some xd' ∧ parent_node xd' = parent_node xd)
    as (xd' & Hx' & Hpx).
  { destruct (decide (r = x)) as [->|Hne].
    - exists nd'. rewrite list_lookup_insert_eq by by eapply lookup_lt_Some.
      split; [done|]. by simplify_eq.
    - exists xd. by rewrite list_lookup_insert_ne. }
  exists xd'. split; [done|]. rewrite Hpx.
  destruct l as [|p l']; [done|]. destruct Hrest as [? ?]. split; [done|]. by apply IH.
Qed.

Lemma parent_chain_functional h r l1 l2 :
  parent_chain h (r :: l1) → parent_chain h (r :: l2) → l1 = l2.
Proof.
  revert r l2. induction l1 as [|p1 l1 IH]; intros r l2 (nd & Hnd & H1) (nd' & Hnd' & H2);
    simplify_eq; destruct l2 as [|p2 l2]; try done.
  - destruct H2 as [? _]. congruence.
  - destruct H1 as [? _]. congruence.
  - destruct H1 as [Hp1 Hc1], H2 as [Hp2 Hc2]. simplify_eq. f_equal. by eapply IH.
Qed.

Lemma parent_chain_suffix h l1 r l2 :
  parent_chain h (l1 ++ r :: l2) → parent_chain h (r :: l2).
Proof.
  induction l1 as [|x l1 IH]; [done|]. intros (nd & _ & Hrest). apply IH.
  destruct (l1 ++ r :: l2) eqn:E; [by destruct l1|]. by destruct Hrest.
Qed.

Lemma parent_chain_NoDup h l : parent_chain h l → NoDup l.
Proof.
  induction l as [|r l IH]; [done|]. intros Hc. constructor.
  - intros (l1 & l2 & ->)%list_elem_of_split.
    pose proof (parent_chain_suffix h (r :: l1) r l2 Hc) as Hs.
    pose proof (parent_chain_functional _ _ _ _ Hc Hs) as Hl.
    apply (f_equal length) in Hl. rewrite length_app in Hl. simpl in Hl. lia.
  - destruct l as [|p l']; [constructor|]. apply IH.
    destruct Hc as (nd & _ & _ & Hc). done.
Qed.

Lemma set_wins_credit_0 nd :
  set_wins (wins nd + 0) nd = nd.
Proof. destruct nd. unfold set_wins. simpl. by rewrite Z.add_0_r. Qed.

Lemma back_propagate_step_spec r result turn h nd :
  h !! r = Some nd →
  back_propagate_step r result turn h =
    Ok (parent_node nd, <[r := backed_up result turn nd]> h).
Proof.
  intros Hr. pose proof (lookup_lt_Some _ _ _ Hr) as Hlt.
  unfold back_propagate_step. run_Ok (update_node_Ok r _ h nd Hr).
  set (nd1 := set_number_of_visits (number_of_visits nd + 1) nd).
  assert (<[r := nd1]> h !! r = Some nd1) as Hr1 by by apply list_lookup_insert_eq.
  run_Ok (get_node_Ok _ _ _ Hr1).
  assert (∀ w, (w = 0 ∨ w = 1) → w = win_credit result turn nd →
    (let* _ := (if decide (w = 1)
                then update_node r (λ nd, set_wins (wins nd + 1) nd) else ret tt) in
     let* nd := get_node r in ret (parent_node nd)) (<[r := nd1]> h)
    = Ok (parent_node nd, <[r := backed_up result turn nd]> h)) as Hgen.
  { intros w Hw Hcredit. unfold backed_up. rewrite <- Hcredit. fold nd1.
    destruct (decide (w = 1)) as [->|].
    - run_Ok (update_node_Ok r (λ nd, set_wins (wins nd + 1) nd) _ nd1 Hr1).
      rewrite list_insert_insert_eq.
      assert (<[r := set_wins (wins nd1 + 1) nd1]> h !! r
              = Some (set_wins (wins nd1 + 1) nd1)) as Hr2
        by by apply list_lookup_insert_eq.
      by run_Ok (get_node_Ok _ _ _ Hr2).
    - assert (w = 0) as -> by lia.
      unfold bind at 1. unfold ret at 1.
      run_Ok (get_node_Ok _ _ _ Hr1).
      change (wins nd) with (wins nd1). by rewrite set_wins_credit_0. }
  unfold win_credit in Hgen. simpl.
  destruct (decide (move_turn (game nd) = turn)) as [Ht|Ht].
  - destruct (f_ltb f_three_quarters result).
    + by rewrite <- (Hgen 1) by auto.
    + by rewrite <- (Hgen 0) by auto.
  - destruct (f_ltb result f_quarter).
    + by rewrite <- (Hgen 1) by auto.
    + by rewrite <- (Hgen 0) by auto.
Qed.

Lemma chain_backup_run result turn l :
  ∀ h fuel r, parent_chain h (r :: l) → (length (r :: l) ≤ fuel)%nat →
  ∃ h', back_propagate fuel (Some r) result turn h = Ok (tt, h') ∧
    ∀ x, h' !! x =
      if decide (x ∈ r :: l) then backed_up result turn <$> h !! x else h !! x.
Proof.
  induction l as [|p l IH]; intros h fuel r Hc Hfuel;
    pose proof (parent_chain_NoDup _ _ Hc) as Hnd;
    destruct Hc as (nd & Hr & Hrest);
    (destruct fuel as [|fuel]; [simpl in Hfuel; lia|]);
    pose proof (lookup_lt_Some _ _ _ Hr) as Hlt; simpl.
  - run_Ok (back_propagate_step_spec r result turn h nd Hr).
    rewrite Hrest. destruct fuel; simpl;
      (eexists; split; [done|]); intros x;
      (destruct (decide (x ∈ [r])) as [->%list_elem_of_singleton|Hx];
       [by rewrite list_lookup_insert_eq, Hr
       |rewrite list_lookup_insert_ne; [done|];
        intros ->; apply Hx; by apply list_elem_of_singleton]).
  - destruct Hrest as [Hp Hc'].
    run_Ok (back_propagate_step_spec r result turn h nd Hr). rewrite Hp.
    destruct (IH (<[r := backed_up result turn nd]> h) fuel p) as (h' & Hrun & Hh').
    { by apply (parent_chain_insert h _ r nd). }
    { simpl in *. lia. }
    exists h'. split; [done|]. intros x. rewrite Hh'.
    apply NoDup_cons in Hnd as [Hrl _].
    destruct (decide (x = r)) as [->|Hne].
    + rewrite decide_False by done.
      rewrite decide_True by (apply elem_of_cons; by left).
      by rewrite list_lookup_insert_eq, Hr.
    + rewrite list_lookup_insert_ne by done.
      destruct (decide (x ∈ p :: l)).
      * by rewrite decide_True by (apply elem_of_cons; by right).
      * by rewrite decide_False by (by intros [?|?]%elem_of_cons).
Qed.

(** C3: along a chain that leads from a leaf through the parent
    references to a node without parent, one [back_propagate] call returns
    (a number of loop iterations equal to the length of the chain is
    enough), adds exactly 1 to [number_of_visits] of every node of the
    chain, and adds 1 to [wins] of such a node exactly when it has the
    leaf's mover and [result > 0.75], or another mover and [result < 0.25];
    a result with [0.25 <= result <= 0.75] changes no [wins].  Nodes outside
    the chain are left as they were. *)
Theorem back_propagate_chain h leaf l result leaf_move_turn fuel :
  parent_chain h (leaf :: l) → (length (leaf :: l) ≤ fuel)%nat →
  ∃ h', back_propagate fuel (Some leaf) result leaf_move_turn h = Ok (tt, h') ∧
    ∀ r nd, h !! r = Some nd →
      ∃ nd', h' !! r = Some nd' ∧
        if decide (r ∈ leaf :: l) then
          number_of_visits nd' = number_of_visits nd + 1 ∧
          (wins nd' = wins nd + 1 ∨ wins nd' = wins nd) ∧
          (wins nd' = wins nd + 1 ↔
             (move_turn (game nd) = leaf_move_turn ∧
              f_ltb f_three_quarters result = true) ∨
             (move_turn (game nd) ≠ leaf_move_turn ∧
              f_ltb result f_quarter = true)) ∧
          (f_leb f_quarter result = true → f_leb result f_three_quarters = true →
           wins nd' = wins nd)
        else nd' = nd.
Proof.
  intros Hc Hfuel.
  destruct (chain_backup_run result leaf_move_turn l h fuel leaf Hc Hfuel)
    as (h' & Hrun & Hh').
  exists h'. split; [done|]. intros r nd Hr. rewrite Hh', Hr.
  destruct (decide (r ∈ leaf :: l)); [|by exists nd].
  eexists. split; [done|]. simpl. split; [done|]. unfold win_credit.
  destruct (decide (move_turn (game nd) = leaf_move_turn)) as [Ht|Ht].
  - destruct (f_ltb f_three_quarters result) eqn:Hgt.
    + split_and!; [by left|by split; [left|]|].
      intros _ Hle. apply f_leb_not_ltb in Hle. congruence.
    + split_and!; [right; lia| |intros; lia].
      split; [lia|]. intros [[_ ?]|[? _]]; done.
  - destruct (f_ltb result f_quarter) eqn:Hlt.
    + split_and!; [by left|by split; [right|]|].
      intros Hle _. apply f_leb_not_ltb in Hle. congruence.
    + split_and!; [right; lia| |intros; lia].
      split; [lia|]. intros [[? _]|[_ ?]]; done.
Qed.

(** ** [init_all_children] *)

Lemma add_children_append c b cs bs nd :
  add_children cs bs (append_child c b nd) = add_children (c :: cs) (b :: bs) nd.
Proof. unfold add_children, append_child. simpl. by rewrite <- !app_assoc. Qed.

Lemma add_children_nil nd : add_children [] [] nd = nd.
Proof. destruct nd. unfold add_children. simpl. by rewrite !app_nil_r. Qed.

Lemma init_all_children_loop_spec self g moves :
  ∀ h nd, h !! self = Some nd →
    init_all_children_loop self g moves h = Ok (tt, expanded self g moves nd h).
Proof.
  induction moves as [|mv moves IH]; intros h nd Hself;
    pose proof (lookup_lt_Some _ _ _ Hself) as Hlt.
  - simpl. unfold ret, expanded. simpl.
    by rewrite app_nil_r, add_children_nil, list_insert_id.
  - simpl. unfold Game_Node_init.
    assert (alloc_node (born self g mv) h = Ok (length h, h ++ [born self g mv]))
      as Halloc by done.
    run_Ok Halloc.
    assert ((h ++ [born self g mv]) !! length h = Some (born self g mv)) as Hc.
    { rewrite lookup_app_r by lia. by rewrite Nat.sub_diag. }
    run_Ok (get_node_Ok _ _ _ Hc).
    assert ((h ++ [born self g mv]) !! self = Some nd) as Hself1
      by by rewrite lookup_app_l.
    run_Ok (update_node_Ok self _ _ nd Hself1).
    set (nd1 := append_child (length h) (board (game (born self g mv))) nd).
    set (h1 := <[self := nd1]> (h ++ [born self g mv])).
    assert (length h1 = S (length h)) as Hlen1.
    { unfold h1. rewrite length_insert, length_app. simpl. lia. }
    assert (h1 !! self = Some nd1) as Hself2.
    { unfold h1. apply list_lookup_insert_eq. rewrite length_app. lia. }
    rewrite (IH h1 nd1 Hself2). do 2 f_equal.
    unfold expanded. rewrite Hlen1. unfold h1, nd1.
    rewrite add_children_append. simpl.
    rewrite <- insert_app_l by (rewrite length_app; lia).
    rewrite list_insert_insert_eq. by rewrite <- app_assoc.
Qed.

Lemma init_all_children_spec self h nd :
  h !! self = Some nd →
  init_all_children self h =
    Ok (tt, expanded self (game nd) (legal_moves (game nd)) nd h).
Proof.
  intros Hself. unfold init_all_children. run_Ok (get_node_Ok _ _ _ Hself).
  by apply init_all_children_loop_spec.
Qed.

Lemma length_expanded self g moves nd h :
  length (expanded self g moves nd h) = (length h + length moves)%nat.
Proof. unfold expanded. by rewrite length_insert, length_app, length_fmap. Qed.

Lemma lookup_expanded_self self g moves nd h :
  (self < length h)%nat →
  expanded self g moves nd h !! self =
    Some (add_children (seq (length h) (length moves))
            ((λ mv, board (game (born self g mv))) <$> moves) nd).
Proof.
  intros Hlt. unfold expanded. apply list_lookup_insert_eq.
  rewrite length_app. lia.
Qed.

Lemma lookup_expanded_old self g moves nd h r :
  r ≠ self → (r < length h)%nat → expanded self g moves nd h !! r = h !! r.
Proof.
  intros Hne Hlt. unfold expanded.
  rewrite list_lookup_insert_ne by done. by apply lookup_app_l.
Qed.

Lemma lookup_expanded_new self g moves nd h i :
  (self < length h)%nat →
  expanded self g moves nd h !! (length h + i)%nat = born self g <$> moves !! i.
Proof.
  intros Hlt. unfold expanded.
  rewrite list_lookup_insert_ne by lia.
  rewrite lookup_app_r by lia.
  replace (length h + i - length h)%nat with i by lia.
  apply list_lookup_fmap.
Qed.

(** Every object of the expanded arena is the expanded node, an untouched
    old object, or one of the new children. *)
Lemma lookup_expanded_inv self g moves nd h r x :
  h !! self = Some nd →
  expanded self g moves nd h !! r = Some x →
  (r = self ∧
   x = add_children (seq (length h) (length moves))
         ((λ mv, board (game (born self g mv))) <$> moves) nd) ∨
  (r ≠ self ∧ h !! r = Some x) ∨
  (∃ i mv, r = (length h + i)%nat ∧ moves !! i = Some mv ∧ x = born self g mv).
Proof.
  intros Hself Hx. pose proof (lookup_lt_Some _ _ _ Hself) as Hlt.
  destruct (decide (r = self)) as [->|Hne].
  - left. rewrite lookup_expanded_self in Hx by done. by simplify_eq.
  - right. destruct (decide (r < length h)%nat) as [Hr|Hr].
    + left. by rewrite lookup_expanded_old in Hx.
    + right. exists (r - length h)%nat.
      replace r with (length h + (r - length h))%nat in Hx by lia.
      rewrite lookup_expanded_new in Hx by done.
      destruct (moves !! (r - length h)%nat) as [mv|] eqn:Hmv; simplify_eq/=.
      exists mv. split_and!; [lia|done..].
Qed.

(** ** [find_child_node_information] and the tensor operations *)

Lemma find_child_node_information_loop_inv cs :
  ∀ h info h', find_child_node_information_loop cs h = Ok (info, h') →
    h' = h ∧ length info.1 = length cs ∧ length info.2 = length cs ∧
    ∀ i c, cs !! i = Some c →
      ∃ cn u, h !! c = Some cn ∧
        get_ucb1_score c default_exploration_constant h = Ok (u, h) ∧
        info.1 !! i = Some (value_evaluation cn) ∧ info.2 !! i = Some u.
Proof.
  induction cs as [|c cs IH]; intros h info h' Hrun; simpl in Hrun.
  - apply ret_inv in Hrun as [-> ->]. by split_and!.
  - apply bind_Ok_inv in Hrun as (cn & h1 & Hget & Hrun).
    apply get_node_inv in Hget as [-> Hc].
    apply bind_Ok_inv in Hrun as (u & h2 & Hu & Hrun).
    pose proof (get_ucb1_score_heap _ _ _ _ _ Hu) as ->.
    apply bind_Ok_inv in Hrun as (rest & h3 & Hrest & Hrun).
    apply ret_inv in Hrun as [-> ->].
    apply IH in Hrest as (-> & Hl1 & Hl2 & Hrest). simpl.
    split_and!; [done|lia..|].
    intros [|i] d Hd; simplify_eq/=; [by exists cn, u|by apply Hrest].
Qed.

Lemma find_child_node_information_loop_run cs h (ps : list (F * F)) :
  Forall2 (λ c p, ∃ cn, h !! c = Some cn ∧ p.1 = value_evaluation cn ∧
             get_ucb1_score c default_exploration_constant h = Ok (p.2, h)) cs ps →
  find_child_node_information_loop cs h = Ok ((ps.*1, ps.*2), h).
Proof.
  induction 1 as [|c p cs ps (cn & Hc & Hv & Hu) _ IH]; [done|]. simpl.
  run_Ok (get_node_Ok _ _ _ Hc). run_Ok Hu. run_Ok IH.
  unfold ret. simpl. by rewrite Hv.
Qed.

Lemma tf_add_same_length a b :
  length a = length b → tf_add a b = Ok (zip_with f_add a b).
Proof. intros Hl. unfold tf_add. by rewrite decide_True. Qed.

Lemma tf_zeros_Ok k zs :
  tf_zeros k = Ok zs → 0 ≤ k ∧ zs = replicate (Z.to_nat k) f_zero.
Proof.
  unfold tf_zeros. destruct (decide (k < 0)); [done|]. intros [= <-]. split; [lia|done].
Qed.

(** ** [get_policy_vector] *)

Lemma get_policy_vector_inv self h u h' :
  get_policy_vector self h = Ok (u, h') →
  ∃ nd nd1 info s scores zs,
    h !! self = Some nd ∧
    after_expansion self nd h !! self = Some nd1 ∧
    find_child_node_information_loop (child_nodes nd1) (after_expansion self nd h)
      = Ok (info, after_expansion self nd h) ∧
    tf_add info.1 info.2 = Ok s ∧
    tf_add s (take (length (legal_moves (game nd1))) (normalized_policy nd1))
      = Ok scores ∧
    tf_zeros (MAX_MOVES - Z.of_nat (length (legal_moves (game nd1)))) = Ok zs ∧
    h' = <[self := with_policy scores zs nd1]> (after_expansion self nd h).
Proof.
  unfold get_policy_vector. intros Hrun.
  apply bind_Ok_inv in Hrun as (nd & h0 & Hget & Hrun).
  apply get_node_inv in Hget as [-> Hself].
  apply bind_Ok_inv in Hrun as (? & h1 & Hexp & Hrun).
  assert (h1 = after_expansion self nd h) as ->.
  { unfold after_expansion.
    destruct (decide (length (child_nodes nd) = 0%nat)).
    - rewrite (init_all_children_spec self h nd Hself) in Hexp. by simplify_eq.
    - by apply ret_inv in Hexp as [_ ->]. }
  apply bind_Ok_inv in Hrun as (info & h2 & Hinfo & Hrun).
  unfold find_child_node_information in Hinfo.
  apply bind_Ok_inv in Hinfo as (nd1 & h1' & Hget1 & Hinfo).
  apply get_node_inv in Hget1 as [-> Hself1].
  pose proof (find_child_node_information_loop_inv _ _ _ _ Hinfo) as (-> & _).
  apply bind_Ok_inv in Hrun as (nd1' & h2 & Hget2 & Hrun).
  apply get_node_inv in Hget2 as [-> Hself2]. simplify_eq.
  apply bind_Ok_inv in Hrun as (s & h2 & Hs & Hrun).
  apply lift_inv in Hs as [Hs ->].
  apply bind_Ok_inv in Hrun as (scores & h2 & Hscores & Hrun).
  apply lift_inv in Hscores as [Hscores ->].
  apply bind_Ok_inv in Hrun as (? & h2 & Hupd & Hrun).
  apply update_node_inv in Hupd as (nd2 & Hself2 & ->). simplify_eq.
  apply bind_Ok_inv in Hrun as (zs & h2 & Hzs & Hrun).
  apply lift_inv in Hzs as [Hzs ->].
  apply update_node_inv in Hrun as (nd3 & Hself3 & ->).
  rewrite list_lookup_insert_eq in Hself3 by by eapply lookup_lt_Some.
  simplify_eq. rewrite list_insert_insert_eq.
  by exists nd, nd1, info, s, scores, zs.
Qed.

Lemma get_policy_vector_run self h nd nd1 info s scores zs :
  h !! self = Some nd →
  after_expansion self nd h !! self = Some nd1 →
  find_child_node_information_loop (child_nodes nd1) (after_expansion self nd h)
    = Ok (info, after_expansion self nd h) →
  tf_add info.1 info.2 = Ok s →
  tf_add s (take (length (legal_moves (game nd1))) (normalized_policy nd1))
    = Ok scores →
  tf_zeros (MAX_MOVES - Z.of_nat (length (legal_moves (game nd1)))) = Ok zs →
  get_policy_vector self h =
    Ok (tt, <[self := with_policy scores zs nd1]> (after_expansion self nd h)).
Proof.
  intros Hself Hself1 Hinfo Hs Hscores Hzs.
  pose proof (lookup_lt_Some _ _ _ Hself1) as Hlt.
  unfold get_policy_vector. run_Ok (get_node_Ok _ _ _ Hself).
  assert ((if decide (length (child_nodes nd) = 0%nat)
           then init_all_children self else ret tt) h
          = Ok (tt, after_expansion self nd h)) as Hexp.
  { unfold after_expansion. destruct (decide (length (child_nodes nd) = 0%nat)).
    - by apply init_all_children_spec.
    - done. }
  run_Ok Hexp.
  assert (find_child_node_information self (after_expansion self nd h)
          = Ok (info, after_expansion self nd h)) as Hinfo'.
  { unfold find_child_node_information. by run_Ok (get_node_Ok _ _ _ Hself1). }
  run_Ok Hinfo'. run_Ok (get_node_Ok _ _ _ Hself1).
  unfold normalized_policy in Hscores.
  rewrite Hs. run_Ok (lift_Ok s (after_expansion self nd h)).
  rewrite Hscores. run_Ok (lift_Ok scores (after_expansion self nd h)).
  run_Ok (update_node_Ok self _ _ nd1 Hself1).
  rewrite Hzs. run_Ok (lift_Ok zs _).
  erewrite update_node_Ok by by apply list_lookup_insert_eq.
  by rewrite list_insert_insert_eq.
Qed.

Lemma after_expansion_self self nd h nd1 :
  h !! self = Some nd →
  after_expansion self nd h !! self = Some nd1 →
  nd1 = if decide (length (child_nodes nd) = 0%nat)
        then add_children (seq (length h) (length (legal_moves (game nd))))
               ((λ mv, board (game (born self (game nd) mv))) <$> legal_moves (game nd)) nd
        else nd.
Proof.
  intros Hself. pose proof (lookup_lt_Some _ _ _ Hself). unfold after_expansion.
  destruct (decide (length (child_nodes nd) = 0%nat)).
  - rewrite lookup_expanded_self by done. by intros [= <-].
  - rewrite Hself. by intros [= <-].
Qed.

(** The scores computed by a completed call, for a node whose children
    are as many as its legal moves and whose policy output is long enough. *)
Lemma get_policy_vector_scores self h u h' :
  get_policy_vector self h = Ok (u, h') →
  ∃ nd nd1 info scores zs,
    h !! self = Some nd ∧
    after_expansion self nd h !! self = Some nd1 ∧
    find_child_node_information_loop (child_nodes nd1) (after_expansion self nd h)
      = Ok (info, after_expansion self nd h) ∧
    tf_zeros (MAX_MOVES - Z.of_nat (length (legal_moves (game nd1)))) = Ok zs ∧
    h' = <[self := with_policy scores zs nd1]> (after_expansion self nd h) ∧
    (length (child_nodes nd1) = length (legal_moves (game nd1)) →
     (length (legal_moves (game nd1)) ≤ length (POLICY_NETWORK (bitboard nd1)))%nat →
     scores = zip_with f_add (zip_with f_add info.1 info.2)
                (take (length (legal_moves (game nd1))) (normalized_policy nd1))).
Proof.
  intros (nd & nd1 & info & s & scores & zs & Hself & Hself1 & Hinfo & Hs &
          Hscores & Hzs & ->)%get_policy_vector_inv.
  exists nd, nd1, info, scores, zs. split_and!; [done..|].
  intros Hlen HK.
  apply find_child_node_information_loop_inv in Hinfo as (_ & Hl1 & Hl2 & _).
  rewrite tf_add_same_length in Hs by congruence. simplify_eq.
  rewrite tf_add_same_length in Hscores; [by simplify_eq|].
  rewrite length_zip_with, length_take. unfold normalized_policy, tf_divide.
  rewrite length_fmap. lia.
Qed.


Lemma get_ucb1_score_value c C h :
  get_ucb1_score c C h =
    match h !! c with
    | None => Err DanglingReference
    | Some cn =>
        match ucb1_value (wins cn) (number_of_visits cn) (parent_visits h cn) C with
        | Ok u => Ok (u, h)
        | Err e => Err e
        end
    end.
Proof.
  unfold get_ucb1_score, bind at 1, get_node.
  destruct (h !! c) as [cn|]; [|done].
  unfold try_except_ZeroDivisionError, ucb1_value, parent_visits,
    parent_number_of_visits, py_int_div, math_log, math_sqrt, bind, ret, raise,
    get_node.
  destruct (decide (number_of_visits cn = 0)) as [Hn|Hn].
  - destruct (parent_node cn) as [p|]; [|done].
    destruct (h !! p) as [pn|]; [|done].
    destruct (decide (0 < number_of_visits pn)); [|done].
    destruct (decide (number_of_visits pn ≤ 0)); [lia|].
    by destruct (f_ltb (f_log_int (number_of_visits pn)) f_zero).
  - destruct (parent_node cn) as [p|]; [|done].
    destruct (h !! p) as [pn|]; [|done].
    destruct (decide (number_of_visits pn ≤ 0)); [done|].
    by destruct (f_ltb _ f_zero).
Qed.

(** Storing attributes other than the counters and the parent reference
    does not change any UCB1 score. *)
Lemma get_ucb1_score_insert r x x' h c C u :
  h !! r = Some x →
  wins x' = wins x → number_of_visits x' = number_of_visits x →
  parent_node x' = parent_node x →
  get_ucb1_score c C h = Ok (u, h) →
  get_ucb1_score c C (<[r := x']> h) = Ok (u, <[r := x']> h).
Proof.
  intros Hr Hw Hn Hp. pose proof (lookup_lt_Some _ _ _ Hr) as Hlt.
  rewrite !get_ucb1_score_value.
  assert (∀ cn, parent_node cn = parent_node cn →
            parent_visits (<[r := x']> h) cn = parent_visits h cn) as Hpv.
  { intros cn _. unfold parent_visits. destruct (parent_node cn) as [p|]; [|done].
    destruct (decide (p = r)) as [->|Hne].
    - by rewrite list_lookup_insert_eq, Hr, Hn.
    - by rewrite list_lookup_insert_ne. }
  destruct (decide (c = r)) as [->|Hne].
  - rewrite list_lookup_insert_eq, Hr by done.
    rewrite Hw, Hn, Hpv by done.
    assert (parent_visits h x' = parent_visits h x) as ->
      by (unfold parent_visits; by rewrite Hp).
    destruct (ucb1_value _ _ _ _); [|done]. by intros [= ->].
  - rewrite list_lookup_insert_ne by done.
    destruct (h !! c) as [cn|]; [|done]. rewrite Hpv by done.
    destruct (ucb1_value _ _ _ _); [|done]. by intros [= ->].
Qed.

(** C1: after a completed [get_policy_vector] on a node whose children
    are as many as its legal moves (and whose policy output covers the legal
    moves), the blended score stored for every index [i] below the number
    of legal moves is the value evaluation of child [i], plus the UCB1 score
    of child [i], plus raw policy output [i] divided by the sum of the
    whole raw policy output. *)
Theorem blended_scores self h h' nd' :
  get_policy_vector self h = Ok (tt, h') →
  h' !! self = Some nd' →
  length (child_nodes nd') = length (legal_moves (game nd')) →
  (length (legal_moves (game nd')) ≤ length (POLICY_NETWORK (bitboard nd')))%nat →
  ∃ scores,
    policy_vector_legal_moves nd' = Some scores ∧
    length scores = length (legal_moves (game nd')) ∧
    ∀ i, (i < length (legal_moves (game nd')))%nat →
      ∃ c cn u raw,
        child_nodes nd' !! i = Some c ∧ h' !! c = Some cn ∧
        get_ucb1_score c default_exploration_constant h' = Ok (u, h') ∧
        POLICY_NETWORK (bitboard nd') !! i = Some raw ∧
        scores !! i =
          Some (f_add (f_add (value_evaluation cn) u)
                  (f_div raw (reduce_sum (POLICY_NETWORK (bitboard nd'))))).
Proof.
  intros Hrun Hself' Hlen HK.
  apply get_policy_vector_scores in Hrun
    as (nd & nd1 & info & scores & zs & Hself & Hself1 & Hinfo & Hzs & -> & Hscores).
  pose proof (lookup_lt_Some _ _ _ Hself1) as Hlt.
  rewrite list_lookup_insert_eq in Hself' by done. simplify_eq. simpl in *.
  specialize (Hscores Hlen HK).
  apply find_child_node_information_loop_inv in Hinfo as (_ & Hl1 & Hl2 & Hinfo).
  exists scores. split; [done|].
  assert (length scores = length (legal_moves (game nd1))) as Hls.
  { rewrite Hscores, !length_zip_with, length_take.
    unfold normalized_policy, tf_divide. rewrite length_fmap. lia. }
  split; [done|]. intros i Hi.
  destruct (lookup_lt_is_Some_2 (child_nodes nd1) i) as [c Hc]; [lia|].
  destruct (Hinfo i c Hc) as (cn & u & Hcn & Hu & Hv1 & Hv2).
  destruct (lookup_lt_is_Some_2 (POLICY_NETWORK (bitboard nd1)) i) as [raw Hraw]; [lia|].
  assert (∃ cn', <[self := with_policy scores zs nd1]> (after_expansion self nd h) !! c
                 = Some cn' ∧ value_evaluation cn' = value_evaluation cn)
    as (cn' & Hcn' & Hval).
  { destruct (decide (c = self)) as [->|Hne].
    - rewrite list_lookup_insert_eq by done. eexists. split; [done|]. by simplify_eq.
    - rewrite list_lookup_insert_ne by done. by exists cn. }
  exists c, cn', u, raw. split_and!; [done|done| |done|].
  - by apply (get_ucb1_score_insert self nd1).
  - rewrite Hscores, Hval. rewrite !lookup_zip_with, Hv1, Hv2. simpl.
    rewrite lookup_take_lt by done. unfold normalized_policy, tf_divide.
    by rewrite list_lookup_fmap, Hraw.
Qed.

(** ** Children and legal moves *)

Lemma get_policy_vector_children self h nd h' :
  h !! self = Some nd →
  child_nodes nd = [] ∨ children_match h nd →
  get_policy_vector self h = Ok (tt, h') →
  ∃ nd', h' !! self = Some nd' ∧ game nd' = game nd ∧ children_match h' nd' ∧
    (child_nodes nd ≠ [] → child_nodes nd' = child_nodes nd).
Proof.
  intros Hself Hcs Hrun. pose proof (lookup_lt_Some _ _ _ Hself) as Hlt.
  apply get_policy_vector_scores in Hrun
    as (nd0 & nd1 & info & scores & zs & Hself0 & Hself1 & _ & _ & -> & _).
  simplify_eq.
  pose proof (lookup_lt_Some _ _ _ Hself1) as Hlt1.
  pose proof (after_expansion_self _ _ _ _ Hself Hself1) as Hnd1.
  exists (with_policy scores zs nd1).
  split; [by apply list_lookup_insert_eq|].
  unfold after_expansion in *.
  destruct (decide (length (child_nodes nd) = 0%nat)) as [Hz|Hnz].
  - apply nil_length_inv in Hz. rewrite Hnd1. simpl.
    split_and!; [done| |done].
    unfold children_match. simpl. rewrite Hz. simpl.
    apply Forall2_same_length_lookup_2; [by rewrite length_seq|].
    intros i c mv [-> Hi]%lookup_seq Hmv.
    exists (born self (game nd) mv). split; [|done].
    rewrite list_lookup_insert_ne by lia.
    by rewrite lookup_expanded_new, Hmv.
  - subst nd1. simpl. split_and!; [done| |done].
    destruct Hcs as [Hnil|Hmatch]; [by rewrite Hnil in Hnz|].
    unfold children_match in *. simpl.
    eapply Forall2_impl; [done|]. intros c mv (cn & Hc & Hmv). simpl.
    destruct (decide (c = self)) as [->|Hne].
    + rewrite list_lookup_insert_eq by done. eexists. split; [done|].
      by simplify_eq.
    + rewrite list_lookup_insert_ne by done. by exists cn.
Qed.

(** C6: however many times (at least once) [get_policy_vector] is called
    on a node that starts without children (or with its children already
    in place), the node ends with exactly one child per legal move of its
    game, in the order of the legal moves, child [i] carrying legal move
    [i]; children that are in place are never replaced or added to. *)
Theorem children_after_policy_calls k self h nd h' :
  h !! self = Some nd →
  child_nodes nd = [] ∨ children_match h nd →
  (1 ≤ k)%nat →
  call_repeatedly k (get_policy_vector self) h = Ok (tt, h') →
  ∃ nd', h' !! self = Some nd' ∧ game nd' = game nd ∧
    length (child_nodes nd') = length (legal_moves (game nd)) ∧
    (∀ i mv, legal_moves (game nd) !! i = Some mv →
       ∃ c cn, child_nodes nd' !! i = Some c ∧ h' !! c = Some cn ∧
               move cn = Some mv) ∧
    (child_nodes nd ≠ [] → child_nodes nd' = child_nodes nd).
Proof.
  intros Hself Hcs Hk Hrun.
  assert (∃ nd', h' !! self = Some nd' ∧ game nd' = game nd ∧
            children_match h' nd' ∧
            (child_nodes nd ≠ [] → child_nodes nd' = child_nodes nd))
    as (nd' & Hself' & Hg & Hmatch & Hsame).
  { revert h nd Hself Hcs Hrun.
    assert (∀ j h nd, h !! self = Some nd → children_match h nd →
              call_repeatedly j (get_policy_vector self) h = Ok (tt, h') →
              ∃ nd', h' !! self = Some nd' ∧ game nd' = game nd ∧
                children_match h' nd' ∧ child_nodes nd' = child_nodes nd) as Hiter.
    { intros j. induction j as [|j IH]; intros h nd Hself Hm Hrun; simpl in Hrun.
      - apply ret_inv in Hrun as [_ ->]. by exists nd.
      - apply bind_Ok_inv in Hrun as ([] & h1 & Hcall & Hrun).
        destruct (get_policy_vector_children self h nd h1 Hself (or_intror Hm) Hcall)
          as (nd1 & Hself1 & Hg1 & Hm1 & Hsame1).
        destruct (IH h1 nd1 Hself1 Hm1 Hrun) as (nd' & ? & ? & ? & Hc').
        exists nd'. split_and!; [done|congruence|done|].
        rewrite Hc'. destruct (decide (child_nodes nd = [])) as [Hnil|Hnn]; [|by apply Hsame1].
        unfold children_match in Hm, Hm1. rewrite Hnil in *. rewrite Hg1 in Hm1.
        apply Forall2_length in Hm, Hm1. simpl in Hm.
        apply nil_length_inv. lia. }
    destruct k as [|k]; [lia|]. intros h nd Hself Hcs Hrun. simpl in Hrun.
    apply bind_Ok_inv in Hrun as ([] & h1 & Hcall & Hrun).
    destruct (get_policy_vector_children self h nd h1 Hself Hcs Hcall)
      as (nd1 & Hself1 & Hg1 & Hm1 & Hsame1).
    destruct (Hiter k h1 nd1 Hself1 Hm1 Hrun) as (nd' & ? & ? & ? & Hc').
    exists nd'. split_and!; [done|congruence|done|].
    intros Hnn. rewrite Hc'. by apply Hsame1. }
  exists nd'. split_and!; [done..| | |done].
  - unfold children_match in Hmatch. apply Forall2_length in Hmatch. congruence.
  - intros i mv Hmv. unfold children_match in Hmatch. rewrite Hg in Hmatch.
    destruct (Forall2_lookup_r _ _ _ _ _ Hmatch Hmv) as (c & Hc & cn & Hcn & Hmove).
    by exists c, cn.
Qed.

(** ** The mutations of the arena, one at a time *)

Lemma node_evolves_refl nd : node_evolves nd nd.
Proof. unfold node_evolves. split_and!; auto; lia. Qed.

Lemma node_evolves_trans nd1 nd2 nd3 :
  node_evolves nd1 nd2 → node_evolves nd2 nd3 → node_evolves nd1 nd3.
Proof.
  unfold node_evolves.
  intros (Hm & Hg & Hb & Hv & Ht & Hc & Hk) (Hm' & Hg' & Hb' & Hv' & Ht' & Hc' & Hk').
  split_and!; try congruence; try lia.
  destruct Hk as [Hk|[Hk Hl]], Hk' as [Hk'|[Hk' Hl']].
  - left. congruence.
  - right. split; [congruence|]. by rewrite <- Hg.
  - right. split; [done|]. by rewrite Hk'.
  - right. split; [done|]. by rewrite <- Hg.
Qed.

Lemma win_credit_cases result turn nd :
  win_credit result turn nd = 0 ∨ win_credit result turn nd = 1.
Proof. unfold win_credit. repeat case_match; auto. Qed.

Lemma step_old h h' r x :
  step h h' → h !! r = Some x → ∃ x', h' !! r = Some x' ∧ node_evolves x x'.
Proof.
  intros Hstep Hr. pose proof (lookup_lt_Some _ _ _ Hr) as Hlt.
  assert (∀ r0 y y', h !! r0 = Some y → node_evolves y y' →
            ∃ x', <[r0 := y']> h !! r = Some x' ∧ node_evolves x x') as Hins.
  { intros r0 y y' Hr0 Hev. destruct (decide (r = r0)) as [->|Hne].
    - rewrite list_lookup_insert_eq by done. exists y'. by simplify_eq.
    - rewrite list_lookup_insert_ne by done. exists x. split; [done|].
      apply node_evolves_refl. }
  destruct Hstep as [h g mv p|h self nd Hself Hnil|h self nd v Hself
                    |h self nd v Hself|h r0 nd result turn Hr0|h r0 nd Hr0].
  - exists x. split; [by apply lookup_app_l_Some|apply node_evolves_refl].
  - destruct (decide (r = self)) as [->|Hne].
    + rewrite lookup_expanded_self by done. eexists. split; [done|].
      simplify_eq. unfold node_evolves. simpl. split_and!; auto; try lia.
      right. split; [done|]. rewrite Hnil. simpl. apply length_seq.
    + rewrite lookup_expanded_old by done. exists x. split; [done|].
      apply node_evolves_refl.
  - eapply Hins; [done|]. unfold node_evolves. simpl. split_and!; auto; lia.
  - eapply Hins; [done|]. unfold node_evolves. simpl. split_and!; auto; lia.
  - eapply Hins; [done|]. unfold node_evolves. simpl.
    destruct (win_credit_cases result turn nd) as [->| ->]; split_and!; auto; lia.
  - eapply Hins; [done|]. unfold node_evolves. simpl. split_and!; auto; lia.
Qed.

Lemma step_new h h' r x' :
  step h h' → h' !! r = Some x' → h !! r = None →
  ∃ g mv p, x' = new_node g mv p.
Proof.
  intros Hstep Hr' Hr. apply lookup_ge_None in Hr.
  assert (∀ r0 y', <[r0 := y']> h !! r = Some x' → False) as Hins.
  { intros r0 y' Hl. apply lookup_lt_Some in Hl. rewrite length_insert in Hl. lia. }
  destruct Hstep as [h g mv p|h self nd Hself Hnil|h self nd v Hself
                    |h self nd v Hself|h r0 nd result turn Hr0|h r0 nd Hr0];
    try (by destruct (Hins _ _ Hr')).
  - rewrite lookup_app_r in Hr' by done.
    apply list_lookup_singleton_Some in Hr' as [_ <-]. by exists g, mv, p.
  - apply (lookup_expanded_inv _ _ _ _ _ _ _ Hself) in Hr'
      as [[-> _]|[[_ Hold]|(i & mv & _ & _ & ->)]].
    + apply lookup_lt_Some in Hself. lia.
    + apply lookup_lt_Some in Hold. lia.
    + unfold born. by eexists _, _, _.
Qed.

Lemma steps_old h h' r x :
  steps h h' → h !! r = Some x → ∃ x', h' !! r = Some x' ∧ node_evolves x x'.
Proof.
  intros Hsteps. revert x. induction Hsteps as [h|h h1 h' Hstep _ IH]; intros x Hr.
  - exists x. split; [done|apply node_evolves_refl].
  - destruct (step_old _ _ _ _ Hstep Hr) as (x1 & Hr1 & Hev1).
    destruct (IH _ Hr1) as (x' & Hr' & Hev'). exists x'. split; [done|].
    by eapply node_evolves_trans.
Qed.

Lemma steps_new h h' r x' :
  steps h h' → h' !! r = Some x' → h !! r = None →
  ∃ g mv p, node_evolves (new_node g mv p) x'.
Proof.
  intros Hsteps. induction Hsteps as [h|h h1 h' Hstep Hsteps IH]; intros Hr' Hr.
  - congruence.
  - destruct (h1 !! r) as [x1|] eqn:Hr1.
    + destruct (step_new _ _ _ _ Hstep Hr1 Hr) as (g & mv & p & ->).
      destruct (steps_old _ _ _ _ Hsteps Hr1) as (x'' & Hr'' & Hev).
      simplify_eq. by exists g, mv, p.
    + by apply IH.
Qed.

(** ** Every operation is a sequence of mutations *)

Lemma get_policy_vector_steps self h u h' :
  get_policy_vector self h = Ok (u, h') → steps h h'.
Proof.
  intros (nd & nd1 & info & s & scores & zs & Hself & Hself1 & _ & _ & _ & _ & ->)
    %get_policy_vector_inv.
  pose proof (lookup_lt_Some _ _ _ Hself1) as Hlt.
  assert (steps h (after_expansion self nd h)) as Hexp.
  { unfold after_expansion.
    destruct (decide (length (child_nodes nd) = 0%nat)) as [Hz|_]; [|done].
    apply rtc_once, step_expand; [done|by apply nil_length_inv]. }
  etrans; [exact Hexp|].
  eapply rtc_l; [by apply (step_scores _ self nd1 scores)|].
  apply rtc_once. unfold with_policy.
  rewrite <- (list_insert_insert_eq (after_expansion self nd h) self
                (set_policy_vector (Some (scores ++ zs))
                   (set_policy_vector_legal_moves (Some scores) nd1))
                (set_policy_vector_legal_moves (Some scores) nd1)).
  apply step_vector. by apply list_lookup_insert_eq.
Qed.

Lemma back_propagate_step_inv r result turn h next h' :
  back_propagate_step r result turn h = Ok (next, h') →
  ∃ nd, h !! r = Some nd ∧ next = parent_node nd ∧
        h' = <[r := backed_up result turn nd]> h.
Proof.
  intros Hrun. pose proof Hrun as Hrun'. unfold back_propagate_step in Hrun'.
  apply bind_Ok_inv in Hrun' as (? & h1 & (nd & Hr & _)%update_node_inv & _).
  rewrite (back_propagate_step_spec r result turn h nd Hr) in Hrun.
  exists nd. by simplify_eq.
Qed.

Lemma back_propagate_steps fuel :
  ∀ node result turn h u h',
    back_propagate fuel node result turn h = Ok (u, h') → steps h h'.
Proof.
  induction fuel as [|fuel IH]; intros [r|] result turn h u h' Hrun; simpl in Hrun;
    try done; try (by apply ret_inv in Hrun as [_ ->]).
  apply bind_Ok_inv in Hrun as (next & h1 & Hstep & Hrun).
  apply back_propagate_step_inv in Hstep as (nd & Hr & -> & ->).
  eapply rtc_l; [by apply step_backup|]. by eapply IH.
Qed.

Lemma select_child_inv self probs h c h' :
  select_child self probs h = Ok (c, h') →
  h' = h ∧ ∃ nd i, h !! self = Some nd ∧ tf_argmax probs = Ok i ∧
                   child_nodes nd !! i = Some c.
Proof.
  unfold select_child. intros Hrun.
  apply bind_Ok_inv in Hrun as (nd & h1 & [-> Hself]%get_node_inv & Hrun).
  apply bind_Ok_inv in Hrun as (i & h1 & [Hi ->]%lift_inv & Hrun).
  destruct (child_nodes nd !! i) as [c'|] eqn:Hc; [|done].
  apply ret_inv in Hrun as [-> ->]. split; [done|]. by exists nd, i.
Qed.

Lemma descend_steps fuel :
  ∀ selected h e h', descend fuel selected h = Ok (e, h') → steps h h'.
Proof.
  induction fuel as [|fuel IH]; intros selected h e h' Hrun; simpl in Hrun;
    apply bind_Ok_inv in Hrun as (sn & h1 & [-> Hsel]%get_node_inv & Hrun);
    (destruct (decide (0 < number_of_visits sn));
     [|by apply ret_inv in Hrun as [_ ->]]); [done|].
  destruct (policy_vector_legal_moves sn) as [scores|].
  - destruct (terminal_game_state sn); simpl in Hrun.
    + by apply ret_inv in Hrun as [_ ->].
    + apply bind_Ok_inv in Hrun as (c & h1 & [-> _]%select_child_inv & Hrun).
      by eapply IH.
  - apply bind_Ok_inv in Hrun as (? & h1 & Hgpv & Hrun).
    etrans; [by eapply get_policy_vector_steps|by eapply IH].
Qed.

Lemma MCTS_iteration_steps fuel root sample h e h' :
  MCTS_iteration fuel root sample h = Ok (e, h') → steps h h'.
Proof.
  unfold MCTS_iteration. intros Hrun.
  apply bind_Ok_inv in Hrun as (rn & h1 & [-> Hroot]%get_node_inv & Hrun).
  apply bind_Ok_inv in Hrun as (scores & h1 & Hscores & Hrun).
  assert (h1 = h) as ->.
  { destruct (policy_vector_legal_moves rn); [|done]. by apply ret_inv in Hscores as [_ ->]. }
  apply bind_Ok_inv in Hrun as (probs & h1 & [_ ->]%lift_inv & Hrun).
  apply bind_Ok_inv in Hrun as (sel & h1 & [-> _]%select_child_inv & Hrun).
  apply bind_Ok_inv in Hrun as (e' & h1 & Hdesc & Hrun).
  apply bind_Ok_inv in Hrun as (sn & h2 & [-> Hsn]%get_node_inv & Hrun).
  apply bind_Ok_inv in Hrun as (? & h2 & Hback & Hrun).
  apply ret_inv in Hrun as [_ ->].
  etrans; [by eapply descend_steps|by eapply back_propagate_steps].
Qed.

Lemma MCTS_loop_steps fuel root noise iterations :
  ∀ k h u h', MCTS_loop fuel root noise k iterations h = Ok (u, h') → steps h h'.
Proof.
  induction iterations as [|n IH]; intros k h u h' Hrun; simpl in Hrun.
  - by apply ret_inv in Hrun as [_ ->].
  - apply bind_Ok_inv in Hrun as (e & h1 & Hiter & Hrun).
    etrans; [by eapply MCTS_iteration_steps|by eapply IH].
Qed.

Lemma MCTS_steps fuel noise game_arg starting_node iterations h root h' :
  MCTS fuel noise game_arg starting_node iterations h = Ok (root, h') → steps h h'.
Proof.
  unfold MCTS. intros Hrun.
  apply bind_Ok_inv in Hrun as (r & h1 & Hroot & Hrun).
  assert (steps h h1) as Hinit.
  { destruct starting_node as [r0|].
    - apply bind_Ok_inv in Hroot as (? & h0 & (nd & Hr0 & ->)%update_node_inv & Hroot).
      apply ret_inv in Hroot as [_ ->]. by apply rtc_once, step_detach.
    - destruct game_arg as [g|]; [|done].
      unfold Game_Node_init, alloc_node in Hroot. simplify_eq.
      apply rtc_once, step_construct. }
  etrans; [exact Hinit|].
  apply bind_Ok_inv in Hrun as (rn & h2 & [-> Hrn]%get_node_inv & Hrun).
  destruct (terminal_game_state rn).
  - by apply ret_inv in Hrun as [_ ->].
  - apply bind_Ok_inv in Hrun as (? & h2 & Hgpv & Hrun).
    apply bind_Ok_inv in Hrun as (? & h3 & Hloop & Hrun).
    apply ret_inv in Hrun as [_ ->].
    etrans; [by eapply get_policy_vector_steps|by eapply MCTS_loop_steps].
Qed.

(** ** The counters *)

Lemma counters_ok_steps h h' : steps h h' → counters_ok h → counters_ok h'.
Proof.
  intros Hsteps Hok r x' Hr'. destruct (h !! r) as [x|] eqn:Hr.
  - destruct (steps_old _ _ _ _ Hsteps Hr) as (x'' & Hr'' & Hev). simplify_eq.
    specialize (Hok r x Hr). unfold node_evolves in Hev. lia.
  - destruct (steps_new _ _ _ _ Hsteps Hr' Hr) as (g & mv & p & Hev).
    unfold node_evolves in Hev. simpl in Hev. lia.
Qed.

Lemma get_policy_vector_counters self h u h' r nd :
  get_policy_vector self h = Ok (u, h') → h !! r = Some nd →
  ∃ nd', h' !! r = Some nd' ∧
    wins nd' = wins nd ∧ number_of_visits nd' = number_of_visits nd.
Proof.
  intros (nd0 & nd1 & info & s & scores & zs & Hself & Hself1 & _ & _ & _ & _ & ->)
    %get_policy_vector_inv Hr.
  pose proof (lookup_lt_Some _ _ _ Hself1) as Hlt1.
  pose proof (lookup_lt_Some _ _ _ Hr) as Hlt.
  pose proof (after_expansion_self _ _ _ _ Hself Hself1) as Hnd1.
  destruct (decide (r = self)) as [->|Hne].
  - rewrite list_lookup_insert_eq by done. eexists. split; [done|]. simplify_eq.
    simpl. by destruct (decide _).
  - rewrite list_lookup_insert_ne by done. exists nd. split; [|done].
    unfold after_expansion. destruct (decide _); [|done].
    by rewrite lookup_expanded_old.
Qed.

(** C7: [0 <= wins <= number_of_visits] holds for every node at all
    times: a node is created with both counters at 0; inside the body of
    the [back_propagate] loop the visit count is raised before the win
    count; every mutation the module makes to the arena keeps the
    inequality for every node, and so do complete runs of [back_propagate],
    [get_policy_vector] (which leaves the counters of every node as they
    were) and [MCTS]. *)
Theorem counters_invariant :
  (∀ g mv p, wins (new_node g mv p) = 0 ∧ number_of_visits (new_node g mv p) = 0) ∧
  (∀ h r nd, counters_ok h → h !! r = Some nd →
     counters_ok (<[r := set_number_of_visits (number_of_visits nd + 1) nd]> h)) ∧
  (∀ h h', step h h' → counters_ok h → counters_ok h') ∧
  (∀ fuel node result leaf_move_turn h h',
     back_propagate fuel node result leaf_move_turn h = Ok (tt, h') →
     counters_ok h → counters_ok h') ∧
  (∀ self h h',
     get_policy_vector self h = Ok (tt, h') →
     (counters_ok h → counters_ok h') ∧
     ∀ r nd, h !! r = Some nd →
       ∃ nd', h' !! r = Some nd' ∧
         wins nd' = wins nd ∧ number_of_visits nd' = number_of_visits nd) ∧
  (∀ fuel noise game_arg starting_node iterations h root h',
     MCTS fuel noise game_arg starting_node iterations h = Ok (root, h') →
     counters_ok h → counters_ok h').
Proof.
  split_and!.
  - done.
  - intros h r nd Hok Hr r' x'. pose proof (lookup_lt_Some _ _ _ Hr).
    destruct (decide (r' = r)) as [->|Hne].
    + rewrite list_lookup_insert_eq by done. intros [= <-]. simpl.
      specialize (Hok r nd Hr). lia.
    + rewrite list_lookup_insert_ne by done. apply Hok.
  - intros h h' Hstep. by apply counters_ok_steps, rtc_once.
  - intros fuel node result turn h h' Hrun.
    by eapply counters_ok_steps, back_propagate_steps.
  - intros self h h' Hrun. split.
    + by eapply counters_ok_steps, get_policy_vector_steps.
    + intros r nd. by eapply get_policy_vector_counters.
  - intros fuel noise game_arg starting_node iterations h root h' Hrun.
    by eapply counters_ok_steps, MCTS_steps.
Qed.

(** ** The value evaluation *)

Lemma steps_value_evaluation h h' r nd :
  steps h h' → h !! r = Some nd →
  ∃ nd', h' !! r = Some nd' ∧ value_evaluation nd' = value_evaluation nd.
Proof.
  intros Hsteps Hr. destruct (steps_old _ _ _ _ Hsteps Hr) as (nd' & Hr' & Hev).
  exists nd'. split; [done|]. unfold node_evolves in Hev. tauto.
Qed.

(** C5: the constructor stores 1.0, 0.0 or 0.5 when the game is flagged
    as over ([stalemate]) with white the winner, black the winner, or no
    winner, and otherwise the output of the value network on the bitboard
    of the game; afterwards no mutation made by the module, and so no run
    of [get_policy_vector], [back_propagate] or [MCTS], changes the
    [value_evaluation] of an existing node. *)
Theorem value_evaluation_set_once :
  (∀ g0 mv p h,
     let g := look_for_draws (check_for_checkmate g0) in
     Game_Node_init g0 mv p h = Ok (length h, h ++ [new_node g0 mv p]) ∧
     (h ++ [new_node g0 mv p]) !! length h = Some (new_node g0 mv p) ∧
     game (new_node g0 mv p) = g ∧
     value_evaluation (new_node g0 mv p) =
       if stalemate g then
         match white_win g with
         | Some true => f_of_int 1
         | Some false => f_of_int 0
         | None => f_half
         end
       else VALUE_NETWORK (to_bits g0)) ∧
  (∀ h h' r nd, step h h' → h !! r = Some nd →
     ∃ nd', h' !! r = Some nd' ∧ value_evaluation nd' = value_evaluation nd) ∧
  (∀ self h h' r nd,
     get_policy_vector self h = Ok (tt, h') → h !! r = Some nd →
     ∃ nd', h' !! r = Some nd' ∧ value_evaluation nd' = value_evaluation nd) ∧
  (∀ fuel node result leaf_move_turn h h' r nd,
     back_propagate fuel node result leaf_move_turn h = Ok (tt, h') →
     h !! r = Some nd →
     ∃ nd', h' !! r = Some nd' ∧ value_evaluation nd' = value_evaluation nd) ∧
  (∀ fuel noise game_arg starting_node iterations h root h' r nd,
     MCTS fuel noise game_arg starting_node iterations h = Ok (root, h') →
     h !! r = Some nd →
     ∃ nd', h' !! r = Some nd' ∧ value_evaluation nd' = value_evaluation nd).
Proof.
  split_and!.
  - intros g0 mv p h g. split_and!; [done| |done|].
    + rewrite lookup_app_r by lia. by rewrite Nat.sub_diag.
    + simpl. unfold initial_evaluation, float_of_bool. fold g.
      destruct (stalemate g); [|done]. by destruct (white_win g) as [[]|].
  - intros h h' r nd Hstep. by apply steps_value_evaluation, rtc_once.
  - intros self h h' r nd Hrun.
    by eapply steps_value_evaluation, get_policy_vector_steps.
  - intros fuel node result turn h h' r nd Hrun.
    by eapply steps_value_evaluation, back_propagate_steps.
  - intros fuel noise game_arg starting_node iterations h root h' r nd Hrun.
    by eapply steps_value_evaluation, MCTS_steps.
Qed.

(** ** Terminal nodes *)

Lemma terminal_childless_steps h h' :
  steps h h' → terminal_childless h → terminal_childless h'.
Proof.
  intros Hsteps Hok r x' Hr' Hmoves.
  assert (∃ x, child_nodes x = [] ∧ node_evolves x x') as (x & Hx & Hev).
  { destruct (h !! r) as [x|] eqn:Hr.
    - destruct (steps_old _ _ _ _ Hsteps Hr) as (x'' & Hr'' & Hev). simplify_eq.
      exists x. split; [|done]. apply (Hok r x Hr).
      unfold node_evolves in Hev. destruct Hev as (_ & Hg & _). by rewrite <- Hg.
    - destruct (steps_new _ _ _ _ Hsteps Hr' Hr) as (g & mv & p & Hev).
      by exists (new_node g mv p). }
  unfold node_evolves in Hev. destruct Hev as (_ & Hg & _ & _ & _ & _ & [Hk|[_ Hk]]).
  - congruence.
  - rewrite <- Hg, Hmoves in Hk. by apply nil_length_inv.
Qed.

Lemma new_node_flag g mv p :
  terminal_game_state (new_node g mv p) = true ↔
  legal_moves (game (new_node g mv p)) = [].
Proof.
  simpl. destruct (decide _) as [Hlt|Hge].
  - split; [done|]. intros Hnil. rewrite Hnil in Hlt. simpl in Hlt. lia.
  - split; [|done]. intros _. apply nil_length_inv. lia.
Qed.

Lemma flags_ok_steps h h' : steps h h' → flags_ok h → flags_ok h'.
Proof.
  intros Hsteps Hok r x' Hr'.
  assert (∃ x, (terminal_game_state x = true ↔ legal_moves (game x) = []) ∧
               node_evolves x x') as (x & Hx & Hev).
  { destruct (h !! r) as [x|] eqn:Hr.
    - destruct (steps_old _ _ _ _ Hsteps Hr) as (x'' & Hr'' & Hev). simplify_eq.
      exists x. split; [by apply (Hok r)|done].
    - destruct (steps_new _ _ _ _ Hsteps Hr' Hr) as (g & mv & p & Hev).
      exists (new_node g mv p). split; [|done]. apply new_node_flag. }
  unfold node_evolves in Hev. destruct Hev as (_ & -> & _ & _ & -> & _). done.
Qed.

(** ** A first call of [get_policy_vector] *)

Lemma argmax_from_bound l :
  ∀ best_i best i, (best_i < i)%nat → (argmax_from best_i best i l < i + length l)%nat.
Proof.
  induction l as [|x l IH]; intros best_i best i Hlt; simpl; [lia|].
  destruct (f_ltb best x).
  - specialize (IH i x (S i)). lia.
  - specialize (IH best_i best (S i)). lia.
Qed.

Lemma tf_argmax_Ok l : l ≠ [] → ∃ i, tf_argmax l = Ok i ∧ (i < length l)%nat.
Proof.
  destruct l as [|x l]; [done|]. intros _. eexists. split; [done|].
  pose proof (argmax_from_bound l 0 x 1). simpl. lia.
Qed.

Lemma value_evaluation_born self self' g mv :
  value_evaluation (born self g mv) = value_evaluation (born self' g mv).
Proof. done. Qed.

(** On a node without children, with no more than [MAX_MOVES] legal moves
    and a policy output that covers them, [get_policy_vector] returns: it
    creates the children and stores the scores. *)
Lemma get_policy_vector_fresh self h nd :
  h !! self = Some nd → child_nodes nd = [] →
  Z.of_nat (length (legal_moves (game nd))) ≤ MAX_MOVES →
  (length (legal_moves (game nd)) ≤ length (POLICY_NETWORK (bitboard nd)))%nat →
  get_policy_vector self h =
    Ok (tt, <[self := with_policy (first_scores nd)
                        (replicate (Z.to_nat (MAX_MOVES -
                           Z.of_nat (length (legal_moves (game nd))))) f_zero)
                        (add_children (seq (length h) (length (legal_moves (game nd))))
                           ((λ mv, board (game (born self (game nd) mv)))
                              <$> legal_moves (game nd)) nd)]>
               (expanded self (game nd) (legal_moves (game nd)) nd h)).
Proof.
  intros Hself Hnil Hmax HK. pose proof (lookup_lt_Some _ _ _ Hself) as Hlt.
  set (moves := legal_moves (game nd)) in *.
  set (nd1 := add_children (seq (length h) (length moves))
                ((λ mv, board (game (born self (game nd) mv))) <$> moves) nd).
  set (h1 := expanded self (game nd) moves nd h).
  assert (after_expansion self nd h = h1) as Hexp.
  { unfold after_expansion. by rewrite Hnil, decide_True. }
  assert (h1 !! self = Some nd1) as Hself1 by by apply lookup_expanded_self.
  set (ps := (λ mv, (value_evaluation (born self (game nd) mv),
                     unvisited_score (number_of_visits nd))) <$> moves).
  assert (find_child_node_information_loop (child_nodes nd1) h1
          = Ok ((ps.*1, ps.*2), h1)) as Hinfo.
  { apply find_child_node_information_loop_run. unfold nd1. simpl. rewrite Hnil. simpl.
    apply Forall2_same_length_lookup_2.
    { unfold ps. by rewrite length_seq, length_fmap. }
    intros i c p [-> Hi]%lookup_seq Hp. unfold ps in Hp.
    rewrite list_lookup_fmap in Hp.
    destruct (moves !! i) as [mv|] eqn:Hmv; [|done].
    simpl in Hp. injection Hp as <-. simpl.
    assert (h1 !! (length h + i)%nat = Some (born self (game nd) mv)) as Hc.
    { unfold h1. by rewrite lookup_expanded_new, Hmv. }
    exists (born self (game nd) mv). split_and!; [done..|].
    by rewrite (get_ucb1_score_unvisited h1 _ (born self (game nd) mv) self nd1). }
  assert (ps.*1 = (λ mv, value_evaluation (born 0 (game nd) mv)) <$> moves) as H1.
  { unfold ps. rewrite <- list_fmap_compose. by apply list_fmap_ext. }
  assert (ps.*2 = (λ _, unvisited_score (number_of_visits nd)) <$> moves) as H2.
  { unfold ps. rewrite <- list_fmap_compose. by apply list_fmap_ext. }
  rewrite (get_policy_vector_run self h nd nd1 (ps.*1, ps.*2)
             (zip_with f_add ps.*1 ps.*2) (first_scores nd)
             (replicate (Z.to_nat (MAX_MOVES - Z.of_nat (length moves))) f_zero));
    rewrite ?Hexp; try done.
  - apply tf_add_same_length. simpl. by rewrite !length_fmap.
  - simpl. rewrite tf_add_same_length.
    + unfold first_scores. by rewrite H1, H2.
    + rewrite length_zip_with, !length_fmap, length_take.
      unfold normalized_policy, tf_divide. rewrite length_fmap.
      subst ps moves nd1. rewrite length_fmap. simpl. lia.
  - unfold tf_zeros. subst moves nd1. simpl. by rewrite decide_False by lia.
Qed.

Lemma length_first_scores nd :
  (length (legal_moves (game nd)) ≤ length (POLICY_NETWORK (bitboard nd)))%nat →
  length (first_scores nd) = length (legal_moves (game nd)).
Proof.
  intros HK. unfold first_scores.
  rewrite !length_zip_with, !length_fmap, length_take.
  unfold normalized_policy, tf_divide. rewrite length_fmap. lia.
Qed.

Lemma expanded_nil self g nd h :
  h !! self = Some nd → expanded self g [] nd h = h.
Proof.
  intros Hself. unfold expanded. simpl.
  by rewrite app_nil_r, add_children_nil, list_insert_id.
Qed.

(** C9 (as amended): the children of a node whose game has no legal
    move stay empty through every mutation the module makes and through
    whole runs of [MCTS]; [get_policy_vector] itself has no guard for such
    a node: called on it, it creates no child and stores the empty score
    vector and a [policy_vector] of [MAX_MOVES] zeros; [MCTS] started on a
    terminal root returns it at once, without any search.  The flag
    [terminal_game_state] is set by the constructor to "no legal move" and
    keeps saying so. *)
Theorem terminal_nodes_in_search :
  (∀ g mv p, terminal_game_state (new_node g mv p) = true ↔
             legal_moves (game (new_node g mv p)) = []) ∧
  (∀ h h', step h h' → flags_ok h → flags_ok h') ∧
  (∀ h h', step h h' → terminal_childless h → terminal_childless h') ∧
  (∀ fuel noise game_arg starting_node iterations h root h',
     MCTS fuel noise game_arg starting_node iterations h = Ok (root, h') →
     terminal_childless h → terminal_childless h') ∧
  (∀ self h nd,
     h !! self = Some nd → legal_moves (game nd) = [] → child_nodes nd = [] →
     get_policy_vector self h =
       Ok (tt, <[self := set_policy_vector (Some (replicate 218 (f_of_int 0)))
                           (set_policy_vector_legal_moves (Some []) nd)]> h)) ∧
  (∀ fuel noise g iterations h,
     legal_moves (look_for_draws (check_for_checkmate g)) = [] →
     MCTS fuel noise (Some g) None iterations h =
       Ok (length h, h ++ [new_node g None None])) ∧
  (∀ fuel noise game_arg r nd iterations h,
     h !! r = Some nd → terminal_game_state nd = true →
     MCTS fuel noise game_arg (Some r) iterations h =
       Ok (r, <[r := set_parent_node None nd]> h)).
Proof.
  split_and!.
  - apply new_node_flag.
  - intros h h' Hstep. by apply flags_ok_steps, rtc_once.
  - intros h h' Hstep. by apply terminal_childless_steps, rtc_once.
  - intros fuel noise game_arg starting_node iterations h root h' Hrun.
    by eapply terminal_childless_steps, MCTS_steps.
  - intros self h nd Hself Hmoves Hnil.
    rewrite (get_policy_vector_fresh self h nd Hself Hnil);
      rewrite ?Hmoves; simpl; [|done|lia].
    rewrite (expanded_nil _ _ _ _ Hself), add_children_nil.
    unfold first_scores. by rewrite Hmoves.
  - intros fuel noise g iterations h Hmoves. unfold MCTS.
    assert (Game_Node_init g None None h = Ok (length h, h ++ [new_node g None None]))
      as Hinit by done.
    run_Ok Hinit.
    assert ((h ++ [new_node g None None]) !! length h = Some (new_node g None None))
      as Hroot.
    { rewrite lookup_app_r by lia. by rewrite Nat.sub_diag. }
    run_Ok (get_node_Ok _ _ _ Hroot).
    by rewrite (proj2 (new_node_flag g None None) Hmoves).
  - intros fuel noise game_arg r nd iterations h Hr Hflag. unfold MCTS.
    pose proof (lookup_lt_Some _ _ _ Hr) as Hlt.
    assert ((let* _ := update_node r (set_parent_node None) in ret r) h
            = Ok (r, <[r := set_parent_node None nd]> h)) as Hdetach
      by by run_Ok (update_node_Ok r (set_parent_node None) h nd Hr).
    run_Ok Hdetach.
    assert (<[r := set_parent_node None nd]> h !! r = Some (set_parent_node None nd))
      as Hr' by by apply list_lookup_insert_eq.
    run_Ok (get_node_Ok _ _ _ Hr'). simpl. by rewrite Hflag.
Qed.

(** ** The descent of [MCTS] *)

Lemma descend_unvisited fuel s h sn :
  h !! s = Some sn → ¬ 0 < number_of_visits sn → descend fuel s h = Ok (s, h).
Proof.
  intros Hs Hn. destruct fuel; simpl; run_Ok (get_node_Ok _ _ _ Hs);
    by rewrite decide_False.
Qed.

(** The descent started on a visited node without policy vector. *)
Lemma descent_at_unscored_node fuel s h sn :
  h !! s = Some sn →
  0 < number_of_visits sn →
  policy_vector_legal_moves sn = None →
  child_nodes sn = [] →
  (terminal_game_state sn = true ↔ legal_moves (game sn) = []) →
  Z.of_nat (length (legal_moves (game sn))) ≤ MAX_MOVES →
  (length (legal_moves (game sn)) ≤ length (POLICY_NETWORK (bitboard sn)))%nat →
  (2 ≤ fuel)%nat →
  ∃ h1 sn1 e en,
    get_policy_vector s h = Ok (tt, h1) ∧
    h1 !! s = Some sn1 ∧
    policy_vector_legal_moves sn1 = Some (first_scores sn) ∧
    descend fuel s h = Ok (e, h1) ∧
    h1 !! e = Some en ∧
    (terminal_game_state sn = true → e = s) ∧
    (terminal_game_state sn = false →
       e ≠ s ∧ h !! e = None ∧ number_of_visits en = 0 ∧ parent_node en = Some s ∧
       ∃ i, tf_argmax (first_scores sn) = Ok i ∧ child_nodes sn1 !! i = Some e) ∧
    (∀ root sample rn scores probs,
       h !! root = Some rn →
       policy_vector_legal_moves rn = Some scores →
       tf_add scores (dirichlet_noise sample (length (legal_moves (game rn)))) = Ok probs →
       select_child root probs h = Ok (s, h) →
       MCTS_iteration fuel root sample h =
         (let* _ := back_propagate fuel (Some e) (value_evaluation en)
                      (move_turn (game en)) in
          ret e) h1).
Proof.
  intros Hs Hvis Hpv Hnil Hflag Hmax HK Hfuel.
  pose proof (lookup_lt_Some _ _ _ Hs) as Hlt.
  pose proof (get_policy_vector_fresh s h sn Hs Hnil Hmax HK) as Hgpv.
  set (moves := legal_moves (game sn)) in *.
  set (sn0 := add_children (seq (length h) (length moves))
                ((λ mv, board (game (born s (game sn) mv))) <$> moves) sn) in *.
  set (zs := replicate (Z.to_nat (MAX_MOVES - Z.of_nat (length moves))) f_zero) in *.
  set (sn1 := with_policy (first_scores sn) zs sn0) in *.
  set (h0 := expanded s (game sn) moves sn h) in *.
  set (h1 := <[s := sn1]> h0) in *.
  assert (length h0 = (length h + length moves)%nat) as Hlen0
    by apply length_expanded.
  assert (h1 !! s = Some sn1) as Hs1.
  { apply list_lookup_insert_eq. lia. }
  assert (∀ i mv, moves !! i = Some mv →
            h1 !! (length h + i)%nat = Some (born s (game sn) mv)) as Hchild.
  { intros i mv Hmv. unfold h1. rewrite list_lookup_insert_ne by lia.
    unfold h0. by rewrite lookup_expanded_new, Hmv. }
  (* the node on which the loop ends *)
  assert (∃ e en, h1 !! e = Some en ∧
            descend (pred fuel) s h1 = Ok (e, h1) ∧
            (terminal_game_state sn = true → e = s) ∧
            (terminal_game_state sn = false →
               e ≠ s ∧ h !! e = None ∧ number_of_visits en = 0 ∧
               parent_node en = Some s ∧
               ∃ i, tf_argmax (first_scores sn) = Ok i ∧ child_nodes sn1 !! i = Some e))
    as (e & en & He & Hdesc & Hterm & Hnonterm).
  { destruct fuel as [|[|k]]; [lia..|]. change (pred (S (S k))) with (S k).
    cbn [descend]. run_Ok (get_node_Ok _ _ _ Hs1).
    rewrite decide_True by done.
    change (policy_vector_legal_moves sn1) with (Some (first_scores sn)).
    change (terminal_game_state sn1) with (terminal_game_state sn).
    destruct (terminal_game_state sn) eqn:Hterm; cbn [negb].
    - exists s, sn1. split_and!; done.
    - assert (first_scores sn ≠ []) as Hne.
      { intros Hempty. apply (f_equal length) in Hempty.
        rewrite length_first_scores in Hempty by done. simpl in Hempty.
        apply nil_length_inv in Hempty. apply Hflag in Hempty. done. }
      destruct (tf_argmax_Ok _ Hne) as (i & Hi & Hilt).
      rewrite length_first_scores in Hilt by done. fold moves in Hilt.
      destruct (lookup_lt_is_Some_2 moves i Hilt) as [mv Hmv].
      assert (child_nodes sn1 !! i = Some (length h + i)%nat) as Hci.
      { unfold sn1, sn0. simpl. rewrite Hnil. simpl. by apply lookup_seq_lt. }
      assert (select_child s (first_scores sn) h1 = Ok ((length h + i)%nat, h1)) as Hsel.
      { unfold select_child. run_Ok (get_node_Ok _ _ _ Hs1).
        rewrite Hi. run_Ok (lift_Ok i h1). by rewrite Hci. }
      run_Ok Hsel.
      exists (length h + i)%nat, (born s (game sn) mv).
      split_and!; [by apply Hchild| |done|].
      + by apply (descend_unvisited _ _ _ (born s (game sn) mv)); [apply Hchild|].
      + intros _. split_and!; [lia|by apply lookup_ge_None_2; lia|done|done|].
        by exists i. }
  exists h1, sn1, e, en. split_and!; try done.
  - destruct fuel as [|fuel]; [lia|]. simpl in Hdesc. cbn [descend].
    run_Ok (get_node_Ok _ _ _ Hs). rewrite decide_True by done. rewrite Hpv.
    by run_Ok Hgpv.
  - intros root sample rn scores probs Hroot Hscores Hprobs Hsel.
    unfold MCTS_iteration. run_Ok (get_node_Ok _ _ _ Hroot). rewrite Hscores.
    unfold bind at 1, ret at 1. rewrite Hprobs. run_Ok (lift_Ok probs h).
    run_Ok Hsel.
    assert (descend fuel s h = Ok (e, h1)) as Hfull.
    { destruct fuel as [|fuel]; [lia|]. simpl in Hdesc. cbn [descend].
      run_Ok (get_node_Ok _ _ _ Hs). rewrite decide_True by done. rewrite Hpv.
      by run_Ok Hgpv. }
    run_Ok Hfull. by run_Ok (get_node_Ok _ _ _ He).
Qed.

Lemma descend_along_path h k c s :
  descent_path h k c s → ∀ fuel, descend (k + fuel) c h = descend fuel s h.
Proof.
  induction 1 as [s|k c cn scores c' s Hc Hvis Hpv Hterm Hsel _ IH]; intros fuel;
    [done|].
  change (S k + fuel)%nat with (S (k + fuel)). cbn [descend].
  run_Ok (get_node_Ok _ _ _ Hc). rewrite decide_True by done.
  rewrite Hpv, Hterm. cbn [negb]. run_Ok Hsel. apply IH.
Qed.

(** C2 (as amended): in an iteration, wherever the descent reaches a
    node [s] with [number_of_visits > 0] and no policy vector (hence no
    children yet), after any number [k] of passes of the loop from the
    node picked at the root, the driver computes the policy vector of [s]
    and goes round the loop again on [s].  If [s] is terminal the descent
    ends there and [s] itself is evaluated.  Otherwise the descent takes
    one more step, to the child of highest blended score among the
    children just created; that child has [number_of_visits = 0], the loop
    ends on it, and it is the child's [value_evaluation] that the
    iteration backs up. *)
Theorem descent_after_expansion fuel s h sn :
  h !! s = Some sn →
  0 < number_of_visits sn →
  policy_vector_legal_moves sn = None →
  child_nodes sn = [] →
  (terminal_game_state sn = true ↔ legal_moves (game sn) = []) →
  Z.of_nat (length (legal_moves (game sn))) ≤ MAX_MOVES →
  (length (legal_moves (game sn)) ≤ length (POLICY_NETWORK (bitboard sn)))%nat →
  (2 ≤ fuel)%nat →
  ∃ h1 sn1 e en,
    get_policy_vector s h = Ok (tt, h1) ∧
    h1 !! s = Some sn1 ∧
    policy_vector_legal_moves sn1 = Some (first_scores sn) ∧
    descend fuel s h = Ok (e, h1) ∧
    h1 !! e = Some en ∧
    (terminal_game_state sn = true → e = s) ∧
    (terminal_game_state sn = false →
       e ≠ s ∧ h !! e = None ∧ number_of_visits en = 0 ∧ parent_node en = Some s ∧
       ∃ i, tf_argmax (first_scores sn) = Ok i ∧ child_nodes sn1 !! i = Some e) ∧
    (∀ k c, descent_path h k c s → descend (k + fuel) c h = Ok (e, h1)) ∧
    (∀ root sample rn scores probs k c,
       h !! root = Some rn →
       policy_vector_legal_moves rn = Some scores →
       tf_add scores (dirichlet_noise sample (length (legal_moves (game rn)))) = Ok probs →
       select_child root probs h = Ok (c, h) →
       descent_path h k c s →
       MCTS_iteration (k + fuel) root sample h =
         (let* _ := back_propagate (k + fuel) (Some e) (value_evaluation en)
                      (move_turn (game en)) in
          ret e) h1).
Proof.
  intros Hs Hvis Hpv Hnil Hflag Hmax HK Hfuel.
  destruct (descent_at_unscored_node fuel s h sn Hs Hvis Hpv Hnil Hflag Hmax HK Hfuel)
    as (h1 & sn1 & e & en & Hgpv & Hs1 & Hpv1 & Hdesc & He & Hterm & Hnonterm & _).
  assert (∀ k c, descent_path h k c s → descend (k + fuel) c h = Ok (e, h1)) as Hfull.
  { intros k c Hpath. by rewrite (descend_along_path _ _ _ _ Hpath). }
  exists h1, sn1, e, en.
  refine (conj Hgpv (conj Hs1 (conj Hpv1 (conj Hdesc (conj He (conj Hterm
            (conj Hnonterm (conj Hfull _)))))))).
  intros root sample rn scores probs k c Hroot Hscores Hprobs Hsel Hpath.
  unfold MCTS_iteration. run_Ok (get_node_Ok _ _ _ Hroot). rewrite Hscores.
  unfold bind at 1, ret at 1. rewrite Hprobs. run_Ok (lift_Ok probs h).
  run_Ok Hsel. run_Ok (Hfull k c Hpath). by run_Ok (get_node_Ok _ _ _ He).
Qed.

End Verification.

(** * Further properties of the module *)

Section Further.
Context `{GameEngine}.
Abbreviation heap := (list Game_Node).

Notation "'let*' x ':=' m 'in' k" := (bind m (λ x, k))
  (at level 10, x pattern, m at level 100, k at level 200).

Tactic Notation "run" uconstr(E) :=
  erewrite (bind_Ok _ _ _ _ _ E); cbv beta.

(** ** [init_all_children] *)

(** X1: [init_all_children] never raises.  It allocates one new node per
    legal move, in order, at the end of the arena; child [i] carries legal
    move [i], the game reached by that move (resolved by the constructor),
    the expanded node as parent, zero counters, no children and no policy;
    the expanded node gains their references and boards, and all other
    nodes are left as they were. *)
Theorem init_all_children_effect self h nd :
  h !! self = Some nd →
  ∃ h' nd',
    init_all_children self h = Ok (tt, h') ∧
    length h' = (length h + length (legal_moves (game nd)))%nat ∧
    (∀ r, r ≠ self → (r < length h)%nat → h' !! r = h !! r) ∧
    h' !! self = Some nd' ∧
    child_nodes nd' =
      child_nodes nd ++ seq (length h) (length (legal_moves (game nd))) ∧
    visited_boards nd' =
      visited_boards nd ++
      ((λ mv, board (look_for_draws (check_for_checkmate
                                       (play_machine_move (game nd) mv))))
         <$> legal_moves (game nd)) ∧
    move nd' = move nd ∧ game nd' = game nd ∧
    value_evaluation nd' = value_evaluation nd ∧
    terminal_game_state nd' = terminal_game_state nd ∧
    policy_vector nd' = policy_vector nd ∧
    policy_vector_legal_moves nd' = policy_vector_legal_moves nd ∧
    parent_node nd' = parent_node nd ∧
    number_of_visits nd' = number_of_visits nd ∧ wins nd' = wins nd ∧
    ∀ i mv, legal_moves (game nd) !! i = Some mv →
      ∃ cn, h' !! (length h + i)%nat = Some cn ∧
        move cn = Some mv ∧ parent_node cn = Some self ∧
        game cn = look_for_draws (check_for_checkmate
                                    (play_machine_move (game nd) mv)) ∧
        number_of_visits cn = 0 ∧ wins cn = 0 ∧ child_nodes cn = [] ∧
        policy_vector cn = None ∧ policy_vector_legal_moves cn = None.
Proof.
  intros Hself. pose proof (lookup_lt_Some _ _ _ Hself) as Hlt.
  eexists _, _. split; [by apply init_all_children_spec|].
  split; [apply length_expanded|].
  split; [intros r Hne Hr; by apply lookup_expanded_old|].
  split; [by apply lookup_expanded_self|]. simpl.
  split_and!; try done.
  intros i mv Hmv. exists (born self (game nd) mv).
    rewrite lookup_expanded_new, Hmv by done. by split_and!.
Qed.

(** X2: [init_all_children] has no guard of its own (the guard is the test on
    [child_nodes] in [get_policy_vector]): called twice in a row it
    creates the children twice, so that the node ends with two children,
    two different objects, for every legal move. *)
Theorem init_all_children_twice self h nd :
  h !! self = Some nd →
  ∃ h1 h2 nd2,
    init_all_children self h = Ok (tt, h1) ∧
    init_all_children self h1 = Ok (tt, h2) ∧
    h2 !! self = Some nd2 ∧
    length h2 = (length h + 2 * length (legal_moves (game nd)))%nat ∧
    child_nodes nd2 =
      child_nodes nd ++ seq (length h) (2 * length (legal_moves (game nd))) ∧
    ∀ i mv, legal_moves (game nd) !! i = Some mv →
      ∃ cn1 cn2,
        h2 !! (length h + i)%nat = Some cn1 ∧
        h2 !! (length h + length (legal_moves (game nd)) + i)%nat = Some cn2 ∧
        move cn1 = Some mv ∧ move cn2 = Some mv.
Proof.
  intros Hself. pose proof (lookup_lt_Some _ _ _ Hself) as Hlt.
  set (n := length (legal_moves (game nd))).
  set (h1 := expanded self (game nd) (legal_moves (game nd)) nd h).
  set (nd1 := add_children (seq (length h) n)
                ((λ mv, board (game (born self (game nd) mv)))
                   <$> legal_moves (game nd)) nd).
  assert (h1 !! self = Some nd1) as Hself1 by by apply lookup_expanded_self.
  assert (length h1 = (length h + n)%nat) as Hlen1 by apply length_expanded.
  exists h1, (expanded self (game nd1) (legal_moves (game nd1)) nd1 h1). eexists.
  split; [by apply init_all_children_spec|].
  split; [by apply init_all_children_spec|].
  split; [apply lookup_expanded_self; lia|].
  split; [rewrite length_expanded; simpl; fold n; lia|].
  split.
  - simpl. fold n. rewrite Hlen1, <- app_assoc, Nat.add_0_r. f_equal.
    by rewrite seq_app.
  - intros i mv Hmv. pose proof (lookup_lt_Some _ _ _ Hmv) as Hi. fold n in Hi.
    exists (born self (game nd) mv), (born self (game nd1) mv). split_and!; try done.
    + rewrite lookup_expanded_old by lia. unfold h1.
      by rewrite lookup_expanded_new, Hmv.
    + fold n. rewrite <- Hlen1. rewrite lookup_expanded_new by lia.
      simpl. by rewrite Hmv.
Qed.

(** ** [visited_boards] *)

Lemma boards_transfer (h h' : heap) (cs : list node_ref) (bs : list Board) :
  (∀ c cn, h !! c = Some cn → ∃ cn', h' !! c = Some cn' ∧ game cn' = game cn) →
  Forall2 (λ c b, ∃ cn, h !! c = Some cn ∧ b = board (game cn)) cs bs →
  Forall2 (λ c b, ∃ cn, h' !! c = Some cn ∧ b = board (game cn)) cs bs.
Proof.
  intros Hgame HF. eapply Forall2_impl; [exact HF|]. intros c b (cn & Hc & ->).
  destruct (Hgame c cn Hc) as (cn' & Hc' & Hg). exists cn'. by rewrite Hg.
Qed.

Lemma boards_ok_step h h' : step h h' → boards_ok h → boards_ok h'.
Proof.
  intros Hstep Hok r x' Hr'.
  assert (∀ c cn, h !! c = Some cn → ∃ cn', h' !! c = Some cn' ∧ game cn' = game cn)
    as Hgame.
  { intros c cn Hc. destruct (step_old _ _ _ _ Hstep Hc) as (cn' & Hc' & Hev).
    exists cn'. split; [done|]. unfold node_evolves in Hev. tauto. }
  destruct (h !! r) as [x|] eqn:Hr.
  - (* an object that was there *)
    assert (child_nodes x' = child_nodes x ∧ visited_boards x' = visited_boards x ∨
            child_nodes x = [] ∧
            x' = add_children (seq (length h) (length (legal_moves (game x))))
                   ((λ mv, board (game (born r (game x) mv)))
                      <$> legal_moves (game x)) x ∧
            h' = expanded r (game x) (legal_moves (game x)) x h) as [[Hc Hb]|(Hnil & -> & ->)].
    { pose proof (lookup_lt_Some _ _ _ Hr) as Hlt.
      destruct Hstep as [h g mv p|h self nd Hself Hnil|h self nd v Hself
                        |h self nd v Hself|h r0 nd result turn Hr0|h r0 nd Hr0].
      - rewrite lookup_app_l in Hr' by done. left. by simplify_eq.
      - destruct (decide (r = self)) as [->|Hne].
        + right. rewrite lookup_expanded_self in Hr' by done. by simplify_eq.
        + left. rewrite lookup_expanded_old in Hr' by done. by simplify_eq.
      - left. destruct (decide (r = self)) as [->|Hne].
        + rewrite list_lookup_insert_eq in Hr' by done. by simplify_eq.
        + rewrite list_lookup_insert_ne in Hr' by done. by simplify_eq.
      - left. destruct (decide (r = self)) as [->|Hne].
        + rewrite list_lookup_insert_eq in Hr' by done. by simplify_eq.
        + rewrite list_lookup_insert_ne in Hr' by done. by simplify_eq.
      - left. destruct (decide (r = r0)) as [->|Hne].
        + rewrite list_lookup_insert_eq in Hr' by done. by simplify_eq.
        + rewrite list_lookup_insert_ne in Hr' by done. by simplify_eq.
      - left. destruct (decide (r = r0)) as [->|Hne].
        + rewrite list_lookup_insert_eq in Hr' by done. by simplify_eq.
        + rewrite list_lookup_insert_ne in Hr' by done. by simplify_eq. }
    + rewrite Hc, Hb. eapply boards_transfer; [done|]. exact (Hok r x Hr).
    + pose proof (lookup_lt_Some _ _ _ Hr) as Hlt.
      specialize (Hok r x Hr). rewrite Hnil in Hok.
      apply Forall2_nil_inv_l in Hok. simpl. rewrite Hnil, Hok. simpl.
      apply Forall2_same_length_lookup_2; [by rewrite length_seq, length_fmap|].
      intros i c b [-> Hi]%lookup_seq Hb. rewrite list_lookup_fmap in Hb.
      destruct (legal_moves (game x) !! i) as [mv|] eqn:Hmv; [|done].
      simpl in Hb. injection Hb as <-.
      exists (born r (game x) mv). split; [|done].
      by rewrite lookup_expanded_new, Hmv.
  - destruct (step_new _ _ _ _ Hstep Hr' Hr) as (g & mv & p & ->). simpl.
    constructor.
Qed.

(** X3: [visited_boards] stays parallel to [child_nodes]: through every
    mutation the module makes to the arena, and so through whole runs of
    [get_policy_vector] and [MCTS], entry [i] of [visited_boards] is the
    board of the game held by child [i], and the two lists have the same
    length. *)
Theorem visited_boards_parallel :
  (∀ h h', steps h h' → boards_ok h → boards_ok h') ∧
  (∀ self h h', get_policy_vector self h = Ok (tt, h') → boards_ok h → boards_ok h') ∧
  (∀ fuel noise game_arg starting_node iterations h root h',
     MCTS fuel noise game_arg starting_node iterations h = Ok (root, h') →
     boards_ok h → boards_ok h') ∧
  (∀ h r nd, boards_ok h → h !! r = Some nd →
     length (visited_boards nd) = length (child_nodes nd) ∧
     ∀ i c, child_nodes nd !! i = Some c →
       ∃ cn, h !! c = Some cn ∧ visited_boards nd !! i = Some (board (game cn))).
Proof.
  assert (∀ h h', steps h h' → boards_ok h → boards_ok h') as Hsteps.
  { intros h h' Hs. induction Hs as [|h h1 h' Hstep _ IH]; [done|].
    intros Hok. by eapply IH, boards_ok_step. }
  split_and!.
  - exact Hsteps.
  - intros self h h' Hrun. by eapply Hsteps, get_policy_vector_steps.
  - intros fuel noise game_arg starting_node iterations h root h' Hrun.
    by eapply Hsteps, MCTS_steps.
  - intros h r nd Hok Hr. specialize (Hok r nd Hr). split.
    + symmetry. by eapply Forall2_length.
    + intros i c Hc. destruct (Forall2_lookup_l _ _ _ _ _ Hok Hc) as (b & Hb & cn & Hcn & ->).
      by exists cn.
Qed.

(** ** [select_child] *)

Lemma argmax_from_spec all l :
  strict_weak_order_on all →
  ∀ pre best_i best,
    (∀ y, y ∈ pre ++ l → y ∈ all) →
    pre !! best_i = Some best →
    (∀ j t, pre !! j = Some t → f_ltb best t = false) →
    (∀ j t, (j < best_i)%nat → pre !! j = Some t → f_ltb t best = true) →
    ∃ s, (pre ++ l) !! argmax_from best_i best (length pre) l = Some s ∧
      (∀ j t, (pre ++ l) !! j = Some t → f_ltb s t = false) ∧
      (∀ j t, (j < argmax_from best_i best (length pre) l)%nat →
         (pre ++ l) !! j = Some t → f_ltb t s = true).
Proof.
  intros (Hirr & Htrans & Hneg).
  induction l as [|x l IH]; intros pre best_i best Hall Hbest Hmax Hfirst; simpl.
  - rewrite app_nil_r. by exists best.
  - assert (pre ++ x :: l = (pre ++ [x]) ++ l) as Heq by by rewrite <- app_assoc.
    rewrite Heq in *.
    assert (best ∈ all) as Hbin.
    { apply Hall, elem_of_app. left. apply elem_of_app. left.
      by eapply list_elem_of_lookup_2. }
    assert (x ∈ all) as Hxin.
    { apply Hall, elem_of_app. left. apply elem_of_app. right.
      apply list_elem_of_here. }
    assert (∀ j t, pre !! j = Some t → t ∈ all) as Hpin.
    { intros j t Ht. apply Hall, elem_of_app. left. apply elem_of_app. left.
      by eapply list_elem_of_lookup_2. }
    replace (S (length pre)) with (length (pre ++ [x]))
      by (rewrite length_app; simpl; lia).
    destruct (f_ltb best x) eqn:Hlt.
    + apply IH; [done|..].
      * rewrite lookup_app_r by done. by rewrite Nat.sub_diag.
      * intros j t [Ht|[_ Ht]]%lookup_app_Some.
        -- destruct (f_ltb x t) eqn:Hxt; [|done].
           pose proof (Hpin j t Ht) as Htin. specialize (Hmax j t Ht).
           by rewrite (Htrans _ _ _ Hbin Hxin Htin Hlt Hxt) in Hmax.
        -- apply list_lookup_singleton_Some in Ht as [_ <-]. by apply Hirr.
      * intros j t Hj Ht. rewrite lookup_app_l in Ht by done.
        destruct (Hneg best t x Hbin (Hpin j t Ht) Hxin Hlt) as [Hbt|Htx]; [|done].
        by rewrite (Hmax j t Ht) in Hbt.
    + apply IH; [done|..].
      * by apply lookup_app_l_Some.
      * intros j t [Ht|[_ Ht]]%lookup_app_Some; [by eapply Hmax|].
        by apply list_lookup_singleton_Some in Ht as [_ <-].
      * intros j t Hj Ht. pose proof (lookup_lt_Some _ _ _ Hbest).
        rewrite lookup_app_l in Ht by lia. by eapply Hfirst.
Qed.

(** X4: [select_child] never changes the arena.  On an empty score vector
    [tf.argmax] raises (after line 135 has printed the children); on a
    non-empty one that is not longer than the list of children it
    returns one of the children, at a position below the length of the
    vector; when the node has no child the indexing raises [IndexError]. *)
Theorem select_child_cases self h nd scores :
  h !! self = Some nd →
  (scores = [] → select_child self scores h = Err InvalidArgumentError) ∧
  (scores ≠ [] → (length scores ≤ length (child_nodes nd))%nat →
     ∃ i c, (i < length scores)%nat ∧ child_nodes nd !! i = Some c ∧
            select_child self scores h = Ok (c, h)) ∧
  (scores ≠ [] → child_nodes nd = [] → select_child self scores h = Err IndexError).
Proof.
  intros Hself. unfold select_child. run (get_node_Ok _ _ _ Hself). split_and!.
  - by intros ->.
  - intros Hne Hlen. destruct (tf_argmax_Ok scores Hne) as (i & Hi & Hlt).
    rewrite Hi. run (lift_Ok i h).
    destruct (lookup_lt_is_Some_2 (child_nodes nd) i ltac:(lia)) as [c Hc].
    exists i, c. by rewrite Hc.
  - intros Hne Hnil. destruct (tf_argmax_Ok scores Hne) as (i & Hi & Hlt).
    rewrite Hi. run (lift_Ok i h). by rewrite Hnil.
Qed.

(** X5: When the comparison is a strict weak order on the entries of the
    score vector (none of them is NaN), the child returned by
    [select_child] is the one at the first position holding the greatest
    score: no score is greater than its score, and every score before it
    is smaller. *)
Theorem select_child_first_maximum self scores h c h' :
  strict_weak_order_on scores →
  select_child self scores h = Ok (c, h') →
  ∃ nd i s,
    h !! self = Some nd ∧ child_nodes nd !! i = Some c ∧ scores !! i = Some s ∧
    (∀ j t, scores !! j = Some t → f_ltb s t = false) ∧
    (∀ j t, (j < i)%nat → scores !! j = Some t → f_ltb t s = true).
Proof.
  intros Hswo Hrun.
  apply select_child_inv in Hrun as (_ & nd & i & Hself & Hi & Hc).
  destruct scores as [|x l]; [done|]. simpl in Hi. injection Hi as <-.
  destruct (argmax_from_spec (x :: l) l Hswo [x] 0%nat x) as (s & Hs & Hmax & Hfirst).
  - done.
  - done.
  - intros j t Ht. apply list_lookup_singleton_Some in Ht as [_ <-].
    destruct Hswo as [Hirr _]. apply Hirr, list_elem_of_here.
  - intros j t Hj. lia.
  - exists nd, (argmax_from 0 x 1 l), s. by split_and!.
Qed.

(** ** [get_policy_vector] and the bound of 218 moves *)

(** X6: On a node whose game has more than [MAX_MOVES] legal moves
    [get_policy_vector] never completes; on such a node without children,
    when the policy output covers the legal moves, the exception is the
    one raised by [tf.zeros] on the negative length. *)
Theorem get_policy_vector_too_many_moves self h nd :
  h !! self = Some nd →
  MAX_MOVES < Z.of_nat (length (legal_moves (game nd))) →
  (∀ u h', get_policy_vector self h ≠ Ok (u, h')) ∧
  (child_nodes nd = [] →
   (length (legal_moves (game nd)) ≤ length (POLICY_NETWORK (bitboard nd)))%nat →
   get_policy_vector self h = Err InvalidArgumentError).
Proof.
  intros Hself Hmany. split.
  - intros u h' Hrun.
    apply get_policy_vector_inv in Hrun
      as (nd0 & nd1 & info & s & scores & zs & Hself0 & Hself1 & _ & _ & _ & Hzs & _).
    simplify_eq. apply tf_zeros_Ok in Hzs as [Hzs _].
    apply (after_expansion_self _ _ _ _ Hself) in Hself1.
    assert (game nd1 = game nd) as Hg.
    { rewrite Hself1. by destruct (decide _). }
    rewrite Hg in Hzs. lia.
  - intros Hnil HK. pose proof (lookup_lt_Some _ _ _ Hself) as Hlt.
    set (moves := legal_moves (game nd)) in *.
    set (nd1 := add_children (seq (length h) (length moves))
                  ((λ mv, board (game (born self (game nd) mv))) <$> moves) nd).
    set (h1 := expanded self (game nd) moves nd h).
    assert (h1 !! self = Some nd1) as Hself1 by by apply lookup_expanded_self.
    set (ps := (λ mv, (value_evaluation (born self (game nd) mv),
                       unvisited_score (number_of_visits nd))) <$> moves).
    assert (find_child_node_information self h1 = Ok ((ps.*1, ps.*2), h1)) as Hinfo.
    { unfold find_child_node_information. run (get_node_Ok _ _ _ Hself1).
      apply find_child_node_information_loop_run. unfold nd1. simpl. rewrite Hnil. simpl.
      apply Forall2_same_length_lookup_2.
      { unfold ps. by rewrite length_seq, length_fmap. }
      intros i c p [-> Hi]%lookup_seq Hp. unfold ps in Hp.
      rewrite list_lookup_fmap in Hp.
      destruct (moves !! i) as [mv|] eqn:Hmv; [|done].
      simpl in Hp. injection Hp as <-. simpl.
      assert (h1 !! (length h + i)%nat = Some (born self (game nd) mv)) as Hc.
      { unfold h1. by rewrite lookup_expanded_new, Hmv. }
      exists (born self (game nd) mv). split_and!; [done..|].
      by rewrite (get_ucb1_score_unvisited h1 _ (born self (game nd) mv) self nd1). }
    unfold get_policy_vector. run (get_node_Ok _ _ _ Hself).
    assert ((if decide (length (child_nodes nd) = 0%nat)
             then init_all_children self else ret tt) h = Ok (tt, h1)) as Hexp.
    { rewrite decide_True by by rewrite Hnil. by apply init_all_children_spec. }
    run Hexp. run Hinfo. run (get_node_Ok _ _ _ Hself1). simpl.
    rewrite tf_add_same_length by (unfold ps; by rewrite !length_fmap).
    run (lift_Ok (zip_with f_add ps.*1 ps.*2) h1).
    rewrite tf_add_same_length.
    2:{ rewrite length_zip_with, !length_fmap, length_take.
        unfold tf_divide. rewrite length_fmap. fold moves. unfold ps.
        rewrite length_fmap. lia. }
    erewrite (bind_Ok _ _ _ _ _ (lift_Ok _ h1)). cbv beta.
    run (update_node_Ok self _ h1 nd1 Hself1).
    apply bind_Err. unfold tf_zeros. fold moves. by rewrite decide_True by lia.
Qed.

(** ** [random_game_simulation] *)

Lemma random_choice_Ok draw l :
  l ≠ [] → ∃ mv, random_choice draw l = Ok mv ∧ mv ∈ l.
Proof.
  intros Hne. unfold random_choice.
  assert (draw mod length l < length l)%nat as Hlt.
  { apply Nat.mod_upper_bound. by destruct l. }
  destruct (lookup_lt_is_Some_2 l _ Hlt) as [mv Hmv].
  exists mv. rewrite Hmv. split; [done|]. by eapply list_elem_of_lookup_2.
Qed.

Lemma simulate_playout fuel draws :
  ∀ k g g', simulate fuel draws k g = Ok g' →
    ∃ ms, playout g ms g' ∧ (length ms ≤ fuel)%nat ∧
          (legal_moves g' = [] ∨ stalemate g' = true).
Proof.
  induction fuel as [|fuel IH]; intros k g g' Hrun; simpl in Hrun.
  - destruct (decide (0 < length (legal_moves g))%nat) as [Hpos|Hnil].
    + destruct (stalemate g) eqn:Hst; [|done]. simpl in Hrun. injection Hrun as <-.
      exists []. split_and!; [constructor|done|by right].
    + injection Hrun as <-. exists []. split_and!; [constructor|done|].
      left. apply nil_length_inv. lia.
  - destruct (decide (0 < length (legal_moves g))%nat) as [Hpos|Hnil].
    + destruct (stalemate g) eqn:Hst; simpl in Hrun.
      { injection Hrun as <-. exists []. split_and!; [constructor|simpl; lia|by right]. }
      assert (legal_moves g ≠ []) as Hne by (intros Hnil; rewrite Hnil in Hpos; simpl in Hpos; lia).
      destruct (random_choice_Ok (draws k) _ Hne) as (mv & Hmv & Hin).
      rewrite Hmv in Hrun. apply IH in Hrun as (ms & Hplay & Hlen & Hend).
      exists (mv :: ms). split_and!; [by constructor|simpl; lia|done].
    + injection Hrun as <-. exists []. split_and!; [constructor|simpl; lia|].
      left. apply nil_length_inv. lia.
Qed.

Lemma simulate_Err fuel draws :
  ∀ k g e, simulate fuel draws k g = Err e → e = OutOfFuel.
Proof.
  induction fuel as [|fuel IH]; intros k g e Hrun; simpl in Hrun.
  - destruct (decide _); [|done]. destruct (stalemate g); simpl in Hrun; congruence.
  - destruct (decide (0 < length (legal_moves g))%nat) as [Hpos|Hnil]; [|done].
    destruct (stalemate g); simpl in Hrun; [done|].
    assert (legal_moves g ≠ []) as Hne by (intros Hnil; rewrite Hnil in Hpos; simpl in Hpos; lia).
    destruct (random_choice_Ok (draws k) _ Hne) as (mv & Hmv & Hin).
    rewrite Hmv in Hrun. by eapply IH.
Qed.

(** X7: [random_game_simulation] leaves the tree as it is (it plays on a
    copy).  When it returns, the value is [white_win] of the game reached,
    after [check_for_checkmate], by a sequence of moves each legal where it
    is played, with [look_for_draws] after each one, that stops at the
    first game with no legal move or flagged as over; the node's own game
    is that game when it is already over.  [random.choice] is never called
    on an empty list: on an existing node the only way not to return is a
    game that does not end. *)
Theorem random_game_simulation_playout fuel draws self h nd :
  h !! self = Some nd →
  (∀ w h', random_game_simulation fuel draws self h = Ok (w, h') →
     h' = h ∧
     ∃ ms g', playout (game nd) ms g' ∧ (length ms ≤ fuel)%nat ∧
       (legal_moves g' = [] ∨ stalemate g' = true) ∧
       w = white_win (check_for_checkmate g')) ∧
  (legal_moves (game nd) = [] ∨ stalemate (game nd) = true →
     random_game_simulation fuel draws self h =
       Ok (white_win (check_for_checkmate (game nd)), h)) ∧
  (∀ e, random_game_simulation fuel draws self h = Err e → e = OutOfFuel).
Proof.
  intros Hself. unfold random_game_simulation. run (get_node_Ok _ _ _ Hself).
  split_and!.
  - intros w h' Hrun.
    apply bind_Ok_inv in Hrun as (g' & h1 & [Hsim ->]%lift_inv & Hrun).
    apply ret_inv in Hrun as [-> ->]. split; [done|].
    apply simulate_playout in Hsim as (ms & Hplay & Hlen & Hend).
    by exists ms, g'.
  - intros Hover.
    assert (simulate fuel draws 0 (game nd) = Ok (game nd)) as Hsim.
    { destruct fuel; simpl; destruct Hover as [Hnil|Hst].
      - by rewrite Hnil.
      - rewrite Hst. simpl. by destruct (decide _).
      - by rewrite Hnil.
      - rewrite Hst. simpl. by destruct (decide _). }
    rewrite Hsim. by run (lift_Ok (game nd) h).
  - intros e Hrun. destruct (simulate fuel draws 0 (game nd)) as [g'|e'] eqn:Hsim.
    + by rewrite (bind_Ok _ _ _ _ _ (lift_Ok g' h)) in Hrun.
    + apply simulate_Err in Hsim as ->. unfold bind, lift in Hrun. congruence.
Qed.

(** ** Search trees *)

Lemma in_tree_mono ρ (h h' : heap) r :
  (∀ x nd, h !! x = Some nd →
     ∃ nd', h' !! x = Some nd' ∧ ∀ c, c ∈ child_nodes nd → c ∈ child_nodes nd') →
  in_tree ρ h r → in_tree ρ h' r.
Proof.
  intros Hsame. induction 1 as [|r nd c _ IH Hr Hc]; [constructor|].
  destruct (Hsame r nd Hr) as (nd' & Hr' & Hsub).
  eapply in_tree_child; [exact IH|exact Hr'|by apply Hsub].
Qed.

Lemma in_tree_lookup ρ h r : tree_wf ρ h → in_tree ρ h r → is_Some (h !! r).
Proof.
  intros [(rn & Hρ & _) Hwf] Hin. destruct Hin as [|r nd c Hin Hr Hc]; [by eexists|].
  destruct (Hwf r nd Hin Hr) as (_ & _ & _ & _ & Hch & _).
  rewrite Forall_forall in Hch. destruct (Hch c Hc) as (_ & cn & Hcn & _). by eexists.
Qed.

Lemma in_tree_ge ρ h r : tree_wf ρ h → in_tree ρ h r → (ρ ≤ r)%nat.
Proof.
  intros [_ Hwf]. induction 1 as [|r nd c Hin IH Hr Hc]; [done|].
  destruct (Hwf r nd Hin Hr) as (_ & _ & _ & _ & Hch & _).
  rewrite Forall_forall in Hch. destruct (Hch c Hc) as (Hlt & _). lia.
Qed.

Lemma in_tree_parent ρ h c :
  tree_wf ρ h → in_tree ρ h c → c ≠ ρ →
  ∃ cn p pn, h !! c = Some cn ∧ parent_node cn = Some p ∧ in_tree ρ h p ∧
             h !! p = Some pn ∧ c ∈ child_nodes pn ∧ (p < c)%nat.
Proof.
  intros [_ Hwf] Hin Hne. destruct Hin as [|r nd c Hin Hr Hc]; [done|].
  destruct (Hwf r nd Hin Hr) as (_ & _ & _ & _ & Hch & _).
  rewrite Forall_forall in Hch. destruct (Hch c Hc) as (Hlt & cn & Hcn & Hp).
  by exists cn, r, nd.
Qed.

Lemma parent_chain_closed h l x xn p :
  parent_chain h l → x ∈ l → h !! x = Some xn → parent_node xn = Some p → p ∈ l.
Proof.
  induction l as [|r l IH]; [done|].
  intros (nd & Hr & Hrest) Hx Hxn Hp. apply elem_of_cons in Hx as [->|Hx].
  - simplify_eq. destruct l as [|p' l]; [congruence|]. destruct Hrest as [Hp' _].
    rewrite Hp in Hp'. injection Hp' as ->.
    apply list_elem_of_further, list_elem_of_here.
  - apply list_elem_of_further. destruct l as [|p' l]; [by apply elem_of_nil in Hx|].
    destruct Hrest as [_ Hrest]. by apply IH.
Qed.

(** The ancestors of a node of the tree, as [back_propagate] follows
    them, are nodes of the tree and end with the root. *)
Lemma in_tree_chain ρ h e :
  tree_wf ρ h → in_tree ρ h e →
  ∃ l, parent_chain h (e :: l) ∧ ρ ∈ e :: l ∧ ∀ x, x ∈ e :: l → in_tree ρ h x.
Proof.
  intros Hwf. pose proof Hwf as [(rn & Hρ & Hnone) Hnode].
  induction 1 as [|r nd c Hin (l & Hchain & Hroot & Hall) Hr Hc].
  - exists []. split_and!.
    + by exists rn.
    + apply list_elem_of_here.
    + intros x ->%list_elem_of_singleton. constructor.
  - destruct (Hnode r nd Hin Hr) as (_ & _ & _ & _ & Hch & _).
    rewrite Forall_forall in Hch. destruct (Hch c Hc) as (_ & cn & Hcn & Hp).
    exists (r :: l). split_and!.
    + exists cn. by split.
    + by apply list_elem_of_further.
    + intros x [->|Hx]%elem_of_cons; [by eapply in_tree_child|by apply Hall].
Qed.

Lemma children_played_transfer (h h' : heap) nd nd' :
  child_nodes nd' = child_nodes nd → game nd' = game nd →
  (∀ x xn, h !! x = Some xn →
     ∃ xn', h' !! x = Some xn' ∧ move xn' = move xn ∧ game xn' = game xn) →
  children_played h nd → children_played h' nd'.
Proof.
  intros Hc Hg Hkeep Hplayed. unfold children_played. rewrite Hc, Hg.
  eapply Forall2_impl; [exact Hplayed|]. intros c mv (cn & Hcn & Hmv & Hgc).
  destruct (Hkeep c cn Hcn) as (cn' & Hcn' & Hmv' & Hgc'). exists cn'.
  split_and!; [done|congruence..].
Qed.

Lemma node_wf_transfer (h h' : heap) r nd :
  (∀ x xn, h !! x = Some xn →
     ∃ xn', h' !! x = Some xn' ∧ parent_node xn' = parent_node xn ∧
            number_of_visits xn ≤ number_of_visits xn' ∧
            move xn' = move xn ∧ game xn' = game xn) →
  node_wf h r nd → node_wf h' r nd.
Proof.
  intros Hold (Hcnt & Hflag & Hpar & Hpol & Hch & Hplayed).
  refine (conj Hcnt (conj Hflag (conj _ (conj Hpol (conj _ _))))).
  - intros p Hp. destruct (Hpar p Hp) as (pn & Hpn & Hle).
    destruct (Hold p pn Hpn) as (pn' & Hpn' & _ & Hle' & _). exists pn'.
    split; [done|lia].
  - eapply Forall_impl; [exact Hch|]. intros c (Hlt & cn & Hcn & Hp). split; [done|].
    destruct (Hold c cn Hcn) as (cn' & Hcn' & Hp' & _). exists cn'. by rewrite Hp'.
  - destruct Hplayed as [Hnil|Hplayed]; [by left|right].
    eapply children_played_transfer; [done..| |exact Hplayed].
    intros x xn Hx. destruct (Hold x xn Hx) as (xn' & Hx' & _ & _ & Hm & Hg).
    by exists xn'.
Qed.

(** ** [get_ucb1_score] in a search tree *)

Lemma get_ucb1_score_safe h c cn p pn C :
  h !! c = Some cn → parent_node cn = Some p → h !! p = Some pn →
  0 ≤ number_of_visits cn ≤ number_of_visits pn →
  ∃ u, get_ucb1_score c C h = Ok (u, h).
Proof.
  intros Hc Hp Hpn Hn. rewrite get_ucb1_score_value, Hc.
  unfold parent_visits. rewrite Hp, Hpn. unfold ucb1_value.
  destruct (decide (number_of_visits cn = 0)) as [Hz|Hnz].
  - destruct (decide (0 < number_of_visits pn)); [|by eexists].
    unfold f_zero. rewrite f_log_sign by lia. by eexists.
  - rewrite decide_False by lia. unfold f_zero.
    rewrite f_log_div_sign by lia. by eexists.
Qed.

Lemma get_ucb1_score_child ρ h c C :
  tree_wf ρ h → in_tree ρ h c → c ≠ ρ → ∃ u, get_ucb1_score c C h = Ok (u, h).
Proof.
  intros Hwf Hin Hne.
  destruct (in_tree_parent _ _ _ Hwf Hin Hne) as (cn & p & pn & Hc & Hp & _ & Hpn & _).
  destruct Hwf as [_ Hnode].
  destruct (Hnode c cn Hin Hc) as (Hcnt & _ & Hpar & _).
  destruct (Hpar p Hp) as (pn' & Hpn' & Hle). simplify_eq.
  eapply get_ucb1_score_safe; [done..|lia].
Qed.

(** C4: on every node of a search tree that has a parent, with [w], [n]
    the node's win and visit counts, [N] the parent's visit count and the
    default constant [C = sqrt 2]: the node has no more visits than its
    parent, so when [n > 0] the score is [w/n + C * sqrt (ln N / n)]; when
    [n = 0] the division by zero is caught and the score is
    [C * sqrt (ln N)] if [N > 0] and exactly [0] if [N = 0]; no exception,
    [ZeroDivisionError] or other, leaves the call. *)
Theorem get_ucb1_score_cases ρ h c cn p pn :
  tree_wf ρ h → in_tree ρ h c →
  h !! c = Some cn → parent_node cn = Some p → h !! p = Some pn →
  let w := wins cn in
  let n := number_of_visits cn in
  let N := number_of_visits pn in
  let C := default_exploration_constant in
  C = f_sqrt (f_of_int 2) ∧
  0 ≤ n ≤ N ∧
  (0 < n →
   get_ucb1_score c C h =
     Ok (f_add (int_true_div w n)
               (f_mul C (f_sqrt (f_div (f_log_int N) (f_of_int n)))), h)) ∧
  (n = 0 → 0 < N →
   get_ucb1_score c C h = Ok (f_mul C (f_sqrt (f_log_int N)), h)) ∧
  (n = 0 → N = 0 → get_ucb1_score c C h = Ok (f_of_int 0, h)) ∧
  (∀ e, get_ucb1_score c C h ≠ Err e).
Proof.
  intros [_ Hnode] Hin Hc Hp Hpn w n N C.
  destruct (Hnode c cn Hin Hc) as (Hcnt & _ & Hpar & _).
  destruct (Hpar p Hp) as (pn' & Hpn' & Hle). simplify_eq.
  assert (0 ≤ n ≤ N) as Hn by (subst n N; lia).
  assert (0 < n →
          get_ucb1_score c C h =
            Ok (f_add (int_true_div w n)
                  (f_mul C (f_sqrt (f_div (f_log_int N) (f_of_int n)))), h)) as Hvis.
  { intros Hpos. apply (get_ucb1_score_visited h c cn p pn); [done..|subst n N; lia]. }
  assert (n = 0 → 0 < N →
          get_ucb1_score c C h = Ok (f_mul C (f_sqrt (f_log_int N)), h)) as Hzero.
  { intros Hz HN. rewrite (get_ucb1_score_unvisited h c cn p pn) by done.
    by rewrite decide_True. }
  assert (n = 0 → N = 0 → get_ucb1_score c C h = Ok (f_of_int 0, h)) as Hnone.
  { intros Hz HN. rewrite (get_ucb1_score_unvisited h c cn p pn) by done.
    rewrite decide_False; [done|]. subst N. lia. }
  refine (conj eq_refl (conj Hn (conj Hvis (conj Hzero (conj Hnone _))))).
  intros e. destruct (decide (0 < n)) as [Hpos|Hnpos].
  - by rewrite (Hvis Hpos).
  - destruct (decide (0 < N)) as [HN|HN].
    + rewrite Hzero; [done|lia|done].
    + rewrite Hnone; [done|lia..].
Qed.

(** X8: In a search tree [get_ucb1_score] never raises on a node other than
    the root, whatever the exploration constant: the node's visits never
    exceed its parent's, so the logarithm and the square root are defined.
    On the root, which has no parent, it raises [AttributeError]. *)
Theorem get_ucb1_score_in_tree ρ h c C :
  tree_wf ρ h → in_tree ρ h c →
  if decide (c = ρ) then get_ucb1_score c C h = Err AttributeError
  else ∃ u, get_ucb1_score c C h = Ok (u, h).
Proof.
  intros Hwf Hin. destruct (decide (c = ρ)) as [->|Hne].
  - destruct Hwf as [(rn & Hρ & Hnone) _].
    rewrite get_ucb1_score_value, Hρ. unfold parent_visits. by rewrite Hnone.
  - by eapply get_ucb1_score_child.
Qed.

(** ** [get_policy_vector] in a search tree *)

Lemma tree_wf_with_policy ρ h s nd scores zs :
  tree_wf ρ h → in_tree ρ h s → h !! s = Some nd →
  length scores = length (legal_moves (game nd)) →
  length (child_nodes nd) = length (legal_moves (game nd)) →
  tree_wf ρ (<[s := with_policy scores zs nd]> h) ∧
  search_frame ρ h (<[s := with_policy scores zs nd]> h).
Proof.
  intros Hwf Hins Hs Hlen Hch. pose proof (lookup_lt_Some _ _ _ Hs) as Hlt.
  set (h' := <[s := with_policy scores zs nd]> h).
  assert (∀ x xn, h !! x = Some xn → ∃ xn', h' !! x = Some xn' ∧
            parent_node xn' = parent_node xn ∧
            number_of_visits xn ≤ number_of_visits xn' ∧
            move xn' = move xn ∧ game xn' = game xn) as Hold.
  { intros x xn Hx. destruct (decide (x = s)) as [->|Hne].
    - exists (with_policy scores zs nd). unfold h'.
      rewrite list_lookup_insert_eq by done. simplify_eq.
      split_and!; [done..|simpl; lia|done|done].
    - exists xn. unfold h'. rewrite list_lookup_insert_ne by done.
      split_and!; [done..|lia|done|done]. }
  assert (∀ x xn', h' !! x = Some xn' →
            ∃ xn, h !! x = Some xn ∧ child_nodes xn = child_nodes xn' ∧
                  (x ≠ s → xn' = xn)) as Hback.
  { intros x xn' Hx. unfold h' in Hx. destruct (decide (x = s)) as [->|Hne].
    - rewrite list_lookup_insert_eq in Hx by done. injection Hx as <-.
      exists nd. by split_and!.
    - rewrite list_lookup_insert_ne in Hx by done. exists xn'. by split_and!. }
  assert (∀ r, in_tree ρ h' r → in_tree ρ h r) as Hmem.
  { intros r. apply in_tree_mono. intros x xn' Hx.
    destruct (Hback x xn' Hx) as (xn & Hxn & Hc & _).
    exists xn. split; [done|]. intros c. by rewrite Hc. }
  split.
  - split.
    + destruct Hwf as [(rn & Hρ & Hnone) _].
      destruct (Hold ρ rn Hρ) as (rn' & Hρ' & Hp & _). exists rn'. by rewrite Hp.
    + intros r x' Hin Hx'. apply Hmem in Hin.
      destruct (Hback r x' Hx') as (x & Hx & _ & Hsame).
      destruct Hwf as [_ Hnode]. specialize (Hnode r x Hin Hx).
      apply (node_wf_transfer h h' _ _ Hold).
      destruct (decide (r = s)) as [->|Hne]; [|by rewrite (Hsame Hne)].
      simplify_eq.
      assert (x' = with_policy scores zs nd) as ->.
      { unfold h' in Hx'. rewrite list_lookup_insert_eq in Hx' by done.
        by injection Hx'. }
      destruct Hnode as (Hcnt & Hflag & Hpar & _ & Hchildren).
      by refine (conj Hcnt (conj Hflag (conj Hpar (conj _ Hchildren)))).
  - split_and!.
    + unfold h'. by rewrite length_insert.
    + intros r. apply in_tree_mono. intros x xn Hx. unfold h'.
      destruct (decide (x = s)) as [->|Hne].
      * rewrite list_lookup_insert_eq by done. simplify_eq.
        by exists (with_policy scores zs nd).
      * rewrite list_lookup_insert_ne by done. by exists xn.
    + intros r Hin _. by apply Hmem.
    + intros r x Hx Hnin. unfold h'. rewrite list_lookup_insert_ne; [done|].
      by intros <-.
Qed.

Lemma tree_wf_expanded ρ h s nd scores zs :
  tree_wf ρ h → in_tree ρ h s → h !! s = Some nd → child_nodes nd = [] →
  length scores = length (legal_moves (game nd)) →
  let h' :=
    <[s := with_policy scores zs
             (add_children (seq (length h) (length (legal_moves (game nd))))
                ((λ mv, board (game (born s (game nd) mv)))
                   <$> legal_moves (game nd)) nd)]>
      (expanded s (game nd) (legal_moves (game nd)) nd h) in
  tree_wf ρ h' ∧ search_frame ρ h h'.
Proof.
  intros Hwf Hins Hs Hnil Hlen h'. pose proof (lookup_lt_Some _ _ _ Hs) as Hlt.
  set (moves := legal_moves (game nd)) in *.
  set (X := with_policy scores zs
              (add_children (seq (length h) (length moves))
                 ((λ mv, board (game (born s (game nd) mv))) <$> moves) nd)) in *.
  assert (h' !! s = Some X) as HsX.
  { unfold h'. apply list_lookup_insert_eq. rewrite length_expanded. lia. }
  assert (∀ r, r ≠ s → (r < length h)%nat → h' !! r = h !! r) as Hother.
  { intros r Hne Hr. unfold h'. rewrite list_lookup_insert_ne by done.
    by apply lookup_expanded_old. }
  assert (∀ i, h' !! (length h + i)%nat = born s (game nd) <$> moves !! i) as Hnew.
  { intros i. unfold h'. rewrite list_lookup_insert_ne by lia.
    by apply lookup_expanded_new. }
  assert (length h' = (length h + length moves)%nat) as Hlen'.
  { unfold h'. by rewrite length_insert, length_expanded. }
  assert (∀ x xn, h !! x = Some xn → ∃ xn', h' !! x = Some xn' ∧
            parent_node xn' = parent_node xn ∧
            number_of_visits xn ≤ number_of_visits xn' ∧
            move xn' = move xn ∧ game xn' = game xn) as Hold.
  { intros x xn Hx. destruct (decide (x = s)) as [->|Hne].
    - exists X. simplify_eq. split_and!; [done..|simpl; lia|done|done].
    - exists xn. rewrite Hother; [|done|by eapply lookup_lt_Some].
      split_and!; [done..|lia|done|done]. }
  assert (∀ r, in_tree ρ h' r →
            (r < length h)%nat ∧ in_tree ρ h r ∨ (length h ≤ r)%nat) as Hmem.
  { induction 1 as [|r0 nd0 c _ IH Hr0 Hc].
    - left. split; [|constructor].
      destruct Hwf as [(rn & Hρ & _) _]. by eapply lookup_lt_Some.
    - destruct IH as [[Hr0lt Hr0in]|Hge].
      + destruct (decide (r0 = s)) as [->|Hne].
        * rewrite HsX in Hr0. injection Hr0 as <-. simpl in Hc.
          rewrite Hnil in Hc. simpl in Hc. apply elem_of_seq in Hc. right. lia.
        * rewrite Hother in Hr0 by done. left.
          assert (in_tree ρ h c) as Hcin by by eapply in_tree_child.
          split; [|done].
          destruct (in_tree_lookup _ _ _ Hwf Hcin) as [? Hcl].
          by eapply lookup_lt_Some.
      + replace r0 with (length h + (r0 - length h))%nat in Hr0 by lia.
        rewrite Hnew in Hr0. destruct (moves !! _); [|done].
        injection Hr0 as <-. simpl in Hc. by apply elem_of_nil in Hc. }
  split.
  - split.
    + destruct Hwf as [(rn & Hρ & Hnone) _].
      destruct (Hold ρ rn Hρ) as (rn' & Hρ' & Hp & _). exists rn'. by rewrite Hp.
    + intros r x' Hin Hx'. destruct (Hmem r Hin) as [[Hrlt Hrin]|Hge].
      * destruct (decide (r = s)) as [->|Hne].
        -- rewrite HsX in Hx'. injection Hx' as <-.
           destruct Hwf as [_ Hnode].
           destruct (Hnode s nd Hrin Hs) as (Hcnt & Hflag & Hpar & _ & _).
           refine (conj Hcnt (conj Hflag (conj _ (conj _ (conj _ _))))).
           ++ intros p Hp. destruct (Hpar p Hp) as (pn & Hpn & Hle).
              destruct (Hold p pn Hpn) as (pn' & Hpn' & _ & Hle' & _).
              exists pn'. split; [done|]. simpl. lia.
           ++ simpl. rewrite Hnil. simpl. by rewrite length_seq.
           ++ simpl. rewrite Hnil. simpl. apply Forall_forall. intros c Hc.
              apply elem_of_seq in Hc. split; [lia|].
              replace c with (length h + (c - length h))%nat by lia. rewrite Hnew.
              destruct (lookup_lt_is_Some_2 moves (c - length h)%nat ltac:(lia))
                as [mv Hmv].
              rewrite Hmv. by eexists.
           ++ right. unfold children_played. simpl. rewrite Hnil. simpl.
              apply Forall2_same_length_lookup_2; [by rewrite length_seq|].
              intros i c mv [-> Hi]%lookup_seq Hmv. rewrite Hnew.
              fold moves in Hmv. rewrite Hmv. by eexists.
        -- rewrite Hother in Hx' by done. destruct Hwf as [_ Hnode].
           apply (node_wf_transfer h h' _ _ Hold). by apply Hnode.
      * replace r with (length h + (r - length h))%nat in Hx' by lia.
        rewrite Hnew in Hx'. destruct (moves !! _) as [mv|]; [|done].
        injection Hx' as <-. destruct Hwf as [_ Hnode].
        destruct (Hnode s nd Hins Hs) as (Hcnt & _).
        split; [simpl; lia|]. split; [apply new_node_flag|]. split.
        { intros p [= <-]. exists X. split; [done|]. simpl. lia. }
        split; [done|]. split; [simpl; constructor|by left].
  - split_and!.
    + lia.
    + intros r. apply in_tree_mono. intros x xn Hx.
      destruct (decide (x = s)) as [->|Hne].
      * exists X. split; [done|]. simplify_eq. rewrite Hnil.
        intros c Hc. by apply elem_of_nil in Hc.
      * exists xn. rewrite Hother; [done..|by eapply lookup_lt_Some].
    + intros r Hin Hr. destruct (Hmem r Hin) as [[_ ?]|?]; [done|lia].
    + intros r x Hx Hnin. rewrite Hother; [done| |by eapply lookup_lt_Some].
      by intros ->.
Qed.

Lemma Forall_exists_Forall2 {A B} (R : A → B → Prop) (l : list A) :
  Forall (λ x, ∃ y, R x y) l → ∃ k, Forall2 R l k.
Proof.
  induction 1 as [|x l [y Hy] _ [k Hk]]; [by exists []|].
  exists (y :: k). by constructor.
Qed.

Lemma policy_vector_tree_run ρ h s nd :
  engine_bounded → tree_wf ρ h → in_tree ρ h s → h !! s = Some nd →
  ∃ h' nd',
    get_policy_vector s h = Ok (tt, h') ∧ tree_wf ρ h' ∧ search_frame ρ h h' ∧
    h' !! s = Some nd' ∧
    length h' = (length h + (if decide (child_nodes nd = [])
                             then length (legal_moves (game nd)) else 0))%nat ∧
    (∀ r, r ≠ s → (r < length h)%nat → h' !! r = h !! r) ∧
    is_Some (policy_vector_legal_moves nd') ∧
    number_of_visits nd' = number_of_visits nd ∧ wins nd' = wins nd ∧
    terminal_game_state nd' = terminal_game_state nd ∧ game nd' = game nd ∧
    parent_node nd' = parent_node nd ∧
    (child_nodes nd = [] →
       policy_vector_legal_moves nd' = Some (first_scores nd) ∧
       child_nodes nd' = seq (length h) (length (legal_moves (game nd))) ∧
       ∀ c, c ∈ child_nodes nd' → ∃ cn, h' !! c = Some cn ∧ number_of_visits cn = 0) ∧
    (child_nodes nd ≠ [] → child_nodes nd' = child_nodes nd).
Proof.
  intros [Hmoves Hpol] Hwf Hins Hs. pose proof (lookup_lt_Some _ _ _ Hs) as Hlt.
  assert (length (legal_moves (game nd)) ≤ length (POLICY_NETWORK (bitboard nd)))%nat
    as HK.
  { specialize (Hmoves (game nd)). specialize (Hpol (bitboard nd)). lia. }
  destruct (decide (child_nodes nd = [])) as [Hnil|Hne].
  - pose proof (get_policy_vector_fresh s h nd Hs Hnil (Hmoves _) HK) as Hrun.
    pose proof (tree_wf_expanded ρ h s nd (first_scores nd)
                  (replicate (Z.to_nat (MAX_MOVES -
                     Z.of_nat (length (legal_moves (game nd))))) f_zero)
                  Hwf Hins Hs Hnil (length_first_scores nd HK)) as [Hwf' Hframe].
    eexists _, _. split; [exact Hrun|]. split; [exact Hwf'|]. split; [exact Hframe|].
    split; [apply list_lookup_insert_eq; rewrite length_expanded; lia|].
    split; [by rewrite length_insert, length_expanded|].
    split.
    { intros r Hr Hrlt. rewrite list_lookup_insert_ne by done.
      by apply lookup_expanded_old. }
    simpl. split_and!; try done.
    + intros _. rewrite Hnil. simpl. split; [done|]. split; [done|]. intros c Hc.
      apply elem_of_seq in Hc.
      replace c with (length h + (c - length h))%nat by lia.
      rewrite list_lookup_insert_ne by lia. rewrite lookup_expanded_new by done.
      destruct (lookup_lt_is_Some_2 (legal_moves (game nd)) (c - length h)%nat
                  ltac:(lia)) as [mv Hmv].
      rewrite Hmv. by eexists.
  - pose proof Hwf as [_ Hnode].
    destruct (Hnode s nd Hins Hs) as (Hcnt & _ & _ & Hpvlm & Hchildren & _).
    destruct (policy_vector_legal_moves nd) as [old|] eqn:Hold; [|done].
    destruct Hpvlm as [_ Hnch].
    assert (after_expansion s nd h = h) as Hexp.
    { unfold after_expansion. rewrite decide_False; [done|].
      by destruct (child_nodes nd). }
    assert (∃ ps, Forall2 (λ c p, ∃ cn, h !! c = Some cn ∧ p.1 = value_evaluation cn ∧
               get_ucb1_score c default_exploration_constant h = Ok (p.2, h))
              (child_nodes nd) ps) as [ps Hps].
    { apply Forall_exists_Forall2. apply Forall_forall. intros c Hc.
      rewrite Forall_forall in Hchildren.
      destruct (Hchildren c Hc) as (_ & cn & Hcn & Hp).
      assert (in_tree ρ h c) as Hcin by by eapply in_tree_child.
      destruct (Hnode c cn Hcin Hcn) as (Hccnt & _ & Hcpar & _).
      destruct (Hcpar s Hp) as (pn & Hpn & Hle). simplify_eq.
      destruct (get_ucb1_score_safe h c cn s nd default_exploration_constant
                  Hcn Hp Hs ltac:(lia)) as [u Hu].
      exists (value_evaluation cn, u), cn. by split_and!. }
    pose proof (Forall2_length _ _ _ Hps) as Hpslen.
    set (s0 := zip_with f_add ps.*1 ps.*2).
    set (scores := zip_with f_add s0
                     (take (length (legal_moves (game nd))) (normalized_policy nd))).
    assert (length s0 = length (legal_moves (game nd))) as Hs0.
    { unfold s0. rewrite length_zip_with, !length_fmap. lia. }
    assert (length scores = length (legal_moves (game nd))) as Hscores.
    { unfold scores. rewrite length_zip_with, length_take.
      unfold normalized_policy, tf_divide. rewrite length_fmap. lia. }
    pose proof (get_policy_vector_run s h nd nd (ps.*1, ps.*2) s0 scores
                  (replicate (Z.to_nat (MAX_MOVES -
                     Z.of_nat (length (legal_moves (game nd))))) f_zero) Hs) as Hrun.
    rewrite Hexp in Hrun.
    specialize (Hrun Hs (find_child_node_information_loop_run _ _ _ Hps)).
    destruct (tree_wf_with_policy ρ h s nd scores
                (replicate (Z.to_nat (MAX_MOVES -
                   Z.of_nat (length (legal_moves (game nd))))) f_zero)
                Hwf Hins Hs Hscores Hnch) as [Hwf' Hframe].
    eexists _, _. split.
    { apply Hrun.
      - apply tf_add_same_length. simpl. by rewrite !length_fmap.
      - apply tf_add_same_length. rewrite Hs0, length_take.
        unfold normalized_policy, tf_divide. rewrite length_fmap. lia.
      - unfold tf_zeros. rewrite decide_False; [done|]. specialize (Hmoves (game nd)). lia. }
    split; [exact Hwf'|]. split; [exact Hframe|].
    split; [by apply list_lookup_insert_eq|].
    split; [rewrite length_insert; lia|].
    split; [intros r Hr _; by rewrite list_lookup_insert_ne|].
    simpl. by split_and!.
Qed.

(** X9: In a search tree, when the engine offers at most [MAX_MOVES] legal
    moves and the policy network returns at least [MAX_MOVES] scores,
    [get_policy_vector] never raises on a node of the tree, whether it has
    children or not, and leaves a search tree; called on a node that has
    its children it creates no object. *)
Theorem get_policy_vector_in_tree ρ h s :
  engine_bounded → tree_wf ρ h → in_tree ρ h s →
  ∃ nd h' nd',
    h !! s = Some nd ∧ get_policy_vector s h = Ok (tt, h') ∧
    tree_wf ρ h' ∧ h' !! s = Some nd' ∧
    is_Some (policy_vector_legal_moves nd') ∧
    length (child_nodes nd') = length (legal_moves (game nd)) ∧
    (child_nodes nd ≠ [] → length h' = length h ∧ child_nodes nd' = child_nodes nd) ∧
    (∀ r, r ≠ s → (r < length h)%nat → h' !! r = h !! r).
Proof.
  intros Hengine Hwf Hins.
  destruct (in_tree_lookup _ _ _ Hwf Hins) as [nd Hs].
  destruct (policy_vector_tree_run ρ h s nd Hengine Hwf Hins Hs)
    as (h' & nd' & Hrun & Hwf' & Hframe & Hs' & Hlen & Hother & Hsome & _ & _ & _ & Hg
        & _ & Hnil & Hne).
  exists nd, h', nd'. split_and!; try done.
  - destruct Hwf' as [_ Hnode'].
    assert (in_tree ρ h' s) as Hins' by by apply Hframe.
    destruct (Hnode' s nd' Hins' Hs') as (_ & _ & _ & Hp & _).
    destruct Hsome as [sc Hsc]. rewrite Hsc in Hp. rewrite <- Hg. tauto.
  - intros Hn. rewrite decide_False in Hlen by done. split; [lia|by apply Hne].
Qed.

(** ** [back_propagate] in a search tree *)

Lemma search_frame_refl ρ h : search_frame ρ h h.
Proof. by split_and!. Qed.

Lemma search_frame_trans ρ h1 h2 h3 :
  search_frame ρ h1 h2 → search_frame ρ h2 h3 → search_frame ρ h1 h3.
Proof.
  intros (Hl1 & Hf1 & Hb1 & Ho1) (Hl2 & Hf2 & Hb2 & Ho2). split_and!.
  - lia.
  - intros r Hr. by apply Hf2, Hf1.
  - intros r Hr Hlt. apply Hb1; [|done]. apply Hb2; [done|lia].
  - intros r x Hx Hnin. apply Ho2; [by apply Ho1|].
    intros Hin. apply Hnin, Hb1; [done|]. by eapply lookup_lt_Some.
Qed.

Lemma tree_wf_backup ρ (h h' : heap) l result turn :
  tree_wf ρ h → parent_chain h l → (∀ x, x ∈ l → in_tree ρ h x) →
  (∀ x, h' !! x =
     if decide (x ∈ l) then backed_up result turn <$> h !! x else h !! x) →
  tree_wf ρ h' ∧ search_frame ρ h h' ∧ length h' = length h.
Proof.
  intros Hwf Hchain Hall Hlook.
  assert (∀ x xn, h !! x = Some xn → ∃ xn', h' !! x = Some xn' ∧
            parent_node xn' = parent_node xn ∧
            number_of_visits xn ≤ number_of_visits xn' ∧
            child_nodes xn' = child_nodes xn) as Hold.
  { intros x xn Hx. rewrite Hlook, Hx. destruct (decide (x ∈ l)).
    - eexists. split; [done|]. simpl. split_and!; [done|lia|done].
    - exists xn. split_and!; [done..|lia|done]. }
  assert (∀ x xn', h' !! x = Some xn' →
            ∃ xn, h !! x = Some xn ∧ child_nodes xn = child_nodes xn' ∧
              ((x ∈ l) ∧ xn' = backed_up result turn xn ∨ (x ∉ l) ∧ xn' = xn)) as Hback.
  { intros x xn' Hx. rewrite Hlook in Hx. destruct (decide (x ∈ l)).
    - destruct (h !! x) as [xn|]; [|done]. injection Hx as <-.
      exists xn. split_and!; [done..|by left].
    - exists xn'. split_and!; [done..|by right]. }
  assert (length h' = length h) as Hlen.
  { apply Nat.le_antisymm.
    - destruct (le_lt_dec (length h') (length h)) as [|Hlt]; [done|].
      destruct (lookup_lt_is_Some_2 h' (length h) Hlt) as [y Hy].
      destruct (Hback _ _ Hy) as (xn & Hxn & _). apply lookup_lt_Some in Hxn. lia.
    - destruct (le_lt_dec (length h) (length h')) as [|Hlt]; [done|].
      destruct (lookup_lt_is_Some_2 h (length h') Hlt) as [y Hy].
      destruct (Hold _ _ Hy) as (xn & Hxn & _). apply lookup_lt_Some in Hxn. lia. }
  assert (∀ r, in_tree ρ h' r → in_tree ρ h r) as Hmem.
  { intros r. apply in_tree_mono. intros x xn' Hx.
    destruct (Hback x xn' Hx) as (xn & Hxn & Hc & _).
    exists xn. split; [done|]. intros c. by rewrite Hc. }
  assert (∀ x xn, h !! x = Some xn → ∃ xn', h' !! x = Some xn' ∧
            parent_node xn' = parent_node xn ∧
            number_of_visits xn ≤ number_of_visits xn' ∧
            move xn' = move xn ∧ game xn' = game xn) as Hold'.
  { intros x xn Hx. rewrite Hlook, Hx. destruct (decide (x ∈ l)).
    - eexists. split; [done|]. simpl. split_and!; [done|lia|done|done].
    - exists xn. split_and!; [done..|lia|done|done]. }
  split_and!; [split| |done].
  - destruct Hwf as [(rn & Hρ & Hnone) _].
    destruct (Hold ρ rn Hρ) as (rn' & Hρ' & Hp & _). exists rn'. by rewrite Hp.
  - intros r x' Hin Hx'. apply Hmem in Hin.
    destruct (Hback r x' Hx') as (x & Hx & _ & [[Hrl ->]|[Hrl ->]]).
    + destruct Hwf as [_ Hnode].
      destruct (Hnode r x Hin Hx) as (Hcnt & Hflag & Hpar & Hpol & Hch & Hplayed).
      split; [|split; [done|split; [|split; [done|split]]]].
      * simpl. destruct (win_credit_cases result turn x) as [-> | ->]; lia.
      * intros p Hp. simpl in Hp. destruct (Hpar p Hp) as (pn & Hpn & Hle).
        pose proof (parent_chain_closed _ _ _ _ _ Hchain Hrl Hx Hp) as Hpl.
        exists (backed_up result turn pn). split.
        -- by rewrite Hlook, decide_True, Hpn.
        -- simpl. lia.
      * simpl. eapply Forall_impl; [exact Hch|]. intros c (Hlt & cn & Hcn & Hp).
        split; [done|]. destruct (Hold c cn Hcn) as (cn' & Hcn' & Hp' & _).
        exists cn'. by rewrite Hp'.
      * destruct Hplayed as [Hnil|Hplayed]; [by left|right].
        eapply children_played_transfer; [done..| |exact Hplayed].
        intros y yn Hy. destruct (Hold' y yn Hy) as (yn' & Hy' & _ & _ & Hm & Hg).
        by exists yn'.
    + destruct Hwf as [_ Hnode]. apply (node_wf_transfer h h' _ _ Hold').
      by apply Hnode.
  - split_and!.
    + lia.
    + intros r. apply in_tree_mono. intros x xn Hx.
      destruct (Hold x xn Hx) as (xn' & Hx' & _ & _ & Hc). exists xn'.
      split; [done|]. intros c. by rewrite Hc.
    + intros r Hin _. by apply Hmem.
    + intros r x Hx Hnin. rewrite Hlook, decide_False; [done|].
      intros Hrl. by apply Hnin, Hall.
Qed.

Lemma backup_tree_run ρ h e fuel result turn :
  tree_wf ρ h → in_tree ρ h e → (length h ≤ fuel)%nat →
  ∃ h' l,
    back_propagate fuel (Some e) result turn h = Ok (tt, h') ∧
    tree_wf ρ h' ∧ search_frame ρ h h' ∧ length h' = length h ∧
    parent_chain h (e :: l) ∧ ρ ∈ e :: l ∧ (∀ x, x ∈ e :: l → in_tree ρ h x) ∧
    ∀ x, h' !! x =
      if decide (x ∈ e :: l) then backed_up result turn <$> h !! x else h !! x.
Proof.
  intros Hwf Hin Hfuel.
  destruct (in_tree_chain _ _ _ Hwf Hin) as (l & Hchain & Hroot & Hall).
  assert (length (e :: l) ≤ length h)%nat as Hlen.
  { rewrite <- (length_seq (length h) 0%nat). apply submseteq_length.
    apply NoDup_submseteq; [by eapply parent_chain_NoDup|].
    intros x Hx. apply elem_of_seq.
    destruct (in_tree_lookup _ _ _ Hwf (Hall x Hx)) as [xn Hxn].
    apply lookup_lt_Some in Hxn. lia. }
  destruct (chain_backup_run result turn l h fuel e Hchain ltac:(lia))
    as (h' & Hrun & Hlook).
  destruct (tree_wf_backup ρ h h' (e :: l) result turn Hwf Hchain Hall Hlook)
    as (Hwf' & Hframe & Hlen').
  by exists h', l.
Qed.

(** X10: In a search tree [back_propagate] started on any node of the tree
    ends, after at most as many passes as there are objects: it reaches
    the root, so the root gets one more visit; every node is left as it was
    or with its counters updated by one pass of the loop; the nodes outside
    the tree are untouched; and the result is again a search tree (in
    particular no node has more visits than its parent). *)
Theorem back_propagate_in_tree ρ h e fuel result turn :
  tree_wf ρ h → in_tree ρ h e → (length h ≤ fuel)%nat →
  ∃ h' rn,
    back_propagate fuel (Some e) result turn h = Ok (tt, h') ∧
    tree_wf ρ h' ∧
    h !! ρ = Some rn ∧ h' !! ρ = Some (backed_up result turn rn) ∧
    (∀ x xn, h !! x = Some xn →
       h' !! x = Some xn ∨ h' !! x = Some (backed_up result turn xn)) ∧
    (∀ x xn, h !! x = Some xn → ¬ in_tree ρ h x → h' !! x = Some xn).
Proof.
  intros Hwf Hin Hfuel.
  destruct (backup_tree_run ρ h e fuel result turn Hwf Hin Hfuel)
    as (h' & l & Hrun & Hwf' & Hframe & _ & _ & Hroot & _ & Hlook).
  pose proof Hwf as [(rn & Hρ & _) _].
  exists h', rn. split_and!; try done.
  - by rewrite Hlook, decide_True, Hρ.
  - intros x xn Hx. rewrite Hlook, Hx. destruct (decide _); [by right|by left].
  - by apply Hframe.
Qed.

(** ** The descent of [MCTS] in a search tree *)

Lemma select_child_run self h nd scores :
  h !! self = Some nd → scores ≠ [] →
  (length scores ≤ length (child_nodes nd))%nat →
  ∃ i c, (i < length scores)%nat ∧ child_nodes nd !! i = Some c ∧
         select_child self scores h = Ok (c, h).
Proof.
  intros Hself Hne Hlen. unfold select_child. run (get_node_Ok _ _ _ Hself).
  destruct (tf_argmax_Ok scores Hne) as (i & Hi & Hlt).
  rewrite Hi. run (lift_Ok i h).
  destruct (lookup_lt_is_Some_2 (child_nodes nd) i ltac:(lia)) as [c Hc].
  exists i, c. by rewrite Hc.
Qed.

Lemma policy_only_refl h : policy_only h h.
Proof. intros x xn Hx. exists xn. by split_and!. Qed.

Lemma policy_only_trans h1 h2 h3 :
  policy_only h1 h2 → policy_only h2 h3 → policy_only h1 h3.
Proof.
  intros H12 H23 x xn Hx.
  destruct (H12 x xn Hx) as (xn2 & Hx2 & Hv & Hw & Ht & Hg & Hp & Hsame).
  destruct (H23 x xn2 Hx2) as (xn3 & Hx3 & Hv' & Hw' & Ht' & Hg' & Hp' & Hsame').
  exists xn3. split_and!; try congruence.
  intros Hsome. specialize (Hsame Hsome). subst xn2. by apply Hsame'.
Qed.

(** With enough fuel for a path through the objects, the descent from a
    node of a search tree returns. *)
Lemma descent_tree_run ρ :
  engine_bounded →
  ∀ fuel s h,
    tree_wf ρ h → in_tree ρ h s → (length h - s + 1 ≤ fuel)%nat →
    ∃ e h' en,
      descend fuel s h = Ok (e, h') ∧ tree_wf ρ h' ∧ in_tree ρ h' e ∧
      search_frame ρ h h' ∧ policy_only h h' ∧
      (length h' ≤ length h + Z.to_nat MAX_MOVES)%nat ∧
      h' !! e = Some en ∧
      (number_of_visits en = 0 ∨
       terminal_game_state en = true ∧ is_Some (policy_vector_legal_moves en)).
Proof.
  intros Hengine. induction fuel as [|fuel IH]; intros s h Hwf Hins Hfuel;
    destruct (in_tree_lookup _ _ _ Hwf Hins) as [sn Hs];
    pose proof (lookup_lt_Some _ _ _ Hs) as Hslt; [lia|].
  pose proof Hwf as [_ Hnode].
  destruct (Hnode s sn Hins Hs) as (Hcnt & Hflag & _ & Hpol & Hch & _).
  simpl. run (get_node_Ok _ _ _ Hs).
  destruct (decide (0 < number_of_visits sn)) as [Hpos|Hnpos].
  2:{ exists s, h, sn.
      split_and!; try done; try apply policy_only_refl; lia. }
  destruct (policy_vector_legal_moves sn) as [scores|] eqn:Hpv.
  - destruct (terminal_game_state sn) eqn:Hterm; simpl.
    + exists s, h, sn.
      split_and!; try done; try apply policy_only_refl; try lia.
      right. by rewrite Hpv.
    + destruct Hpol as [Hlen Hnch].
      assert (scores ≠ []) as Hne.
      { intros ->. simpl in Hlen. symmetry in Hlen. apply nil_length_inv in Hlen.
        apply Hflag in Hlen. congruence. }
      destruct (select_child_run s h sn scores Hs Hne ltac:(lia))
        as (i & c & _ & Hc & Hsel).
      run Hsel. apply list_elem_of_lookup_2 in Hc.
      rewrite Forall_forall in Hch. destruct (Hch c Hc) as (Hlt & cn & Hcn & _).
      apply lookup_lt_Some in Hcn.
      apply IH; [done|by eapply in_tree_child|lia].
  - destruct (policy_vector_tree_run ρ h s sn Hengine Hwf Hins Hs)
      as (h1 & sn1 & Hrun & Hwf1 & Hframe & Hs1 & Hlen1 & Hother & [sc Hsc] & Hv & Hw
          & Ht & Hg & Hp & Hnil & _).
    specialize (Hnil Hpol) as (_ & Hseq & Hfresh).
    rewrite decide_True in Hlen1 by done.
    assert (policy_only h h1) as Hquiet.
    { intros x xn Hx. destruct (decide (x = s)) as [->|Hne].
      - simplify_eq. exists sn1. split_and!; try done.
        rewrite Hpv. by intros [? ?].
      - exists xn. rewrite Hother; [by split_and!|done|by eapply lookup_lt_Some]. }
    assert (length h1 ≤ length h + Z.to_nat MAX_MOVES)%nat as Hbound.
    { destruct Hengine as [Hmoves _]. specialize (Hmoves (game sn)). lia. }
    assert (in_tree ρ h1 s) as Hins1 by by apply Hframe.
    run Hrun. destruct fuel as [|fuel]; [lia|].
    simpl. run (get_node_Ok _ _ _ Hs1).
    rewrite decide_True by lia. rewrite Hsc.
    destruct (terminal_game_state sn1) eqn:Hterm; simpl.
    + exists s, h1, sn1. split_and!; try done. right. by rewrite Hsc.
    + pose proof Hwf1 as [_ Hnode1].
      destruct (Hnode1 s sn1 Hins1 Hs1) as (_ & Hflag1 & _ & Hpol1 & _).
      rewrite Hsc in Hpol1. destruct Hpol1 as [Hlen Hnch].
      assert (sc ≠ []) as Hne.
      { intros ->. simpl in Hlen. symmetry in Hlen. apply nil_length_inv in Hlen.
        apply Hflag1 in Hlen. congruence. }
      destruct (select_child_run s h1 sn1 sc Hs1 Hne ltac:(lia))
        as (i & c & _ & Hc & Hsel).
      run Hsel. apply list_elem_of_lookup_2 in Hc.
      destruct (Hfresh c Hc) as (cn & Hcn & Hzero).
      rewrite (descend_unvisited fuel c h1 cn Hcn ltac:(lia)).
      exists c, h1, cn. split_and!; try done.
      * by eapply in_tree_child.
      * by left.
Qed.

(** X11: In a search tree, with fuel for a path through the objects, the loop
    of lines 189-196 ends without exception at a node of the tree that was
    never visited, or at a terminal node that has its policy vector.  It
    changes no counter, creates the children of at most one node, and
    leaves a search tree. *)
Theorem descend_in_tree ρ fuel s h :
  engine_bounded → tree_wf ρ h → in_tree ρ h s →
  (length h - s + 1 ≤ fuel)%nat →
  ∃ e h' en,
    descend fuel s h = Ok (e, h') ∧ tree_wf ρ h' ∧ in_tree ρ h' e ∧
    h' !! e = Some en ∧
    (number_of_visits en = 0 ∨
     terminal_game_state en = true ∧ is_Some (policy_vector_legal_moves en)) ∧
    (length h ≤ length h' ≤ length h + Z.to_nat MAX_MOVES)%nat ∧
    (∀ x xn, h !! x = Some xn →
       ∃ xn', h' !! x = Some xn' ∧
         number_of_visits xn' = number_of_visits xn ∧ wins xn' = wins xn) ∧
    (∀ x xn, h !! x = Some xn → ¬ in_tree ρ h x → h' !! x = Some xn).
Proof.
  intros Hengine Hwf Hins Hfuel.
  destruct (descent_tree_run ρ Hengine fuel s h Hwf Hins Hfuel)
    as (e & h' & en & Hrun & Hwf' & Hine & Hframe & Hquiet & Hlen & He & Hend).
  exists e, h', en. split_and!; try done.
  - by destruct Hframe.
  - intros x xn Hx. destruct (Hquiet x xn Hx) as (xn' & Hx' & Hv & Hw & _).
    by exists xn'.
  - by apply Hframe.
Qed.

(** ** [MCTS] on a search tree *)

Lemma iteration_tree_run ρ h rn fuel sample :
  engine_bounded → tree_wf ρ h → h !! ρ = Some rn →
  terminal_game_state rn = false → is_Some (policy_vector_legal_moves rn) →
  (length h + 218 ≤ fuel)%nat →
  ∃ e h' rn',
    MCTS_iteration fuel ρ sample h = Ok (e, h') ∧ tree_wf ρ h' ∧
    search_frame ρ h h' ∧ (length h' ≤ length h + 218)%nat ∧
    h' !! ρ = Some rn' ∧ terminal_game_state rn' = false ∧
    is_Some (policy_vector_legal_moves rn') ∧
    number_of_visits rn' = number_of_visits rn + 1 ∧
    game rn' = game rn ∧ parent_node rn' = parent_node rn ∧
    policy_vector_legal_moves rn' = policy_vector_legal_moves rn.
Proof.
  intros Hengine Hwf Hρ Hterm [scores Hpv] Hfuel.
  assert (Z.to_nat MAX_MOVES = 218%nat) as Hmax by done.
  pose proof Hwf as [_ Hnode].
  destruct (Hnode ρ rn (in_tree_root ρ h) Hρ) as (_ & Hflag & _ & Hpol & Hch & _).
  rewrite Hpv in Hpol. destruct Hpol as [Hlen Hnch].
  unfold MCTS_iteration. run (get_node_Ok _ _ _ Hρ). rewrite Hpv.
  assert (ret scores h = Ok (scores, h)) as Hret by done. run Hret.
  set (noise := dirichlet_noise sample (length (legal_moves (game rn)))).
  assert (length noise = length (legal_moves (game rn))) as Hnoise.
  { unfold noise, dirichlet_noise. by rewrite length_fmap, length_seq. }
  rewrite tf_add_same_length by lia.
  run (lift_Ok (zip_with f_add scores noise) h).
  assert (length (zip_with f_add scores noise) = length (legal_moves (game rn)))
    as Hnp by (rewrite length_zip_with; lia).
  assert (zip_with f_add scores noise ≠ []) as Hne.
  { intros Hnil. rewrite Hnil in Hnp. simpl in Hnp. symmetry in Hnp.
    apply nil_length_inv in Hnp. apply Hflag in Hnp. congruence. }
  destruct (select_child_run ρ h rn _ Hρ Hne ltac:(lia)) as (i & c & _ & Hc & Hsel).
  run Hsel. apply list_elem_of_lookup_2 in Hc.
  rewrite Forall_forall in Hch. destruct (Hch c Hc) as (Hlt & cn & Hcn & _).
  apply lookup_lt_Some in Hcn.
  assert (in_tree ρ h c) as Hcin by by eapply in_tree_child; [constructor|..].
  destruct (descent_tree_run ρ Hengine fuel c h Hwf Hcin ltac:(lia))
    as (e & h1 & en & Hdesc & Hwf1 & Hine & Hframe1 & Hquiet & Hlen1 & He & _).
  run Hdesc. run (get_node_Ok _ _ _ He).
  destruct (backup_tree_run ρ h1 e fuel (value_evaluation en)
              (move_turn (game en)) Hwf1 Hine ltac:(lia))
    as (h2 & l & Hback & Hwf2 & Hframe2 & Hlen2 & _ & Hroot & _ & Hlook).
  run Hback.
  destruct (Hquiet ρ rn Hρ) as (rn1 & Hρ1 & _ & _ & _ & _ & _ & Hsame).
  rewrite (Hsame ltac:(by rewrite Hpv)) in Hρ1.
  exists e, h2, (backed_up (value_evaluation en) (move_turn (game en)) rn).
  split_and!; try done.
  - by eapply search_frame_trans.
  - lia.
  - by rewrite Hlook, decide_True, Hρ1.
Qed.

Lemma loop_tree_run ρ fuel noise :
  engine_bounded →
  ∀ iterations k h rn,
    tree_wf ρ h → h !! ρ = Some rn →
    terminal_game_state rn = false → is_Some (policy_vector_legal_moves rn) →
    (length h + 218 * iterations ≤ fuel)%nat →
    ∃ h' rn',
      MCTS_loop fuel ρ noise k iterations h = Ok (tt, h') ∧ tree_wf ρ h' ∧
      search_frame ρ h h' ∧ (length h' ≤ length h + 218 * iterations)%nat ∧
      h' !! ρ = Some rn' ∧ terminal_game_state rn' = false ∧
      is_Some (policy_vector_legal_moves rn') ∧
      number_of_visits rn' = number_of_visits rn + Z.of_nat iterations ∧
      game rn' = game rn ∧ parent_node rn' = parent_node rn ∧
      policy_vector_legal_moves rn' = policy_vector_legal_moves rn.
Proof.
  intros Hengine. induction iterations as [|n IH];
    intros k h rn Hwf Hρ Hterm Hsome Hfuel; simpl.
  - exists h, rn. split_and!; try done; lia.
  - destruct (iteration_tree_run ρ h rn fuel (noise k) Hengine Hwf Hρ Hterm
                Hsome ltac:(lia))
      as (e & h1 & rn1 & Hrun & Hwf1 & Hframe1 & Hlen1 & Hρ1 & Hterm1 & Hsome1 & Hv1
          & Hg1 & Hp1 & Hs1).
    run Hrun.
    destruct (IH (S k) h1 rn1 Hwf1 Hρ1 Hterm1 Hsome1 ltac:(lia))
      as (h2 & rn2 & Hloop & Hwf2 & Hframe2 & Hlen2 & Hρ2 & Hterm2 & Hsome2 & Hv2 & Hg2
          & Hp2 & Hs2).
    exists h2, rn2. split_and!; try done; try congruence.
    + by eapply search_frame_trans.
    + lia.
    + lia.
Qed.

(** The part of [MCTS] that follows the choice of the root. *)
Lemma search_tree_run ρ h rn fuel noise iterations :
  engine_bounded → tree_wf ρ h → h !! ρ = Some rn →
  (length h + 218 * (Z.to_nat iterations + 1) ≤ fuel)%nat →
  ∃ h' rn',
    (let* rn := get_node ρ in
     if terminal_game_state rn then ret ρ
     else
       let* _ := get_policy_vector ρ in
       let* _ := MCTS_loop fuel ρ noise 0 (Z.to_nat iterations) in
       ret ρ) h = Ok (ρ, h') ∧
    tree_wf ρ h' ∧ search_frame ρ h h' ∧
    (length h' ≤ length h + 218 * (Z.to_nat iterations + 1))%nat ∧
    h' !! ρ = Some rn' ∧ game rn' = game rn ∧ parent_node rn' = parent_node rn ∧
    terminal_game_state rn' = terminal_game_state rn ∧
    number_of_visits rn' =
      number_of_visits rn +
      (if terminal_game_state rn then 0 else Z.of_nat (Z.to_nat iterations)) ∧
    (terminal_game_state rn = false → is_Some (policy_vector_legal_moves rn')) ∧
    (terminal_game_state rn = false → child_nodes rn = [] →
     policy_vector_legal_moves rn' = Some (first_scores rn)).
Proof.
  intros Hengine Hwf Hρ Hfuel. run (get_node_Ok _ _ _ Hρ).
  destruct (terminal_game_state rn) eqn:Hterm.
  - exists h, rn. split_and!; try done; simpl; lia.
  - destruct (policy_vector_tree_run ρ h ρ rn Hengine Hwf (in_tree_root ρ h) Hρ)
      as (h1 & rn1 & Hrun & Hwf1 & Hframe1 & Hρ1 & Hlen1 & _ & Hsome1 & Hv1 & _ & Ht1
          & Hg1 & Hp1 & Hfresh1 & _).
    assert (length h1 ≤ length h + 218)%nat as Hbound.
    { destruct Hengine as [Hmoves _]. specialize (Hmoves (game rn)).
      unfold MAX_MOVES in Hmoves. destruct (decide _); lia. }
    run Hrun.
    destruct (loop_tree_run ρ fuel noise Hengine (Z.to_nat iterations) 0%nat
                h1 rn1 Hwf1 Hρ1 ltac:(congruence) Hsome1 ltac:(lia))
      as (h2 & rn2 & Hloop & Hwf2 & Hframe2 & Hlen2 & Hρ2 & Hterm2 & Hsome2 & Hv2 & Hg2
          & Hp2 & Hs2).
    run Hloop. exists h2, rn2. split_and!; try done; try congruence.
    + by eapply search_frame_trans.
    + lia.
    + intros _ Hnil. destruct (Hfresh1 Hnil) as [Hfs _]. congruence.
Qed.

Lemma in_tree_childless ρ h rn r :
  h !! ρ = Some rn → child_nodes rn = [] → in_tree ρ h r → r = ρ.
Proof.
  intros Hρ Hnil. induction 1 as [|r nd c _ IH Hr Hc]; [done|].
  subst r. simplify_eq. rewrite Hnil in Hc. by apply elem_of_nil in Hc.
Qed.

Lemma tree_wf_new_root h g : tree_wf (length h) (h ++ [new_node g None None]).
Proof.
  assert ((h ++ [new_node g None None]) !! length h = Some (new_node g None None))
    as Hρ.
  { rewrite lookup_app_r by done. by rewrite Nat.sub_diag. }
  split; [by eexists|]. intros r nd Hin Hr.
  apply (in_tree_childless _ _ _ _ Hρ eq_refl) in Hin as ->. simplify_eq.
  split; [done|]. split; [apply new_node_flag|]. split; [done|].
  split; [done|]. split; [simpl; constructor|by left].
Qed.

Lemma fresh_search_run fuel noise g iterations h :
  engine_bounded →
  (length h + 1 + 218 * (Z.to_nat iterations + 1) ≤ fuel)%nat →
  ∃ h' rn,
    MCTS fuel noise (Some g) None iterations h = Ok (length h, h') ∧
    tree_wf (length h) h' ∧ h' !! length h = Some rn ∧
    game rn = look_for_draws (check_for_checkmate g) ∧
    (terminal_game_state rn = true ↔ legal_moves (game rn) = []) ∧
    number_of_visits rn =
      (if terminal_game_state rn then 0 else Z.of_nat (Z.to_nat iterations)) ∧
    (terminal_game_state rn = false →
     is_Some (policy_vector_legal_moves rn) ∧
     length (child_nodes rn) = length (legal_moves (game rn))) ∧
    (∀ r, (r < length h)%nat → h' !! r = h !! r) ∧
    (length h' ≤ length h + 1 + 218 * (Z.to_nat iterations + 1))%nat.
Proof.
  intros Hengine Hfuel. unfold MCTS.
  assert (Game_Node_init g None None h = Ok (length h, h ++ [new_node g None None]))
    as Hinit by done.
  run Hinit.
  set (h1 := h ++ [new_node g None None]).
  assert (h1 !! length h = Some (new_node g None None)) as Hρ.
  { unfold h1. rewrite lookup_app_r by done. by rewrite Nat.sub_diag. }
  assert (tree_wf (length h) h1) as Hwf1 by apply tree_wf_new_root.
  destruct (search_tree_run (length h) h1 _ fuel noise iterations Hengine Hwf1 Hρ)
    as (h' & rn' & Hrun & Hwf' & Hframe & Hlen' & Hρ' & Hg & _ & Ht & Hv & Hsome & _).
  { unfold h1. rewrite length_app. simpl. lia. }
  pose proof Hwf' as [_ Hnode'].
  destruct (Hnode' _ _ (in_tree_root _ _) Hρ') as (_ & Hflag & _ & Hpol & _).
  exists h', rn'. split_and!; try done; try (intros ?; by apply Hflag).
  - rewrite Ht, Hv. change (number_of_visits (new_node g None None)) with 0.
    by destruct (terminal_game_state _).
  - intros Hterm. rewrite Ht in Hterm. destruct (Hsome Hterm) as [sc Hsc].
    rewrite Hsc in Hpol. split; [by eexists|tauto].
  - intros r Hr. destruct (lookup_lt_is_Some_2 h r Hr) as [x Hx]. rewrite Hx.
    destruct Hframe as (_ & _ & _ & Hout). apply Hout.
    + unfold h1. by apply lookup_app_l_Some.
    + intros Hin. apply (in_tree_childless _ _ _ _ Hρ eq_refl) in Hin. lia.
  - unfold h1 in Hlen'. rewrite length_app in Hlen'. simpl in Hlen'. lia.
Qed.

Lemma tree_wf_detach ρ h r rn :
  tree_wf ρ h → in_tree ρ h r → h !! r = Some rn →
  tree_wf r (<[r := set_parent_node None rn]> h) ∧
  ∀ x, in_tree r (<[r := set_parent_node None rn]> h) x → in_tree r h x.
Proof.
  intros Hwf Hins Hr. pose proof (lookup_lt_Some _ _ _ Hr) as Hlt.
  set (h1 := <[r := set_parent_node None rn]> h).
  pose proof Hwf as [_ Hnode].
  assert (h1 !! r = Some (set_parent_node None rn)) as Hr1
    by by apply list_lookup_insert_eq.
  assert (∀ x, x ≠ r → h1 !! x = h !! x) as Hother.
  { intros x Hne. unfold h1. by rewrite list_lookup_insert_ne. }
  assert (∀ x, in_tree r h1 x → in_tree r h x) as Hmem1.
  { intros x. apply in_tree_mono. intros y yn' Hy.
    destruct (decide (y = r)) as [->|Hne].
    - rewrite Hr1 in Hy. injection Hy as <-. by exists rn.
    - rewrite Hother in Hy by done. by exists yn'. }
  assert (∀ x, in_tree r h x → in_tree ρ h x ∧ (x = r ∨ (r < x)%nat)) as Hmem2.
  { induction 1 as [|x0 nd0 c _ [IHin IHle] Hx0 Hc]; [by split; [|left]|].
    split; [by eapply in_tree_child|].
    destruct (Hnode x0 nd0 IHin Hx0) as (_ & _ & _ & _ & Hch & _).
    rewrite Forall_forall in Hch. destruct (Hch c Hc) as (Hlt' & _). right. lia. }
  split; [|done]. split; [by eexists|].
  intros x x' Hin Hx'. apply Hmem1, Hmem2 in Hin as [Hin Hle].
  assert (∀ nd, Forall (λ c, (x < c)%nat ∧
                   ∃ cn, h !! c = Some cn ∧ parent_node cn = Some x) (child_nodes nd) →
                Forall (λ c, (x < c)%nat ∧
                   ∃ cn, h1 !! c = Some cn ∧ parent_node cn = Some x) (child_nodes nd))
    as Hchildren.
  { intros nd HF. eapply Forall_impl; [exact HF|].
    intros c (Hlt' & cn & Hcn & Hp). split; [done|].
    exists cn. rewrite Hother; [done|lia]. }
  assert (∀ y yn, h !! y = Some yn →
            ∃ yn', h1 !! y = Some yn' ∧ move yn' = move yn ∧ game yn' = game yn)
    as Hkeep.
  { intros y yn Hy. destruct (decide (y = r)) as [->|Hne].
    - simplify_eq. by exists (set_parent_node None rn).
    - exists yn. by rewrite Hother. }
  destruct Hle as [->|Hle].
  - rewrite Hr1 in Hx'. injection Hx' as <-.
    destruct (Hnode r rn Hin Hr) as (Hcnt & Hflag & _ & Hpol & Hch & Hplayed).
    refine (conj Hcnt (conj Hflag (conj _ (conj Hpol (conj _ _))))); [done| |].
    + by apply Hchildren.
    + destruct Hplayed as [Hnil|Hplayed]; [by left|right].
      by eapply children_played_transfer; [..|exact Hplayed].
  - rewrite Hother in Hx' by lia.
    destruct (Hnode x x' Hin Hx') as (Hcnt & Hflag & Hpar & Hpol & Hch & Hplayed).
    refine (conj Hcnt (conj Hflag (conj _ (conj Hpol (conj _ _)))));
      [|by apply Hchildren|].
    2:{ destruct Hplayed as [Hnil|Hplayed]; [by left|right].
        by eapply children_played_transfer; [..|exact Hplayed]. }
    intros p Hp. destruct (Hpar p Hp) as (pn & Hpn & Hle').
    destruct (decide (p = r)) as [->|Hne].
    + exists (set_parent_node None rn). split; [done|]. simplify_eq. done.
    + exists pn. by rewrite Hother.
Qed.

Lemma reused_search_run ρ h r fuel noise game_arg iterations :
  engine_bounded → tree_wf ρ h → in_tree ρ h r →
  (length h + 218 * (Z.to_nat iterations + 1) ≤ fuel)%nat →
  ∃ h' rn rn',
    h !! r = Some rn ∧
    MCTS fuel noise game_arg (Some r) iterations h = Ok (r, h') ∧
    tree_wf r h' ∧ h' !! r = Some rn' ∧
    parent_node rn' = None ∧ game rn' = game rn ∧
    number_of_visits rn' =
      number_of_visits rn +
      (if terminal_game_state rn then 0 else Z.of_nat (Z.to_nat iterations)) ∧
    (terminal_game_state rn = false →
     is_Some (policy_vector_legal_moves rn') ∧
     length (child_nodes rn') = length (legal_moves (game rn'))) ∧
    (∀ x xn, h !! x = Some xn → ¬ in_tree r h x → h' !! x = Some xn).
Proof.
  intros Hengine Hwf Hins Hfuel.
  destruct (in_tree_lookup _ _ _ Hwf Hins) as [rn Hr].
  pose proof (lookup_lt_Some _ _ _ Hr) as Hlt.
  destruct (tree_wf_detach ρ h r rn Hwf Hins Hr) as [Hwf1 Hmem1].
  set (h1 := <[r := set_parent_node None rn]> h) in *.
  assert (h1 !! r = Some (set_parent_node None rn)) as Hr1
    by by apply list_lookup_insert_eq.
  unfold MCTS.
  assert ((let* _ := update_node r (set_parent_node None) in ret r) h = Ok (r, h1))
    as Hroot by by run (update_node_Ok r (set_parent_node None) h rn Hr).
  run Hroot.
  destruct (search_tree_run r h1 _ fuel noise iterations Hengine Hwf1 Hr1)
    as (h' & rn' & Hrun & Hwf' & Hframe & _ & Hr' & Hg & Hp & _ & Hv & Hsome & _).
  { unfold h1. rewrite length_insert. lia. }
  exists h', rn, rn'. split_and!; try done.
  { intros Hterm. destruct (Hsome Hterm) as [sc Hsc].
    pose proof Hwf' as [_ Hnode'].
    destruct (Hnode' _ _ (in_tree_root _ _) Hr') as (_ & _ & _ & Hpol & _).
    rewrite Hsc in Hpol. split; [by eexists|tauto]. }
  intros x xn Hx Hnin. destruct Hframe as (_ & _ & _ & Hout). apply Hout.
  - unfold h1. rewrite list_lookup_insert_ne; [done|]. intros <-.
    apply Hnin. constructor.
  - intros Hin. by apply Hnin, Hmem1.
Qed.

(** X12: [MCTS] called with a game and no starting node, with fuel for the
    objects it can create: it never raises, it returns the new root, and
    what hangs from the root is a search tree.  The root holds the game
    after [check_for_checkmate] and [look_for_draws]; when that game has a
    legal move the root has been visited once per iteration (not at all
    for a negative number of iterations) and has its scores and one child
    per legal move, otherwise it was never visited.  The objects that
    existed before the call are untouched, and no more than [MAX_MOVES]
    objects are created for the root and per iteration. *)
Theorem MCTS_new_tree fuel noise g iterations h :
  engine_bounded →
  (length h + 1 + 218 * (Z.to_nat iterations + 1) ≤ fuel)%nat →
  ∃ h' rn,
    MCTS fuel noise (Some g) None iterations h = Ok (length h, h') ∧
    tree_wf (length h) h' ∧ h' !! length h = Some rn ∧
    game rn = look_for_draws (check_for_checkmate g) ∧
    (terminal_game_state rn = true ↔ legal_moves (game rn) = []) ∧
    number_of_visits rn =
      (if terminal_game_state rn then 0 else Z.of_nat (Z.to_nat iterations)) ∧
    (terminal_game_state rn = false →
     is_Some (policy_vector_legal_moves rn) ∧
     length (child_nodes rn) = length (legal_moves (game rn))) ∧
    (∀ r, (r < length h)%nat → h' !! r = h !! r) ∧
    (length h' ≤ length h + 1 + 218 * (Z.to_nat iterations + 1))%nat.
Proof. apply fresh_search_run. Qed.

(** X13: [MCTS] called with a node of a search tree as starting node, with
    fuel for the objects it can create: it never raises and returns that
    node, cut from its parent; what hangs from it is a search tree; when
    its flag is not set it has got one more visit per iteration and has
    its scores and one child per legal move; the objects that do not hang
    from it are untouched. *)
Theorem MCTS_subtree ρ h r fuel noise game_arg iterations :
  engine_bounded → tree_wf ρ h → in_tree ρ h r →
  (length h + 218 * (Z.to_nat iterations + 1) ≤ fuel)%nat →
  ∃ h' rn rn',
    h !! r = Some rn ∧
    MCTS fuel noise game_arg (Some r) iterations h = Ok (r, h') ∧
    tree_wf r h' ∧ h' !! r = Some rn' ∧
    parent_node rn' = None ∧ game rn' = game rn ∧
    number_of_visits rn' =
      number_of_visits rn +
      (if terminal_game_state rn then 0 else Z.of_nat (Z.to_nat iterations)) ∧
    (terminal_game_state rn = false →
     is_Some (policy_vector_legal_moves rn') ∧
     length (child_nodes rn') = length (legal_moves (game rn'))) ∧
    (∀ x xn, h !! x = Some xn → ¬ in_tree r h x → h' !! x = Some xn).
Proof. apply reused_search_run. Qed.

(** ** [find_child_node_information] and [make_a_move] in a search tree *)

(** X14: On a node of a search tree [find_child_node_information] never
    raises and changes nothing: it returns two lists as long as the list
    of children, entry [i] of the first one being the stored evaluation of
    child [i] and entry [i] of the second one its UCB1 score. *)
Theorem find_child_node_information_in_tree ρ h s nd :
  tree_wf ρ h → in_tree ρ h s → h !! s = Some nd →
  ∃ evaluations ucb1_scores,
    find_child_node_information s h = Ok ((evaluations, ucb1_scores), h) ∧
    length evaluations = length (child_nodes nd) ∧
    length ucb1_scores = length (child_nodes nd) ∧
    ∀ i c, child_nodes nd !! i = Some c →
      ∃ cn u, h !! c = Some cn ∧
        evaluations !! i = Some (value_evaluation cn) ∧
        ucb1_scores !! i = Some u ∧
        get_ucb1_score c default_exploration_constant h = Ok (u, h).
Proof.
  intros Hwf Hins Hs. pose proof Hwf as [_ Hnode].
  destruct (Hnode s nd Hins Hs) as (_ & _ & _ & _ & Hch & _).
  assert (∃ ps, Forall2 (λ c p, ∃ cn, h !! c = Some cn ∧ p.1 = value_evaluation cn ∧
             get_ucb1_score c default_exploration_constant h = Ok (p.2, h))
            (child_nodes nd) ps) as [ps Hps].
  { apply Forall_exists_Forall2. apply Forall_forall. intros c Hc.
    rewrite Forall_forall in Hch. destruct (Hch c Hc) as (_ & cn & Hcn & Hp).
    assert (in_tree ρ h c) as Hcin by by eapply in_tree_child.
    destruct (Hnode c cn Hcin Hcn) as (Hccnt & _ & Hcpar & _).
    destruct (Hcpar s Hp) as (pn & Hpn & Hle). simplify_eq.
    destruct (get_ucb1_score_safe h c cn s nd default_exploration_constant
                Hcn Hp Hs ltac:(lia)) as [u Hu].
    exists (value_evaluation cn, u), cn. by split_and!. }
  pose proof (find_child_node_information_loop_run _ _ _ Hps) as Hrun.
  exists ps.*1, ps.*2. split.
  { unfold find_child_node_information. by run (get_node_Ok _ _ _ Hs). }
  destruct (find_child_node_information_loop_inv _ _ _ _ Hrun) as (_ & Hl1 & Hl2 & Hall).
  split; [done|]. split; [done|]. intros i c Hc.
  destruct (Hall i c Hc) as (cn & u & Hcn & Hu & He & Hus). by exists cn, u.
Qed.

Lemma move_tree_run ρ h s nd mv :
  tree_wf ρ h → in_tree ρ h s → h !! s = Some nd → child_nodes nd ≠ [] →
  if decide (mv ∈ legal_moves (game nd)) then
    ∃ c cn, make_a_move s (Some mv) h = Ok (Some c, h) ∧
      in_tree ρ h c ∧ h !! c = Some cn ∧ move cn = Some mv ∧
      parent_node cn = Some s ∧
      game cn = look_for_draws (check_for_checkmate (play_machine_move (game nd) mv))
  else make_a_move s (Some mv) h = Ok (None, h).
Proof.
  intros Hwf Hins Hs Hne. pose proof Hwf as [_ Hnode].
  destruct (Hnode s nd Hins Hs) as (_ & _ & _ & _ & Hch & [Hnil|Hplayed]); [done|].
  unfold children_played in Hplayed.
  assert (Forall (λ c, is_Some (h !! c)) (child_nodes nd)) as Hsome.
  { eapply Forall_impl; [exact Hch|]. intros c (_ & cn & Hcn & _). by eexists. }
  destruct (make_a_move_loop_spec (Some mv) _ h Hsome) as (r & Hrun & Hr).
  unfold make_a_move. run (get_node_Ok _ _ _ Hs). rewrite Hrun.
  assert (∀ c0 i0 cn0, child_nodes nd !! i0 = Some c0 → h !! c0 = Some cn0 →
            move cn0 = Some mv →
            mv ∈ legal_moves (game nd) ∧
            game cn0 = look_for_draws (check_for_checkmate
                                         (play_machine_move (game nd) mv)))
    as Hfound.
  { intros c0 i0 cn0 Hc0 Hcn0 Hmv0.
    destruct (Forall2_lookup_l _ _ _ _ _ Hplayed Hc0)
      as (mv0 & Hmv0' & cn0' & Hcn0' & Hm & Hg).
    simplify_eq. split; [by eapply list_elem_of_lookup_2|done]. }
  destruct (decide (mv ∈ legal_moves (game nd))) as [Hin|Hnin].
  - destruct r as [c|].
    + destruct Hr as (i & cn & Hc & Hcn & Hmv & _).
      destruct (Hfound c i cn Hc Hcn Hmv) as [_ Hg].
      apply list_elem_of_lookup_2 in Hc.
      rewrite Forall_forall in Hch. destruct (Hch c Hc) as (_ & cn' & Hcn' & Hp).
      simplify_eq. exists c, cn. split_and!; try done. by eapply in_tree_child.
    + apply list_elem_of_lookup_1 in Hin as [i Hi].
      destruct (Forall2_lookup_r _ _ _ _ _ Hplayed Hi) as (c & Hc & cn & Hcn & Hm & _).
      apply list_elem_of_lookup_2 in Hc. by destruct (Hr c cn Hc Hcn).
  - destruct r as [c|]; [|done].
    destruct Hr as (i & cn & Hc & Hcn & Hmv & _).
    by destruct (Hfound c i cn Hc Hcn Hmv) as [? _].
Qed.

(** X15: On a node of a search tree that has its children, [make_a_move]
    called with a legal move of the node's game returns a child that
    carries this move, points back to the node and holds the game reached
    by the move; called with any other move it returns [None]. *)
Theorem make_a_move_in_tree ρ h s nd mv :
  tree_wf ρ h → in_tree ρ h s → h !! s = Some nd → child_nodes nd ≠ [] →
  if decide (mv ∈ legal_moves (game nd)) then
    ∃ c cn, make_a_move s (Some mv) h = Ok (Some c, h) ∧
      in_tree ρ h c ∧ h !! c = Some cn ∧ move cn = Some mv ∧
      parent_node cn = Some s ∧
      game cn = look_for_draws (check_for_checkmate (play_machine_move (game nd) mv))
  else make_a_move s (Some mv) h = Ok (None, h).
Proof. apply move_tree_run. Qed.

(** ** Search, move, search again *)

(** X16: The way the module is used during a game: a first search from the
    game [g], then [make_a_move] on the returned root with a legal move,
    then a second search that starts from the child it returns.  With
    enough fuel none of the three calls raises; the second search returns
    that child, now without parent, holding the game reached by the move,
    at the top of a search tree; it adds one visit per iteration to the
    visits the child got in the first search, unless the child is
    terminal. *)
Theorem search_move_search fuel noise noise' g mv iterations iterations' h :
  engine_bounded →
  mv ∈ legal_moves (look_for_draws (check_for_checkmate g)) →
  (length h + 1 + 218 * (Z.to_nat iterations + 1)
            + 218 * (Z.to_nat iterations' + 1) ≤ fuel)%nat →
  ∃ h1 c cn h2 cn',
    MCTS fuel noise (Some g) None iterations h = Ok (length h, h1) ∧
    make_a_move (length h) (Some mv) h1 = Ok (Some c, h1) ∧
    h1 !! c = Some cn ∧
    MCTS fuel noise' None (Some c) iterations' h1 = Ok (c, h2) ∧
    tree_wf c h2 ∧ h2 !! c = Some cn' ∧
    move cn' = Some mv ∧ parent_node cn' = None ∧
    game cn' = look_for_draws (check_for_checkmate
                 (play_machine_move (look_for_draws (check_for_checkmate g)) mv)) ∧
    number_of_visits cn' =
      number_of_visits cn +
      (if terminal_game_state cn then 0 else Z.of_nat (Z.to_nat iterations')).
Proof.
  intros Hengine Hmv Hfuel.
  destruct (fresh_search_run fuel noise g iterations h Hengine ltac:(lia))
    as (h1 & rn & Hrun1 & Hwf1 & Hρ & Hg & Hflag & Hv & Hsome & _ & Hlen1).
  rewrite <- Hg in Hmv.
  assert (child_nodes rn ≠ []) as Hne.
  { assert (terminal_game_state rn = false) as Hterm.
    { destruct (terminal_game_state rn); [|done].
      rewrite (proj1 Hflag eq_refl) in Hmv. by apply elem_of_nil in Hmv. }
    destruct (Hsome Hterm) as [_ Hlen]. intros Hnil. rewrite Hnil in Hlen.
    simpl in Hlen. symmetry in Hlen. apply nil_length_inv in Hlen.
    rewrite Hlen in Hmv. by apply elem_of_nil in Hmv. }
  pose proof (move_tree_run (length h) h1 (length h) rn mv Hwf1
                (in_tree_root _ _) Hρ Hne) as Hmove.
  rewrite decide_True in Hmove by done.
  destruct Hmove as (c & cn & Hmove & Hcin & Hc & Hm & Hp & Hgc).
  destruct (reused_search_run (length h) h1 c fuel noise' None iterations' Hengine Hwf1
              Hcin ltac:(lia))
    as (h2 & cn0 & cn' & Hc0 & Hrun2 & Hwf2 & Hc' & Hp' & Hg' & Hv' & _).
  simplify_eq.
  destruct (steps_old _ _ _ _ (MCTS_steps _ _ _ _ _ _ _ _ Hrun2) Hc)
    as (cn'' & Hc'' & Hev).
  simplify_eq. destruct Hev as (Hm' & _).
  exists h1, c, cn, h2, cn'. split_and!; try done; congruence.
Qed.

(** ** What a search never does *)

(** X17: A completed [MCTS], in either mode and whatever the fuel, deletes no
    object and never changes the move, the game, the bitboard or the
    terminal flag of an object; counters never decrease; children, once
    created, are never replaced. *)
Theorem MCTS_keeps_objects fuel noise game_arg starting_node iterations h root h' :
  MCTS fuel noise game_arg starting_node iterations h = Ok (root, h') →
  (length h ≤ length h')%nat ∧
  ∀ r x, h !! r = Some x →
    ∃ x', h' !! r = Some x' ∧
      move x' = move x ∧ game x' = game x ∧ bitboard x' = bitboard x ∧
      terminal_game_state x' = terminal_game_state x ∧
      number_of_visits x ≤ number_of_visits x' ∧ wins x ≤ wins x' ∧
      (child_nodes x ≠ [] → child_nodes x' = child_nodes x).
Proof.
  intros Hrun. pose proof (MCTS_steps _ _ _ _ _ _ _ _ Hrun) as Hsteps.
  assert (∀ r x, h !! r = Some x → ∃ x', h' !! r = Some x' ∧ node_evolves x x')
    as Hold by (intros r x; by apply steps_old).
  split.
  - destruct (le_lt_dec (length h) (length h')) as [|Hlt]; [done|].
    destruct (lookup_lt_is_Some_2 h (length h') Hlt) as [x Hx].
    destruct (Hold _ _ Hx) as (x' & Hx' & _). apply lookup_lt_Some in Hx'. lia.
  - intros r x Hx. destruct (Hold r x Hx) as (x' & Hx' & Hev). exists x'.
    destruct Hev as (Hm & Hg & Hb & _ & Ht & Hc & Hk).
    split_and!; try done; try lia. intros Hne. by destruct Hk as [Hk|[Hk _]].
Qed.

(** ** The scores of the root *)

(** X18: In a search from a game that has a legal move, the scores stored in
    the root are computed once, before the first iteration, and no
    iteration changes them: whatever the number of iterations, score [i]
    is the evaluation of child [i], plus an exploration term that is
    [0] (the root had no visit when it was computed), plus the normalized
    policy output for move [i]. *)
Theorem MCTS_root_scores fuel noise g iterations h :
  engine_bounded →
  legal_moves (look_for_draws (check_for_checkmate g)) ≠ [] →
  (length h + 1 + 218 * (Z.to_nat iterations + 1) ≤ fuel)%nat →
  ∃ h' rn scores,
    MCTS fuel noise (Some g) None iterations h = Ok (length h, h') ∧
    h' !! length h = Some rn ∧
    number_of_visits rn = Z.of_nat (Z.to_nat iterations) ∧
    policy_vector_legal_moves rn = Some scores ∧
    length scores = length (legal_moves (look_for_draws (check_for_checkmate g))) ∧
    ∀ i mv, legal_moves (look_for_draws (check_for_checkmate g)) !! i = Some mv →
      ∃ raw,
        POLICY_NETWORK (to_bits g) !! i = Some raw ∧
        scores !! i =
          Some (f_add
                  (f_add (value_evaluation
                            (born (length h) (look_for_draws (check_for_checkmate g)) mv))
                         (f_of_int 0))
                  (f_div raw (reduce_sum (POLICY_NETWORK (to_bits g))))).
Proof.
  intros Hengine Hmoves Hfuel. unfold MCTS.
  assert (Game_Node_init g None None h = Ok (length h, h ++ [new_node g None None]))
    as Hinit by done.
  run Hinit.
  set (h1 := h ++ [new_node g None None]).
  set (root := new_node g None None) in *.
  assert (h1 !! length h = Some root) as Hρ.
  { unfold h1. rewrite lookup_app_r by done. by rewrite Nat.sub_diag. }
  assert (terminal_game_state root = false) as Hterm.
  { destruct (terminal_game_state root) eqn:Ht; [|done].
    by apply new_node_flag in Ht. }
  destruct (search_tree_run (length h) h1 root fuel noise iterations Hengine
              (tree_wf_new_root h g) Hρ)
    as (h' & rn' & Hrun & _ & _ & _ & Hρ' & Hg & _ & _ & Hv & _ & Hscores).
  { unfold h1. rewrite length_app. simpl. lia. }
  specialize (Hscores Hterm eq_refl).
  destruct Hengine as [Hm Hp].
  assert (length (legal_moves (game root)) ≤ length (POLICY_NETWORK (bitboard root)))%nat
    as HK.
  { specialize (Hm (game root)). specialize (Hp (bitboard root)). lia. }
  exists h', rn', (first_scores root). split_and!; try done.
  - rewrite Hv, Hterm. change (number_of_visits root) with 0. lia.
  - apply (length_first_scores root HK).
  - intros i mv Hmv. change (legal_moves (game root) !! i = Some mv) in Hmv.
    pose proof (lookup_lt_Some _ _ _ Hmv) as Hi.
    destruct (lookup_lt_is_Some_2 (POLICY_NETWORK (bitboard root)) i ltac:(lia))
      as [raw Hraw].
    exists raw. split; [exact Hraw|].
    change (POLICY_NETWORK (to_bits g) !! i = Some raw) in Hraw.
    unfold first_scores, normalized_policy, tf_divide.
    rewrite !lookup_zip_with, !list_lookup_fmap, Hmv. simpl.
    rewrite lookup_take_lt by done. rewrite list_lookup_fmap, Hraw. simpl.
    done.
Qed.

End Further.

(** * The properties on concrete searches *)

Import Toy.

Definition node_at (h : list Game_Node) (r : nat) : Game_Node :=
  default (new_node (0%nat, true) None None) (h !! r).

Lemma make_a_move_first_match_witness :
  nim_searched !! 0%nat = Some (node_at nim_searched 0) ∧
  Forall (λ c, is_Some (nim_searched !! c)) (child_nodes (node_at nim_searched 0)) ∧
  ∃ r, make_a_move 0 (Some 2%nat) nim_searched = Ok (r, nim_searched) ∧
    match r with
    | Some c =>
        ∃ i cn, child_nodes (node_at nim_searched 0) !! i = Some c ∧
          nim_searched !! c = Some cn ∧ move cn = Some 2%nat ∧
          ∀ j c' cn', (j < i)%nat →
            child_nodes (node_at nim_searched 0) !! j = Some c' →
            nim_searched !! c' = Some cn' → move cn' ≠ Some 2%nat
    | None =>
        ∀ c cn, c ∈ child_nodes (node_at nim_searched 0) →
                nim_searched !! c = Some cn → move cn ≠ Some 2%nat
    end.
Proof.
  assert (Forall (λ c, is_Some (nim_searched !! c))
            (child_nodes (node_at nim_searched 0))) as Hcs.
  { repeat constructor; eexists; reflexivity. }
  split_and!; [reflexivity|exact Hcs|].
  apply (make_a_move_first_match nim_searched 0 (node_at nim_searched 0)
           (Some 2%nat)); [reflexivity|exact Hcs].
Defined.

Lemma back_propagate_chain_witness :
  parent_chain nim_searched [3; 1; 0]%nat ∧
  (length [3; 1; 0]%nat ≤ 3)%nat ∧
  ∃ h', back_propagate 3 (Some 3%nat) 900 "white" nim_searched = Ok (tt, h') ∧
    ∀ r nd, nim_searched !! r = Some nd →
      ∃ nd', h' !! r = Some nd' ∧
        if decide (r ∈ [3; 1; 0]%nat) then
          number_of_visits nd' = number_of_visits nd + 1 ∧
          (wins nd' = wins nd + 1 ∨ wins nd' = wins nd) ∧
          (wins nd' = wins nd + 1 ↔
             (move_turn (game nd) = "white" ∧ f_ltb f_three_quarters 900 = true) ∨
             (move_turn (game nd) ≠ "white" ∧ f_ltb 900 f_quarter = true)) ∧
          (f_leb f_quarter 900 = true → f_leb 900 f_three_quarters = true →
           wins nd' = wins nd)
        else nd' = nd.
Proof.
  assert (parent_chain nim_searched [3; 1; 0]%nat) as Hchain.
  { simpl. eexists. split; [reflexivity|]. split; [reflexivity|].
    eexists. split; [reflexivity|]. split; [reflexivity|].
    eexists. split; reflexivity. }
  split_and!; [exact Hchain|simpl; lia|].
  apply (back_propagate_chain nim_searched 3 [1; 0]%nat 900 "white" 3);
    [exact Hchain|simpl; lia].
Defined.

Lemma blended_scores_witness :
  get_policy_vector 0 nim_start = Ok (tt, nim_expanded) ∧
  nim_expanded !! 0%nat = Some (node_at nim_expanded 0) ∧
  length (child_nodes (node_at nim_expanded 0)) =
    length (legal_moves (game (node_at nim_expanded 0))) ∧
  (length (legal_moves (game (node_at nim_expanded 0))) ≤
   length (POLICY_NETWORK (bitboard (node_at nim_expanded 0))))%nat ∧
  ∃ scores,
    policy_vector_legal_moves (node_at nim_expanded 0) = Some scores ∧
    length scores = length (legal_moves (game (node_at nim_expanded 0))) ∧
    ∀ i, (i < length (legal_moves (game (node_at nim_expanded 0))))%nat →
      ∃ c cn u raw,
        child_nodes (node_at nim_expanded 0) !! i = Some c ∧
        nim_expanded !! c = Some cn ∧
        get_ucb1_score c default_exploration_constant nim_expanded
          = Ok (u, nim_expanded) ∧
        POLICY_NETWORK (bitboard (node_at nim_expanded 0)) !! i = Some raw ∧
        scores !! i =
          Some (f_add (f_add (value_evaluation cn) u)
                  (f_div raw
                     (reduce_sum (POLICY_NETWORK (bitboard (node_at nim_expanded 0)))))).
Proof.
  assert ((length (legal_moves (game (node_at nim_expanded 0))) ≤
           length (POLICY_NETWORK (bitboard (node_at nim_expanded 0))))%nat) as HK.
  { vm_compute. lia. }
  split_and!; [reflexivity..|exact HK|].
  apply (blended_scores 0 nim_start nim_expanded (node_at nim_expanded 0));
    [reflexivity..|exact HK].
Defined.


Lemma children_after_policy_calls_witness :
  nim_start !! 0%nat = Some (node_at nim_start 0) ∧
  (child_nodes (node_at nim_start 0) = [] ∨
   children_match nim_start (node_at nim_start 0)) ∧
  (1 ≤ 2)%nat ∧
  call_repeatedly 2 (get_policy_vector 0) nim_start = Ok (tt, nim_expanded_twice) ∧
  ∃ nd', nim_expanded_twice !! 0%nat = Some nd' ∧
    game nd' = game (node_at nim_start 0) ∧
    length (child_nodes nd') = length (legal_moves (game (node_at nim_start 0))) ∧
    (∀ i mv, legal_moves (game (node_at nim_start 0)) !! i = Some mv →
       ∃ c cn, child_nodes nd' !! i = Some c ∧ nim_expanded_twice !! c = Some cn ∧
               move cn = Some mv) ∧
    (child_nodes (node_at nim_start 0) ≠ [] →
     child_nodes nd' = child_nodes (node_at nim_start 0)).
Proof.
  split_and!; [reflexivity|left; reflexivity|lia|reflexivity|].
  apply (children_after_policy_calls 2 0 nim_start (node_at nim_start 0)
           nim_expanded_twice); [reflexivity|left; reflexivity|lia|reflexivity].
Defined.

Lemma counters_ok_nim_start : counters_ok nim_start.
Proof. intros [|r] nd; [|done]. intros [= <-]. simpl. lia. Qed.

Lemma counters_invariant_witness :
  counters_ok nim_start ∧
  MCTS 10 first_move_noise None (Some 0%nat) 3 nim_start = Ok (0%nat, nim_searched) ∧
  counters_ok nim_searched.
Proof.
  split_and!; [exact counters_ok_nim_start|reflexivity|].
  destruct counters_invariant as (_ & _ & _ & _ & _ & Hsearch).
  apply (Hsearch 10%nat first_move_noise None (Some 0%nat) 3 nim_start 0%nat
           nim_searched); [reflexivity|exact counters_ok_nim_start].
Defined.

Lemma value_evaluation_set_once_witness :
  MCTS 10 first_move_noise None (Some 0%nat) 3 nim_start = Ok (0%nat, nim_searched) ∧
  nim_start !! 0%nat = Some (node_at nim_start 0) ∧
  ∃ nd', nim_searched !! 0%nat = Some nd' ∧
    value_evaluation nd' = value_evaluation (node_at nim_start 0).
Proof.
  split_and!; [reflexivity..|].
  destruct value_evaluation_set_once as (_ & _ & _ & _ & Hsearch).
  apply (Hsearch 10%nat first_move_noise None (Some 0%nat) 3 nim_start 0%nat
           nim_searched 0%nat (node_at nim_start 0)); reflexivity.
Defined.

Lemma terminal_nodes_in_search_witness :
  nim_over !! 0%nat = Some (node_at nim_over 0) ∧
  legal_moves (game (node_at nim_over 0)) = [] ∧
  child_nodes (node_at nim_over 0) = [] ∧
  get_policy_vector 0 nim_over =
    Ok (tt, <[0%nat := set_policy_vector (Some (replicate 218 (f_of_int 0)))
                         (set_policy_vector_legal_moves (Some [])
                            (node_at nim_over 0))]> nim_over).
Proof.
  split_and!; [reflexivity..|].
  destruct terminal_nodes_in_search as (_ & _ & _ & _ & Hpolicy & _).
  apply (Hpolicy 0%nat nim_over (node_at nim_over 0)); reflexivity.
Defined.

(** In a search of two iterations from a pile of one stone, the only
    child of the root is terminal, is selected twice, and ends with a
    populated [policy_vector]. *)
Lemma terminal_node_policy_vector_populated :
  MCTS 10 single_move_noise (Some (1%nat, true)) None 2 []
    = Ok (0%nat, nim_last_searched) ∧
  nim_last_searched !! 1%nat = Some (node_at nim_last_searched 1) ∧
  legal_moves (game (node_at nim_last_searched 1)) = [] ∧
  terminal_game_state (node_at nim_last_searched 1) = true ∧
  child_nodes (node_at nim_last_searched 1) = [] ∧
  policy_vector_legal_moves (node_at nim_last_searched 1) = Some [] ∧
  policy_vector (node_at nim_last_searched 1) = Some (replicate 218 0) ∧
  policy_vector (node_at nim_last_searched 1) ≠ None.
Proof. split_and!; [reflexivity..|discriminate]. Qed.

(** In the second iteration of a search from a pile of two stones the
    descent reaches node 1, which was visited once and has no policy
    vector; the iteration does not stop there: it ends on node 3, a child
    of node 1 created in this iteration, and backs up the evaluation of
    node 3, which differs from that of node 1. *)
Lemma descent_continues_into_new_child :
  nim_once !! 1%nat = Some (node_at nim_once 1) ∧
  0 < number_of_visits (node_at nim_once 1) ∧
  policy_vector_legal_moves (node_at nim_once 1) = None ∧
  policy_vector_legal_moves (node_at nim_once 0) = Some [504; 1004] ∧
  tf_add [504; 1004] (dirichlet_noise (first_move_noise 1) 2) = Ok [1404; 1104] ∧
  select_child 0 [1404; 1104] nim_once = Ok (1%nat, nim_once) ∧
  descend 10 1 nim_once = Ok (3%nat, heap_of (descend 10 1 nim_once)) ∧
  MCTS_iteration 10 0 (first_move_noise 1) nim_once = Ok (3%nat, nim_twice) ∧
  3%nat ≠ 1%nat ∧
  nim_once !! 3%nat = None ∧
  parent_node (node_at nim_twice 3) = Some 1%nat ∧
  number_of_visits (node_at nim_twice 3) = 1 ∧
  value_evaluation (node_at nim_twice 3) = 0 ∧
  value_evaluation (node_at nim_twice 1) = 500.
Proof. split_and!; try reflexivity. done. Qed.

(** ** The further properties on the toy instances *)

Lemma nim_engine_bounded : engine_bounded.
Proof.
  split.
  - intros [[|[|n]] b]; simpl; unfold MAX_MOVES; lia.
  - intros b. change (MAX_MOVES ≤ Z.of_nat (length (replicate 218 1000))).
    rewrite length_replicate. unfold MAX_MOVES. lia.
Qed.

Lemma fixed_point_strict_weak_order l : strict_weak_order_on l.
Proof.
  split_and!.
  - intros a _. apply Z.ltb_irrefl.
  - intros a b c _ _ _ Hab Hbc. apply Z.ltb_lt in Hab, Hbc. apply Z.ltb_lt. lia.
  - intros a b c _ _ _ Hac. apply Z.ltb_lt in Hac.
    destruct (decide (a < b)) as [Hab|Hab]; [left|right]; apply Z.ltb_lt; lia.
Qed.

Lemma boards_ok_nim_start : boards_ok nim_start.
Proof. intros [|r] nd; [|done]. intros [= <-]. constructor. Qed.

Lemma tree_wf_nim_start : tree_wf 0 nim_start.
Proof.
  split; [by eexists|]. intros r nd Hin Hr.
  apply (in_tree_childless 0 nim_start _ r eq_refl eq_refl) in Hin as ->.
  injection Hr as <-.
  split; [done|]. split; [apply new_node_flag|]. split; [done|].
  split; [done|]. split; [simpl; constructor|by left].
Qed.

Lemma tree_wf_nim_once : tree_wf 0 nim_once.
Proof.
  destruct (@reused_search_run FixedPoint Nim 0 nim_start 0 437 first_move_noise None 1
              nim_engine_bounded tree_wf_nim_start (in_tree_root _ _))
    as (h' & rn & rn' & _ & Hrun & Hwf & _); [vm_compute; lia|].
  assert (MCTS 437 first_move_noise None (Some 0%nat) 1 nim_start
          = Ok (0%nat, nim_once)) as Hcomp by reflexivity.
  rewrite Hcomp in Hrun. by injection Hrun as <-.
Qed.

Lemma tree_wf_nim_searched : tree_wf 0 nim_searched.
Proof.
  destruct (@reused_search_run FixedPoint Nim 0 nim_start 0 873 first_move_noise None 3
              nim_engine_bounded tree_wf_nim_start (in_tree_root _ _))
    as (h' & rn & rn' & _ & Hrun & Hwf & _); [vm_compute; lia|].
  assert (MCTS 873 first_move_noise None (Some 0%nat) 3 nim_start
          = Ok (0%nat, nim_searched)) as Hcomp by reflexivity.
  rewrite Hcomp in Hrun. by injection Hrun as <-.
Qed.

Lemma in_tree_nim_once_1 : in_tree 0 nim_once 1.
Proof.
  apply (in_tree_child 0 nim_once 0 (node_at nim_once 0) 1 (in_tree_root _ _) eq_refl).
  change (1%nat ∈ [1%nat; 2%nat]). apply list_elem_of_here.
Qed.

Lemma in_tree_nim_searched_1 : in_tree 0 nim_searched 1.
Proof.
  apply (in_tree_child 0 nim_searched 0 (node_at nim_searched 0) 1
           (in_tree_root _ _) eq_refl).
  change (1%nat ∈ [1%nat; 2%nat]). apply list_elem_of_here.
Qed.

Lemma in_tree_nim_searched_3 : in_tree 0 nim_searched 3.
Proof.
  apply (in_tree_child 0 nim_searched 1 (node_at nim_searched 1) 3
           in_tree_nim_searched_1 eq_refl).
  change (3%nat ∈ [3%nat]). apply list_elem_of_here.
Qed.

Lemma get_ucb1_score_cases_witness :
  tree_wf 0 nim_searched ∧ in_tree 0 nim_searched 1 ∧
  nim_searched !! 1%nat = Some (node_at nim_searched 1) ∧
  parent_node (node_at nim_searched 1) = Some 0%nat ∧
  nim_searched !! 0%nat = Some (node_at nim_searched 0) ∧
  let w := wins (node_at nim_searched 1) in
  let n := number_of_visits (node_at nim_searched 1) in
  let N := number_of_visits (node_at nim_searched 0) in
  let C := default_exploration_constant in
  C = f_sqrt (f_of_int 2) ∧
  0 ≤ n ≤ N ∧
  (0 < n →
   get_ucb1_score 1 C nim_searched =
     Ok (f_add (int_true_div w n)
               (f_mul C (f_sqrt (f_div (f_log_int N) (f_of_int n)))), nim_searched)) ∧
  (n = 0 → 0 < N →
   get_ucb1_score 1 C nim_searched = Ok (f_mul C (f_sqrt (f_log_int N)), nim_searched)) ∧
  (n = 0 → N = 0 → get_ucb1_score 1 C nim_searched = Ok (f_of_int 0, nim_searched)) ∧
  (∀ e, get_ucb1_score 1 C nim_searched ≠ Err e).
Proof.
  split_and!; [exact tree_wf_nim_searched|exact in_tree_nim_searched_1
              |reflexivity..|].
  apply (@get_ucb1_score_cases FixedPoint Nim 0%nat nim_searched 1%nat
           (node_at nim_searched 1) 0%nat (node_at nim_searched 0));
    [exact tree_wf_nim_searched|exact in_tree_nim_searched_1|reflexivity..].
Defined.

(** The third iteration from a pile of two stones: the descent goes from
    node 1, picked at the root, to node 3, which was visited once and has
    no policy vector. *)
Lemma descent_path_nim_twice : descent_path nim_twice 1 1 3.
Proof.
  apply (descent_path_step nim_twice 0 1 (node_at nim_twice 1) [4] 3 3);
    [reflexivity|reflexivity|reflexivity|reflexivity|reflexivity|constructor].
Qed.

Lemma descent_after_expansion_witness :
  nim_twice !! 3%nat = Some (node_at nim_twice 3) ∧
  0 < number_of_visits (node_at nim_twice 3) ∧
  policy_vector_legal_moves (node_at nim_twice 3) = None ∧
  child_nodes (node_at nim_twice 3) = [] ∧
  (terminal_game_state (node_at nim_twice 3) = true ↔
   legal_moves (game (node_at nim_twice 3)) = []) ∧
  Z.of_nat (length (legal_moves (game (node_at nim_twice 3)))) ≤ MAX_MOVES ∧
  (length (legal_moves (game (node_at nim_twice 3))) ≤
   length (POLICY_NETWORK (bitboard (node_at nim_twice 3))))%nat ∧
  (2 ≤ 2)%nat ∧
  policy_vector_legal_moves (node_at nim_twice 0) = Some [504; 1004] ∧
  tf_add [504; 1004] (dirichlet_noise (first_move_noise 2) 2) = Ok [1404; 1104] ∧
  select_child 0 [1404; 1104] nim_twice = Ok (1%nat, nim_twice) ∧
  descent_path nim_twice 1 1 3 ∧
  terminal_game_state (node_at nim_twice 3) = true ∧
  ∃ h1 sn1 en,
    get_policy_vector 3 nim_twice = Ok (tt, h1) ∧
    h1 !! 3%nat = Some sn1 ∧
    policy_vector_legal_moves sn1 = Some (first_scores (node_at nim_twice 3)) ∧
    descend 2 3 nim_twice = Ok (3%nat, h1) ∧
    h1 !! 3%nat = Some en ∧
    descend 3 1 nim_twice = Ok (3%nat, h1) ∧
    MCTS_iteration 3 0 (first_move_noise 2) nim_twice =
      bind (back_propagate 3 (Some 3%nat) (value_evaluation en) (move_turn (game en)))
        (λ _, ret 3%nat) h1.
Proof.
  assert (terminal_game_state (node_at nim_twice 3) = true ↔
          legal_moves (game (node_at nim_twice 3)) = []) as Hflag by done.
  assert (Z.of_nat (length (legal_moves (game (node_at nim_twice 3)))) ≤ MAX_MOVES)
    as Hmax.
  { vm_compute. discriminate. }
  assert ((length (legal_moves (game (node_at nim_twice 3))) ≤
           length (POLICY_NETWORK (bitboard (node_at nim_twice 3))))%nat) as HK.
  { vm_compute. lia. }
  assert (0 < number_of_visits (node_at nim_twice 3)) as Hvis by reflexivity.
  assert (terminal_game_state (node_at nim_twice 3) = true) as Hterm by reflexivity.
  split_and!; [reflexivity|exact Hvis|reflexivity|reflexivity|exact Hflag
              |exact Hmax|exact HK|lia|reflexivity|reflexivity|reflexivity
              |exact descent_path_nim_twice|exact Hterm|].
  destruct (@descent_after_expansion FixedPoint Nim 2%nat 3%nat nim_twice
              (node_at nim_twice 3) eq_refl Hvis eq_refl eq_refl Hflag Hmax HK
              ltac:(lia))
    as (h1 & sn1 & e & en & Hgpv & Hs1 & Hpv1 & Hdesc & He & Hstop & _ & Hpath
        & Hiter).
  rewrite (Hstop Hterm) in *.
  exists h1, sn1, en.
  split_and!; [exact Hgpv|exact Hs1|exact Hpv1|exact Hdesc|exact He
              |exact (Hpath 1%nat 1%nat descent_path_nim_twice)|].
  exact (Hiter 0%nat (first_move_noise 2) (node_at nim_twice 0) [504; 1004]
           [1404; 1104] 1%nat 1%nat eq_refl eq_refl eq_refl eq_refl
           descent_path_nim_twice).
Defined.

Lemma init_all_children_effect_witness :
  nim_start !! 0%nat = Some (node_at nim_start 0) ∧
  ∃ h' nd',
    init_all_children 0 nim_start = Ok (tt, h') ∧
    length h' = (length nim_start +
                 length (legal_moves (game (node_at nim_start 0))))%nat ∧
    h' !! 0%nat = Some nd' ∧
    child_nodes nd' =
      child_nodes (node_at nim_start 0) ++
      seq (length nim_start) (length (legal_moves (game (node_at nim_start 0)))) ∧
    visited_boards nd' =
      visited_boards (node_at nim_start 0) ++
      ((λ mv, board (look_for_draws (check_for_checkmate
                 (play_machine_move (game (node_at nim_start 0)) mv))))
         <$> legal_moves (game (node_at nim_start 0))) ∧
    ∀ i mv, legal_moves (game (node_at nim_start 0)) !! i = Some mv →
      ∃ cn, h' !! (length nim_start + i)%nat = Some cn ∧
        move cn = Some mv ∧ parent_node cn = Some 0%nat ∧
        game cn = look_for_draws (check_for_checkmate
                    (play_machine_move (game (node_at nim_start 0)) mv)) ∧
        number_of_visits cn = 0 ∧ wins cn = 0 ∧ child_nodes cn = [] ∧
        policy_vector cn = None ∧ policy_vector_legal_moves cn = None.
Proof.
  split; [reflexivity|].
  destruct (@init_all_children_effect FixedPoint Nim 0 nim_start (node_at nim_start 0) eq_refl)
    as (h' & nd' & Hrun & Hlen & _ & Hself & Hch & Hboards & _ & _ & _ & _ & _ & _ & _
        & _ & _ & Hnew).
  exists h', nd'. split_and!; assumption.
Defined.

Lemma init_all_children_twice_witness :
  nim_start !! 0%nat = Some (node_at nim_start 0) ∧
  ∃ h1 h2 nd2,
    init_all_children 0 nim_start = Ok (tt, h1) ∧
    init_all_children 0 h1 = Ok (tt, h2) ∧
    h2 !! 0%nat = Some nd2 ∧
    length h2 = (length nim_start +
                 2 * length (legal_moves (game (node_at nim_start 0))))%nat ∧
    child_nodes nd2 =
      child_nodes (node_at nim_start 0) ++
      seq (length nim_start)
        (2 * length (legal_moves (game (node_at nim_start 0)))) ∧
    ∀ i mv, legal_moves (game (node_at nim_start 0)) !! i = Some mv →
      ∃ cn1 cn2,
        h2 !! (length nim_start + i)%nat = Some cn1 ∧
        h2 !! (length nim_start +
               length (legal_moves (game (node_at nim_start 0))) + i)%nat
          = Some cn2 ∧
        move cn1 = Some mv ∧ move cn2 = Some mv.
Proof.
  split; [reflexivity|].
  apply (@init_all_children_twice FixedPoint Nim 0 nim_start (node_at nim_start 0)). reflexivity.
Defined.

Lemma visited_boards_parallel_witness :
  boards_ok nim_start ∧
  MCTS 10 first_move_noise None (Some 0%nat) 3 nim_start = Ok (0%nat, nim_searched) ∧
  boards_ok nim_searched.
Proof.
  split_and!; [exact boards_ok_nim_start|reflexivity|].
  destruct visited_boards_parallel as (_ & _ & Hsearch & _).
  apply (Hsearch 10%nat first_move_noise None (Some 0%nat) 3 nim_start 0%nat
           nim_searched); [reflexivity|exact boards_ok_nim_start].
Defined.

Lemma select_child_cases_witness :
  nim_searched !! 0%nat = Some (node_at nim_searched 0) ∧
  ([504; 1004] ≠ [] →
   (length [504; 1004] ≤ length (child_nodes (node_at nim_searched 0)))%nat →
   ∃ i c, (i < length [504; 1004])%nat ∧
          child_nodes (node_at nim_searched 0) !! i = Some c ∧
          select_child 0 [504; 1004] nim_searched = Ok (c, nim_searched)).
Proof.
  split; [reflexivity|].
  destruct (@select_child_cases FixedPoint Nim 0%nat nim_searched
              (node_at nim_searched 0) [504; 1004] eq_refl) as (_ & Hsel & _).
  exact Hsel.
Defined.

Lemma select_child_first_maximum_witness :
  strict_weak_order_on [504; 1004] ∧
  select_child 0 [504; 1004] nim_searched = Ok (2%nat, nim_searched) ∧
  ∃ nd i s,
    nim_searched !! 0%nat = Some nd ∧ child_nodes nd !! i = Some 2%nat ∧
    [504; 1004] !! i = Some s ∧
    (∀ j t, [504; 1004] !! j = Some t → f_ltb s t = false) ∧
    (∀ j t, (j < i)%nat → [504; 1004] !! j = Some t → f_ltb t s = true).
Proof.
  split_and!; [exact (fixed_point_strict_weak_order _)|reflexivity|].
  apply (@select_child_first_maximum FixedPoint Nim 0%nat [504; 1004] nim_searched
           2%nat nim_searched);
    [exact (fixed_point_strict_weak_order _)|reflexivity].
Defined.

Lemma random_game_simulation_playout_witness :
  nim_start !! 0%nat = Some (node_at nim_start 0) ∧
  random_game_simulation 5 first_choice 0 nim_start = Ok (Some false, nim_start) ∧
  ∃ ms g',
    playout (game (node_at nim_start 0)) ms g' ∧ (length ms ≤ 5)%nat ∧
    (legal_moves g' = [] ∨ stalemate g' = true) ∧
    Some false = white_win (check_for_checkmate g').
Proof.
  split_and!; [reflexivity..|].
  destruct (@random_game_simulation_playout FixedPoint Nim 5 first_choice 0 nim_start
              (node_at nim_start 0) eq_refl) as (Hret & _ & _).
  destruct (Hret (Some false) nim_start eq_refl) as (_ & Hplay). exact Hplay.
Defined.

Lemma get_ucb1_score_in_tree_witness :
  tree_wf 0 nim_searched ∧ in_tree 0 nim_searched 1 ∧
  ∃ u, get_ucb1_score 1 default_exploration_constant nim_searched
       = Ok (u, nim_searched).
Proof.
  split_and!; [exact tree_wf_nim_searched|exact in_tree_nim_searched_1|].
  exact (@get_ucb1_score_in_tree FixedPoint Nim 0 nim_searched 1 default_exploration_constant
           tree_wf_nim_searched in_tree_nim_searched_1).
Defined.

Lemma get_policy_vector_in_tree_witness :
  engine_bounded ∧ tree_wf 0 nim_searched ∧ in_tree 0 nim_searched 1 ∧
  ∃ nd h' nd',
    nim_searched !! 1%nat = Some nd ∧ get_policy_vector 1 nim_searched = Ok (tt, h') ∧
    tree_wf 0 h' ∧ h' !! 1%nat = Some nd' ∧
    is_Some (policy_vector_legal_moves nd') ∧
    length (child_nodes nd') = length (legal_moves (game nd)) ∧
    (child_nodes nd ≠ [] →
     length h' = length nim_searched ∧ child_nodes nd' = child_nodes nd) ∧
    (∀ r, r ≠ 1%nat → (r < length nim_searched)%nat → h' !! r = nim_searched !! r).
Proof.
  split_and!; [exact nim_engine_bounded|exact tree_wf_nim_searched
              |exact in_tree_nim_searched_1|].
  apply (@get_policy_vector_in_tree FixedPoint Nim 0 nim_searched 1);
    [exact nim_engine_bounded|exact tree_wf_nim_searched|exact in_tree_nim_searched_1].
Defined.

Lemma back_propagate_in_tree_witness :
  tree_wf 0 nim_searched ∧ in_tree 0 nim_searched 3 ∧
  (length nim_searched ≤ 4)%nat ∧
  ∃ h' rn,
    back_propagate 4 (Some 3%nat) 900 "white" nim_searched = Ok (tt, h') ∧
    tree_wf 0 h' ∧
    nim_searched !! 0%nat = Some rn ∧
    h' !! 0%nat = Some (backed_up 900 "white" rn) ∧
    (∀ x xn, nim_searched !! x = Some xn →
       h' !! x = Some xn ∨ h' !! x = Some (backed_up 900 "white" xn)) ∧
    (∀ x xn, nim_searched !! x = Some xn → ¬ in_tree 0 nim_searched x →
       h' !! x = Some xn).
Proof.
  assert (length nim_searched ≤ 4)%nat as Hfuel by (vm_compute; lia).
  split_and!; [exact tree_wf_nim_searched|exact in_tree_nim_searched_3|exact Hfuel|].
  apply (@back_propagate_in_tree FixedPoint Nim 0 nim_searched 3 4 900 "white");
    [exact tree_wf_nim_searched|exact in_tree_nim_searched_3|exact Hfuel].
Defined.

Lemma descend_in_tree_witness :
  engine_bounded ∧ tree_wf 0 nim_once ∧ in_tree 0 nim_once 1 ∧
  (length nim_once - 1 + 1 ≤ 3)%nat ∧
  ∃ e h' en,
    descend 3 1 nim_once = Ok (e, h') ∧ tree_wf 0 h' ∧ in_tree 0 h' e ∧
    h' !! e = Some en ∧
    (number_of_visits en = 0 ∨
     terminal_game_state en = true ∧ is_Some (policy_vector_legal_moves en)) ∧
    (length nim_once ≤ length h' ≤ length nim_once + Z.to_nat MAX_MOVES)%nat ∧
    (∀ x xn, nim_once !! x = Some xn →
       ∃ xn', h' !! x = Some xn' ∧
         number_of_visits xn' = number_of_visits xn ∧ wins xn' = wins xn) ∧
    (∀ x xn, nim_once !! x = Some xn → ¬ in_tree 0 nim_once x → h' !! x = Some xn).
Proof.
  assert (length nim_once - 1 + 1 ≤ 3)%nat as Hfuel by (vm_compute; lia).
  split_and!; [exact nim_engine_bounded|exact tree_wf_nim_once
              |exact in_tree_nim_once_1|exact Hfuel|].
  apply (@descend_in_tree FixedPoint Nim 0 3 1 nim_once);
    [exact nim_engine_bounded|exact tree_wf_nim_once|exact in_tree_nim_once_1
    |exact Hfuel].
Defined.

Lemma MCTS_new_tree_witness :
  engine_bounded ∧
  (length (@nil Game_Node) + 1 + 218 * (Z.to_nat 3 + 1) ≤ 873)%nat ∧
  ∃ h' rn,
    MCTS 873 first_move_noise (Some (2%nat, true)) None 3 [] = Ok (0%nat, h') ∧
    tree_wf 0 h' ∧ h' !! 0%nat = Some rn ∧
    game rn = look_for_draws (check_for_checkmate (2%nat, true)) ∧
    (terminal_game_state rn = true ↔ legal_moves (game rn) = []) ∧
    number_of_visits rn = (if terminal_game_state rn then 0 else Z.of_nat (Z.to_nat 3)) ∧
    (terminal_game_state rn = false →
     is_Some (policy_vector_legal_moves rn) ∧
     length (child_nodes rn) = length (legal_moves (game rn))) ∧
    (∀ r, (r < 0)%nat → h' !! r = (@nil Game_Node) !! r) ∧
    (length h' ≤ 0 + 1 + 218 * (Z.to_nat 3 + 1))%nat.
Proof.
  assert (length (@nil Game_Node) + 1 + 218 * (Z.to_nat 3 + 1) ≤ 873)%nat as Hfuel
    by (vm_compute; lia).
  split_and!; [exact nim_engine_bounded|exact Hfuel|].
  apply (@MCTS_new_tree FixedPoint Nim 873 first_move_noise (2%nat, true) 3 []);
    [exact nim_engine_bounded|exact Hfuel].
Defined.

Lemma MCTS_subtree_witness :
  engine_bounded ∧ tree_wf 0 nim_searched ∧ in_tree 0 nim_searched 1 ∧
  (length nim_searched + 218 * (Z.to_nat 2 + 1) ≤ 658)%nat ∧
  ∃ h' rn rn',
    nim_searched !! 1%nat = Some rn ∧
    MCTS 658 single_move_noise None (Some 1%nat) 2 nim_searched = Ok (1%nat, h') ∧
    tree_wf 1 h' ∧ h' !! 1%nat = Some rn' ∧
    parent_node rn' = None ∧ game rn' = game rn ∧
    number_of_visits rn' =
      number_of_visits rn +
      (if terminal_game_state rn then 0 else Z.of_nat (Z.to_nat 2)) ∧
    (terminal_game_state rn = false →
     is_Some (policy_vector_legal_moves rn') ∧
     length (child_nodes rn') = length (legal_moves (game rn'))) ∧
    (∀ x xn, nim_searched !! x = Some xn → ¬ in_tree 1 nim_searched x →
       h' !! x = Some xn).
Proof.
  assert (length nim_searched + 218 * (Z.to_nat 2 + 1) ≤ 658)%nat as Hfuel
    by (vm_compute; lia).
  split_and!; [exact nim_engine_bounded|exact tree_wf_nim_searched
              |exact in_tree_nim_searched_1|exact Hfuel|].
  apply (@MCTS_subtree FixedPoint Nim 0 nim_searched 1 658 single_move_noise None 2);
    [exact nim_engine_bounded|exact tree_wf_nim_searched
    |exact in_tree_nim_searched_1|exact Hfuel].
Defined.

Lemma find_child_node_information_in_tree_witness :
  tree_wf 0 nim_searched ∧ in_tree 0 nim_searched 0 ∧
  nim_searched !! 0%nat = Some (node_at nim_searched 0) ∧
  ∃ evaluations ucb1_scores,
    find_child_node_information 0 nim_searched
      = Ok ((evaluations, ucb1_scores), nim_searched) ∧
    length evaluations = length (child_nodes (node_at nim_searched 0)) ∧
    length ucb1_scores = length (child_nodes (node_at nim_searched 0)) ∧
    ∀ i c, child_nodes (node_at nim_searched 0) !! i = Some c →
      ∃ cn u, nim_searched !! c = Some cn ∧
        evaluations !! i = Some (value_evaluation cn) ∧
        ucb1_scores !! i = Some u ∧
        get_ucb1_score c default_exploration_constant nim_searched
          = Ok (u, nim_searched).
Proof.
  split_and!; [exact tree_wf_nim_searched|constructor|reflexivity|].
  apply (@find_child_node_information_in_tree FixedPoint Nim 0 nim_searched 0
           (node_at nim_searched 0));
    [exact tree_wf_nim_searched|constructor|reflexivity].
Defined.

Lemma make_a_move_in_tree_witness :
  tree_wf 0 nim_searched ∧ in_tree 0 nim_searched 0 ∧
  nim_searched !! 0%nat = Some (node_at nim_searched 0) ∧
  child_nodes (node_at nim_searched 0) ≠ [] ∧
  2%nat ∈ legal_moves (game (node_at nim_searched 0)) ∧
  ∃ c cn, make_a_move 0 (Some 2%nat) nim_searched = Ok (Some c, nim_searched) ∧
    in_tree 0 nim_searched c ∧ nim_searched !! c = Some cn ∧
    move cn = Some 2%nat ∧ parent_node cn = Some 0%nat ∧
    game cn = look_for_draws (check_for_checkmate
                (play_machine_move (game (node_at nim_searched 0)) 2%nat)).
Proof.
  assert (child_nodes (node_at nim_searched 0) ≠ []) as Hne by done.
  assert (2%nat ∈ legal_moves (game (node_at nim_searched 0))) as Hmv.
  { change (2%nat ∈ [1%nat; 2%nat]). apply list_elem_of_further, list_elem_of_here. }
  split_and!; [exact tree_wf_nim_searched|constructor|reflexivity|exact Hne
              |exact Hmv|].
  pose proof (@make_a_move_in_tree FixedPoint Nim 0 nim_searched 0 (node_at nim_searched 0) 2%nat
                tree_wf_nim_searched (in_tree_root _ _) eq_refl Hne) as Hmove.
  rewrite decide_True in Hmove by exact Hmv. exact Hmove.
Defined.

Lemma search_move_search_witness :
  engine_bounded ∧
  1%nat ∈ legal_moves (look_for_draws (check_for_checkmate (2%nat, true))) ∧
  (length (@nil Game_Node) + 1 + 218 * (Z.to_nat 2 + 1)
     + 218 * (Z.to_nat 2 + 1) ≤ 1309)%nat ∧
  ∃ h1 c cn h2 cn',
    MCTS 1309 first_move_noise (Some (2%nat, true)) None 2 [] = Ok (0%nat, h1) ∧
    make_a_move 0 (Some 1%nat) h1 = Ok (Some c, h1) ∧
    h1 !! c = Some cn ∧
    MCTS 1309 single_move_noise None (Some c) 2 h1 = Ok (c, h2) ∧
    tree_wf c h2 ∧ h2 !! c = Some cn' ∧
    move cn' = Some 1%nat ∧ parent_node cn' = None ∧
    game cn' = look_for_draws (check_for_checkmate
                 (play_machine_move
                    (look_for_draws (check_for_checkmate (2%nat, true))) 1%nat)) ∧
    number_of_visits cn' =
      number_of_visits cn +
      (if terminal_game_state cn then 0 else Z.of_nat (Z.to_nat 2)).
Proof.
  assert (1%nat ∈ legal_moves (look_for_draws (check_for_checkmate (2%nat, true))))
    as Hmv.
  { change (1%nat ∈ [1%nat; 2%nat]). apply list_elem_of_here. }
  assert (length (@nil Game_Node) + 1 + 218 * (Z.to_nat 2 + 1)
            + 218 * (Z.to_nat 2 + 1) ≤ 1309)%nat as Hfuel by (vm_compute; lia).
  split_and!; [exact nim_engine_bounded|exact Hmv|exact Hfuel|].
  apply (@search_move_search FixedPoint Nim 1309 first_move_noise single_move_noise (2%nat, true)
           1%nat 2 2 []); [exact nim_engine_bounded|exact Hmv|exact Hfuel].
Defined.

Lemma MCTS_keeps_objects_witness :
  MCTS 10 first_move_noise None (Some 0%nat) 3 nim_start = Ok (0%nat, nim_searched) ∧
  (length nim_start ≤ length nim_searched)%nat ∧
  ∀ r x, nim_start !! r = Some x →
    ∃ x', nim_searched !! r = Some x' ∧
      move x' = move x ∧ game x' = game x ∧ bitboard x' = bitboard x ∧
      terminal_game_state x' = terminal_game_state x ∧
      number_of_visits x ≤ number_of_visits x' ∧ wins x ≤ wins x' ∧
      (child_nodes x ≠ [] → child_nodes x' = child_nodes x).
Proof.
  split; [reflexivity|].
  apply (@MCTS_keeps_objects FixedPoint Nim 10 first_move_noise None (Some 0%nat) 3 nim_start 0%nat
           nim_searched). reflexivity.
Defined.

Lemma MCTS_root_scores_witness :
  engine_bounded ∧
  legal_moves (look_for_draws (check_for_checkmate (2%nat, true))) ≠ [] ∧
  (length (@nil Game_Node) + 1 + 218 * (Z.to_nat 3 + 1) ≤ 873)%nat ∧
  ∃ h' rn scores,
    MCTS 873 first_move_noise (Some (2%nat, true)) None 3 [] = Ok (0%nat, h') ∧
    h' !! 0%nat = Some rn ∧
    number_of_visits rn = Z.of_nat (Z.to_nat 3) ∧
    policy_vector_legal_moves rn = Some scores ∧
    length scores
      = length (legal_moves (look_for_draws (check_for_checkmate (2%nat, true)))) ∧
    ∀ i mv,
      legal_moves (look_for_draws (check_for_checkmate (2%nat, true))) !! i = Some mv →
      ∃ raw,
        POLICY_NETWORK (to_bits (2%nat, true)) !! i = Some raw ∧
        scores !! i =
          Some (f_add
                  (f_add (value_evaluation
                            (born 0 (look_for_draws (check_for_checkmate (2%nat, true)))
                               mv))
                         (f_of_int 0))
                  (f_div raw (reduce_sum (POLICY_NETWORK (to_bits (2%nat, true)))))).
Proof.
  assert (legal_moves (look_for_draws (check_for_checkmate (2%nat, true))) ≠ [])
    as Hmoves by done.
  assert (length (@nil Game_Node) + 1 + 218 * (Z.to_nat 3 + 1) ≤ 873)%nat as Hfuel
    by (vm_compute; lia).
  split_and!; [exact nim_engine_bounded|exact Hmoves|exact Hfuel|].
  apply (@MCTS_root_scores FixedPoint Nim 873 first_move_noise (2%nat, true) 3 []);
    [exact nim_engine_bounded|exact Hmoves|exact Hfuel].
Defined.

Section CrowdedGame.
#[local] Existing Instance Crowded.

Lemma get_policy_vector_too_many_moves_witness :
  crowded_start !! 0%nat = Some crowded_root ∧
  MAX_MOVES < Z.of_nat (length (legal_moves (game crowded_root))) ∧
  (∀ u h', get_policy_vector 0 crowded_start ≠ Ok (u, h')) ∧
  get_policy_vector 0 crowded_start = Err InvalidArgumentError.
Proof.
  assert (MAX_MOVES < Z.of_nat (length (legal_moves (game crowded_root))))
    as Hmany by (vm_compute; reflexivity).
  destruct (@get_policy_vector_too_many_moves FixedPoint Crowded 0%nat crowded_start
              crowded_root eq_refl Hmany) as [Hnever Hraise].
  split_and!; [reflexivity|exact Hmany|exact Hnever|].
  apply Hraise; [reflexivity|vm_compute; lia].
Defined.

End CrowdedGame.
